(** * Mobility-network community detection: a shallow embedding

    The service in [app/processing.py] and [app/main.py] builds an undirected
    graph from the first records of a CSV file ([load_graph_data]), runs the
    Louvain method on it ([detect_communities]) and serves the outcome over
    HTTP ([analyze_network]); it also draws the graph coloured by community
    ([generate_graph_image], served by [visualize_network]).  The functions
    are embedded below as they are written, with the start-up and shut-down
    of [lifespan].  What they call in pandas, networkx, numpy and
    python-louvain is embedded in the modules [pd], [nx], [np_random] and
    [community_louvain], following the behaviour of those library functions
    (pandas' [read_csv], networkx 3.x [Graph], numpy's legacy [RandomState],
    python-louvain 0.16).  Of the rendering, the layout and the mean are
    parameters and the drawing calls are recorded as a list.

    Conventions.
    - A Python [dict] keeps insertion order; it is an association list with
      unique keys ([dict_set] overwrites in place or appends).
    - Station identifiers are integers ([Z]).  A CSV file is its header and
      its records of integer cells; which stations and edges a file gives
      is stated for files whose records have one 64-bit integer per column
      ([edge_records]), which pandas reads as they are.
    - Python floats are IEEE binary64: the instance [float_num] of the class
      [Num] runs every definition on Rocq's primitive floats, and what is
      proved of signs in binary64 rests on their specification
      ([FloatAxioms]).  The instance [Q_num] reads the same definitions over
      exact rationals, which is how the mathematical value of the modularity
      formula is reasoned about; nothing proved there is a statement about
      the rounded number the code returns.
    - Exceptions and the process-wide random generator are threaded
      explicitly: [outcome] for code that can raise, [M] for code that also
      draws random numbers or leaves a trace.
    - The two [while] loops of the optimizer run on a step budget ([fuel]);
      [OutOfFuel] marks a run that was cut short.  A larger budget never
      changes a result ([detect_communities_budget]). *)

From Stdlib Require Import ZArith QArith Qabs Lia Lqa List String Bool Arith.
From Stdlib Require Import Permutation PrimFloat Uint63 DecimalString.
From Stdlib Require Import SpecFloat FloatOps FloatAxioms.
Import ListNotations.

Local Open Scope string_scope.
Local Open Scope Z_scope.
Local Open Scope list_scope.

Set Implicit Arguments.

(** ** Numbers *)

Class Num (F : Type) := {
  fzero : F;
  fone : F;
  fadd : F -> F -> F;
  fsub : F -> F -> F;
  fmul : F -> F -> F;
  fdiv : F -> F -> F;
  fltb : F -> F -> bool;
  feqb : F -> F -> bool;
  (** [__MIN = 0.0000001] of python-louvain *)
  f__MIN : F
}.

Definition ftwo {F} `{Num F} : F := fadd fone fone.

#[global] Instance float_num : Num float := {|
  fzero := 0%float;
  fone := 1%float;
  fadd := PrimFloat.add;
  fsub := PrimFloat.sub;
  fmul := PrimFloat.mul;
  fdiv := PrimFloat.div;
  fltb := PrimFloat.ltb;
  feqb := PrimFloat.eqb;
  f__MIN := 0x1.ad7f29abcaf48p-24%float
|}.

Definition Qltb (x y : Q) : bool := negb (Qle_bool y x).

#[global] Instance Q_num : Num Q := {|
  fzero := 0%Q;
  fone := 1%Q;
  fadd := Qplus;
  fsub := Qminus;
  fmul := Qmult;
  fdiv := Qdiv;
  fltb := Qltb;
  feqb := Qeq_bool;
  f__MIN := (1 # 10000000)%Q
|}.

(** ** Exceptions *)

Inductive exn_kind :=
| FileNotFoundError
| EmptyDataError
| ParserError
| ValueError
| KeyError
| IndexError
| TypeError
| HTTPException (status_code : Z).

(** An exception object; [message] is what [str(e)] returns. *)
Record exn := mk_exn { kind : exn_kind; message : string }.

(** The result of running a piece of Python: a value, a raised exception, or
    a loop that was still running when the step budget ran out. *)
Inductive outcome (A : Type) :=
| Ok (a : A)
| Raise (e : exn)
| OutOfFuel.
Arguments Ok {A} a.
Arguments Raise {A} e.
Arguments OutOfFuel {A}.

Definition obind {A B} (c : outcome A) (k : A -> outcome B) : outcome B :=
  match c with
  | Ok a => k a
  | Raise e => Raise e
  | OutOfFuel => OutOfFuel
  end.

Notation "x <-? c ;; k" := (obind c (fun x => k))
  (at level 61, c at next level, right associativity).

(** ** Equality tests on keys *)

Class EqDec (K : Type) := eq_dec : forall x y : K, {x = y} + {x <> y}.
#[global] Instance Z_EqDec : EqDec Z := Z.eq_dec.
#[global] Instance string_EqDec : EqDec string := string_dec.

Definition eqb_of {K} `{EqDec K} (x y : K) : bool :=
  if eq_dec x y then true else false.

(** ** Python dictionaries *)

Section Dict.
Context {K V : Type} `{EqDec K}.

Definition dict := list (K * V).

Definition keys (d : dict) : list K := map fst d.
Definition values (d : dict) : list V := map snd d.

(** [d.get(k)] *)
Fixpoint dict_get (d : dict) (k : K) : option V :=
  match d with
  | [] => None
  | (k', v) :: d' => if eq_dec k k' then Some v else dict_get d' k
  end.

(** [d.get(k, default)] *)
Definition dict_get_default (d : dict) (k : K) (default : V) : V :=
  match dict_get d k with Some v => v | None => default end.

(** [k in d] *)
Definition dict_mem (d : dict) (k : K) : bool :=
  match dict_get d k with Some _ => true | None => false end.

(** [d[k] = v]: an existing key keeps its position, a new key goes last *)
Fixpoint dict_set (d : dict) (k : K) (v : V) : dict :=
  match d with
  | [] => [(k, v)]
  | (k', v') :: d' =>
      if eq_dec k k' then (k, v) :: d' else (k', v') :: dict_set d' k v
  end.
End Dict.
Arguments dict K V : clear implicits.

(** [str(n)] of a Python integer, as an f-string formats it *)
Definition str (n : Z) : string := NilZero.string_of_int (Z.to_int n).

(** [d[k]] with integer keys, raising [KeyError(k)], whose [str] is the
    key *)
Definition dict_item {V} (d : dict Z V) (k : Z) : outcome V :=
  match dict_get d k with
  | Some v => Ok v
  | None => Raise (mk_exn KeyError (str k))
  end.

(** ** pandas *)

Module pd.

(** A CSV file: the header line and the data records, one integer cell
    per column. *)
Record csv_file := { header : list string; body : list (list Z) }.

(** What is stored under each path; [None] when no file is there. *)
Definition filesystem := string -> option csv_file.

Record DataFrame := { columns : list string; data : list (list Z) }.

Definition record_fits (ncols : nat) (r : list Z) : bool :=
  Nat.eqb (List.length r) ncols.

(** [pd.read_csv(filepath, nrows=n)]: only the first [n] data records are
    parsed.  A missing file raises [FileNotFoundError], a file without a
    header raises [EmptyDataError].  Parsed records that have one cell per
    column are read as they are.  A record of another length makes the
    embedding raise [ParserError], as pandas does for a record longer than
    the ones before it; pandas pads a shorter record with NaN and reads the
    leading cells of a longer first record as an index, which is not
    embedded.  The properties below that say which stations and edges a
    file gives are therefore stated for files of edge records
    ([edge_records]). *)
Definition read_csv (fs : filesystem) (filepath : string) (nrows : nat)
  : outcome DataFrame :=
  match fs filepath with
  | None =>
      Raise (mk_exn FileNotFoundError
               ("[Errno 2] No such file or directory: '" ++ filepath ++ "'")%string)
  | Some f =>
      match header f with
      | [] => Raise (mk_exn EmptyDataError "No columns to parse from file")
      | _ =>
          let parsed := firstn nrows (body f) in
          if forallb (record_fits (List.length (header f))) parsed
          then Ok {| columns := header f; data := parsed |}
          else Raise (mk_exn ParserError "Error tokenizing data")
      end
  end.

Fixpoint index_of (col : string) (cols : list string) : option nat :=
  match cols with
  | [] => None
  | c :: cols' =>
      if eq_dec col c then Some O
      else match index_of col cols' with
           | Some i => Some (S i)
           | None => None
           end
  end.

(** [col in df.columns] *)
Definition has_column (df : DataFrame) (col : string) : bool :=
  match index_of col (columns df) with Some _ => true | None => false end.

(** [df[col]]: the column as a sequence of cells *)
Definition column (df : DataFrame) (col : string) : outcome (list Z) :=
  match index_of col (columns df) with
  | Some i => Ok (map (fun r => nth i r 0) (data df))
  | None => Raise (mk_exn KeyError col)
  end.

End pd.

(** ** networkx *)

Module nx.
Section Graph.
Context {F : Type} `{Num F}.

(** The attribute dictionary of an edge.  The only key any caller reads
    is ['weight']: [None] is the empty dictionary, [Some w] is
    [{'weight': w}]. *)
Definition attrs := option F.

(** [datadict.get('weight', default)] *)
Definition weight_of (dd : attrs) (default : F) : F :=
  match dd with Some w => w | None => default end.

(** [datadict.update(attr)] *)
Definition attrs_update (dd attr : attrs) : attrs :=
  match attr with Some w => Some w | None => dd end.

(** [nx.Graph]: the adjacency dictionary [_adj], node -> neighbour ->
    edge attributes.  Its keys, in insertion order, are the nodes. *)
Definition Graph := dict Z (dict Z attrs).

Definition empty_graph : Graph := [].

(** [G.nodes] / iteration over [G] *)
Definition nodes (G : Graph) : list Z := keys G.

(** [len(G)], [len(G.nodes)] *)
Definition number_of_nodes (G : Graph) : nat := List.length G.

(** [G[n]]; the empty dictionary stands for a node that is not there
    where the callers below have already tested membership *)
Definition neighbors (G : Graph) (n : Z) : dict Z attrs :=
  dict_get_default G n [].

Definition add_node (G : Graph) (n : Z) : Graph :=
  if dict_mem G n then G else G ++ [(n, [])].

(** [G.add_nodes_from(ns)] *)
Definition add_nodes_from (G : Graph) (ns : list Z) : Graph :=
  fold_left add_node ns G.

(** [G.add_edge(u, v, **attr)] *)
Definition add_edge (G : Graph) (u v : Z) (attr : attrs) : Graph :=
  let G1 := add_node (add_node G u) v in
  let datadict := attrs_update (dict_get_default (neighbors G1 u) v None) attr in
  let G2 := dict_set G1 u (dict_set (neighbors G1 u) v datadict) in
  dict_set G2 v (dict_set (neighbors G2 v) u datadict).

(** [G.add_edges_from(ebunch)] for 2-tuples *)
Definition add_edges_from (G : Graph) (ebunch : list (Z * Z)) : Graph :=
  fold_left (fun g e => add_edge g (fst e) (snd e) None) ebunch G.

(** [G.has_edge(u, v)] *)
Definition has_edge (G : Graph) (u v : Z) : bool :=
  match dict_get G u with
  | Some nbrs => dict_mem nbrs v
  | None => false
  end.

(** [G.get_edge_data(u, v, default)] *)
Definition get_edge_data (G : Graph) (u v : Z) (default : attrs) : attrs :=
  match dict_get G u with
  | Some nbrs => dict_get_default nbrs v default
  | None => default
  end.

Definition fsum (l : list F) : F := fold_left fadd l fzero.

(** The weighted degree of a node from its neighbour dictionary, as
    [G.degree(weight='weight')] computes it: a self-loop counts twice. *)
Definition degree_of (n : Z) (nbrs : dict Z attrs) : F :=
  let deg := fsum (map (fun dd => weight_of dd fone) (values nbrs)) in
  match dict_get nbrs n with
  | Some dd => fadd deg (weight_of dd fone)
  | None => deg
  end.

(** [G.degree(n, weight='weight')] *)
Definition degree (G : Graph) (n : Z) : F := degree_of n (neighbors G n).

(** [G.size(weight='weight')] *)
Definition size (G : Graph) : F :=
  fdiv (fsum (map (fun nd => degree_of (fst nd) (snd nd)) G)) ftwo.

(** The unweighted degree, a self-loop counting twice *)
Definition degree_count (n : Z) (nbrs : dict Z attrs) : nat :=
  (List.length nbrs + if dict_mem nbrs n then 1 else 0)%nat.

(** [G.number_of_edges()] is [int(G.size())] *)
Definition number_of_edges (G : Graph) : nat :=
  Nat.div (list_sum (map (fun nd => degree_count (fst nd) (snd nd)) G)) 2.

(** [G.edges(data=True)]: every edge once, reported from the endpoint met
    first in node order *)
Fixpoint edges_from (adj : Graph) (seen : list Z) : list (Z * Z * attrs) :=
  match adj with
  | [] => []
  | (n, nbrs) :: adj' =>
      map (fun e => (n, fst e, snd e))
          (filter (fun e => negb (existsb (Z.eqb (fst e)) seen)) nbrs)
      ++ edges_from adj' (n :: seen)
  end.

Definition edges (G : Graph) : list (Z * Z * attrs) := edges_from G [].

(** [nx.from_pandas_edgelist(df, source, target)] with the default
    [edge_attr=None]: [g.add_edges_from(zip(df[source], df[target]))] *)
Definition from_pandas_edgelist (df : pd.DataFrame) (source target : string)
  : outcome Graph :=
  s <-? pd.column df source ;;
  t <-? pd.column df target ;;
  Ok (add_edges_from empty_graph (combine s t)).

End Graph.
Arguments Graph F : clear implicits.
Arguments attrs F : clear implicits.
End nx.

(** ** The process: random generator and instrumentation *)

(** Library entry points that leave a mark when they are entered. *)
Inductive call :=
| Call_best_partition
| Call_one_level.

(** The part of the Python process the analysis depends on.
    [random_state] is numpy's global [RandomState] ([np.random.mtrand._rand]),
    seeded from operating-system entropy when numpy is imported: it is
    represented by the values its next bounded draws will take (zeros once
    the list is used up).  [trace] records the instrumented calls. *)
Record world := { random_state : list nat; trace : list call }.

Definition M (A : Type) := world -> outcome A * world.

Definition ret {A} (a : A) : M A := fun w => (Ok a, w).

Definition bind {A B} (c : M A) (k : A -> M B) : M B :=
  fun w =>
    match c w with
    | (Ok a, w') => k a w'
    | (Raise e, w') => (Raise e, w')
    | (OutOfFuel, w') => (OutOfFuel, w')
    end.

Definition lift {A} (o : outcome A) : M A := fun w => (o, w).
Definition raise {A} (e : exn) : M A := lift (Raise e).
Definition out_of_fuel {A} : M A := lift OutOfFuel.

Definition log (c : call) : M unit :=
  fun w => (Ok tt, {| random_state := random_state w; trace := trace w ++ [c] |}).

(** [try: c except Exception as e: h e] *)
Definition try_except {A} (c : M A) (h : exn -> M A) : M A :=
  fun w =>
    match c w with
    | (Raise e, w') => h e w'
    | r => r
    end.

Notation "x <- c ;; k" := (bind c (fun x => k))
  (at level 61, c at next level, right associativity).

(** [for x in xs: acc = body acc x] *)
Fixpoint mfold {A S} (body : S -> A -> M S) (xs : list A) (acc : S) : M S :=
  match xs with
  | [] => ret acc
  | x :: xs' => acc' <- body acc x ;; mfold body xs' acc'
  end.

Fixpoint ofold {A S} (body : S -> A -> outcome S) (xs : list A) (acc : S)
  : outcome S :=
  match xs with
  | [] => Ok acc
  | x :: xs' => acc' <-? body acc x ;; ofold body xs' acc'
  end.

(** ** numpy's legacy generator *)

Module np_random.

(** [random_interval(&bitgen, max)]: a draw in [[0, max]] *)
Definition random_interval (max : nat) : M nat :=
  fun w =>
    match random_state w with
    | [] => (Ok O, w)
    | d :: ds =>
        (Ok (Nat.modulo d (S max)), {| random_state := ds; trace := trace w |})
    end.

Fixpoint list_update {A} (x : list A) (i : nat) (a : A) : list A :=
  match x, i with
  | [], _ => []
  | _ :: x', O => a :: x'
  | b :: x', S i' => b :: list_update x' i' a
  end.

(** [x[i], x[j] = x[j], x[i]] *)
Definition swap {A} (x : list A) (i j : nat) : list A :=
  match nth_error x i, nth_error x j with
  | Some a, Some b => list_update (list_update x i b) j a
  | _, _ => x
  end.

(** The body of [RandomState.shuffle] on a Python list:
    [for i in reversed(range(1, n)): j = random_interval(i); swap] *)
Fixpoint shuffle_from {A} (i : nat) (x : list A) : M (list A) :=
  match i with
  | O => ret x
  | S i' =>
      j <- random_interval i ;;
      shuffle_from i' (swap x i j)
  end.

Definition shuffle {A} (x : list A) : M (list A) :=
  shuffle_from (List.length x - 1) x.

End np_random.

(** ** Python sets of integers *)

(** A [set] of community ids, iterated in increasing order.  That is the
    order of CPython for non-negative integers below the size of the set's
    hash table, as the ids of the sample graphs are; for larger ids the
    order of CPython may differ, which changes the order of the summands in
    [__modularity] and [modularity] and the pairing in [__renumber], never
    which ids are in the set. *)
Fixpoint set_add (x : Z) (s : list Z) : list Z :=
  match s with
  | [] => [x]
  | y :: s' =>
      if x <? y then x :: s
      else if x =? y then s
      else y :: set_add x s'
  end.

(** [set(xs)] *)
Definition py_set (xs : list Z) : list Z :=
  fold_left (fun s x => set_add x s) xs [].

Definition set_mem (x : Z) (s : list Z) : bool := existsb (Z.eqb x) s.

(** [range(n)] *)
Definition py_range (n : nat) : list Z := map Z.of_nat (seq 0 n).

(** ** python-louvain *)

Module community_louvain.
Section Louvain.
Context {F : Type} `{Num F}.

Local Abbreviation Graph := (nx.Graph F).

(** The [resolution=1.] default *)
Definition resolution : F := fone.

Definition square (x : F) : F := fmul x x.

(** [class Status] *)
Record Status := {
  node2com : dict Z Z;
  total_weight : F;
  internals : dict Z F;
  degrees : dict Z F;
  gdegrees : dict Z F;
  loops : dict Z F
}.

(** [Status()] *)
Definition Status_new : Status :=
  {| node2com := []; total_weight := fzero; internals := [];
     degrees := []; gdegrees := []; loops := [] |}.

(** [ValueError("Bad node degree ({})".format(deg))]: the message of the
    code goes on with the degree in parentheses, which is left out. *)
Definition bad_degree : exn := mk_exn ValueError "Bad node degree".

(** The body of the loop of [Status.init] *)
Definition Status_init_node (graph : Graph) (acc : Status * Z) (node : Z)
  : outcome (Status * Z) :=
  let '(st, count) := acc in
  let deg := nx.degree graph node in
  if fltb deg fzero then Raise bad_degree
  else
    let edge_data := nx.get_edge_data graph node node (Some fzero) in
    let loop := nx.weight_of edge_data fone in
    Ok ({| node2com := dict_set (node2com st) node count;
           total_weight := total_weight st;
           internals := dict_set (internals st) count loop;
           degrees := dict_set (degrees st) count deg;
           gdegrees := dict_set (gdegrees st) node deg;
           loops := dict_set (loops st) node loop |},
        count + 1).

(** [status.init(graph, weight)]: every node in a community of its own,
    numbered by position.  [loops] is the one field [init] does not
    reset. *)
Definition Status_init (st : Status) (graph : Graph) : outcome Status :=
  let st0 := {| node2com := []; total_weight := nx.size graph;
                internals := []; degrees := []; gdegrees := [];
                loops := loops st |} in
  r <-? ofold (Status_init_node graph) (nx.nodes graph) (st0, 0) ;;
  Ok (fst r).

(** [__modularity(status, resolution)] *)
Definition __modularity (status : Status) : F :=
  let links := total_weight status in
  fold_left
    (fun result community =>
       let in_degree := dict_get_default (internals status) community fzero in
       let degree := dict_get_default (degrees status) community fzero in
       if fltb fzero links
       then fadd result
              (fsub (fdiv (fmul in_degree resolution) links)
                    (square (fdiv degree (fmul ftwo links))))
       else result)
    (py_set (values (node2com status))) fzero.

(** [__neighcom(node, graph, status, weight_key)] *)
Definition __neighcom (node : Z) (graph : Graph) (status : Status)
  : outcome (dict Z F) :=
  ofold
    (fun weights nd =>
       let '(neighbor, datas) := nd in
       if Z.eqb neighbor node then Ok weights
       else
         let edge_weight := nx.weight_of datas fone in
         neighborcom <-? dict_item (node2com status) neighbor ;;
         Ok (dict_set weights neighborcom
               (fadd (dict_get_default weights neighborcom fzero) edge_weight)))
    (nx.neighbors graph node) [].

(** [__remove(node, com, weight, status)] *)
Definition __remove (node com : Z) (weight : F) (status : Status) : Status :=
  {| node2com := dict_set (node2com status) node (-1);
     total_weight := total_weight status;
     internals :=
       dict_set (internals status) com
         (fsub (fsub (dict_get_default (internals status) com fzero) weight)
               (dict_get_default (loops status) node fzero));
     degrees :=
       dict_set (degrees status) com
         (fsub (dict_get_default (degrees status) com fzero)
               (dict_get_default (gdegrees status) node fzero));
     gdegrees := gdegrees status;
     loops := loops status |}.

(** [__insert(node, com, weight, status)] *)
Definition __insert (node com : Z) (weight : F) (status : Status) : Status :=
  {| node2com := dict_set (node2com status) node com;
     total_weight := total_weight status;
     internals :=
       dict_set (internals status) com
         (fadd (fadd (dict_get_default (internals status) com fzero) weight)
               (dict_get_default (loops status) node fzero));
     degrees :=
       dict_set (degrees status) com
         (fadd (dict_get_default (degrees status) com fzero)
               (dict_get_default (gdegrees status) node fzero));
     gdegrees := gdegrees status;
     loops := loops status |}.

(** [__randomize(items, random_state)] *)
Definition __randomize {A} (items : list A) : M (list A) :=
  np_random.shuffle items.

(** The scan of the shuffled neighbouring communities for the best gain:
    a candidate wins only when strictly better than the best so far. *)
Definition best_move (status : Status) (remove_cost degc_totw : F)
    (com_node : Z) (candidates : list (Z * F)) : Z * F :=
  fold_left
    (fun best cd =>
       let '(best_com, best_increase) := best in
       let '(com, dnc) := cd in
       let incr :=
         fsub (fadd remove_cost dnc)
              (fmul (fmul resolution (dict_get_default (degrees status) com fzero))
                    degc_totw) in
       if fltb best_increase incr then (com, incr) else best)
    candidates (com_node, fzero).

(** The body of [for node in __randomize(graph.nodes(), random_state)] in
    [__one_level]; the accumulator is the status and the [modified] flag.
    The division that gives [degc_totw] is Python's, which raises
    [ZeroDivisionError] when the total weight is zero; that exception is not
    embedded ([fdiv] is total).  It needs edge weights that sum to zero:
    a graph without weights that has an edge has a positive total
    weight. *)
Definition visit_node (graph : Graph) (acc : Status * bool) (node : Z)
  : M (Status * bool) :=
  let '(status, modified) := acc in
  com_node <- lift (dict_item (node2com status) node) ;;
  let degc_totw :=
    fdiv (dict_get_default (gdegrees status) node fzero)
         (fmul (total_weight status) ftwo) in
  neigh_communities <- lift (__neighcom node graph status) ;;
  let remove_cost :=
    fadd (fsub fzero (dict_get_default neigh_communities com_node fzero))
         (fmul (fmul resolution
                  (fsub (dict_get_default (degrees status) com_node fzero)
                        (dict_get_default (gdegrees status) node fzero)))
               degc_totw) in
  let status := __remove node com_node
                  (dict_get_default neigh_communities com_node fzero) status in
  candidates <- __randomize neigh_communities ;;
  let best_com := fst (best_move status remove_cost degc_totw com_node candidates) in
  let status := __insert node best_com
                  (dict_get_default neigh_communities best_com fzero) status in
  ret (status, if Z.eqb best_com com_node then modified else true).

(** The [while modified and nb_pass_done != __PASS_MAX] loop of
    [__one_level], entered with [new_mod]; [__PASS_MAX] is [-1], a value
    the pass counter never takes. *)
Fixpoint one_level_loop (fuel : nat) (graph : Graph) (status : Status)
    (new_mod : F) : M Status :=
  match fuel with
  | O => out_of_fuel
  | S fuel' =>
      let cur_mod := new_mod in
      order <- __randomize (nx.nodes graph) ;;
      r <- mfold (visit_node graph) order (status, false) ;;
      let '(status, modified) := r in
      let new_mod := __modularity status in
      if fltb (fsub new_mod cur_mod) f__MIN then ret status
      else if modified then one_level_loop fuel' graph status new_mod
      else ret status
  end.

(** [__one_level(graph, status, weight_key, resolution, random_state)] *)
Definition __one_level (fuel : nat) (graph : Graph) (status : Status)
  : M Status :=
  _ <- log Call_one_level ;;
  one_level_loop fuel graph status (__modularity status).

(** [__renumber(dictionary)] *)
Definition __renumber (dictionary : dict Z Z) : outcome (dict Z Z) :=
  let vals := py_set (values dictionary) in
  let target := py_range (List.length vals) in
  if list_eq_dec Z.eq_dec vals target then Ok dictionary
  else
    let kept := filter (fun t => set_mem t vals) target in
    let renumbering :=
      fold_left (fun d kv => dict_set d (fst kv) (snd kv))
        (combine (filter (fun v => negb (set_mem v target)) vals)
                 (filter (fun t => negb (set_mem t vals)) target))
        (combine kept kept) in
    ofold (fun ret kv =>
             v <-? dict_item renumbering (snd kv) ;;
             Ok (ret ++ [(fst kv, v)]))
          dictionary [].

(** [induced_graph(partition, graph, weight)] *)
Definition induced_graph (partition : dict Z Z) (graph : Graph)
  : outcome Graph :=
  ofold
    (fun ret e =>
       let '(node1, node2, datas) := e in
       let edge_weight := nx.weight_of datas fone in
       com1 <-? dict_item partition node1 ;;
       com2 <-? dict_item partition node2 ;;
       let w_prec := nx.weight_of (nx.get_edge_data ret com1 com2 (Some fzero)) fone in
       Ok (nx.add_edge ret com1 com2 (Some (fadd w_prec edge_weight))))
    (nx.edges graph)
    (nx.add_nodes_from nx.empty_graph (values partition)).

(** The [while True] loop of [generate_dendrogram] *)
Fixpoint dendrogram_loop (fuel pass_fuel : nat) (current_graph : Graph)
    (status : Status) (mod_ : F) (status_list : list (dict Z Z))
  : M (list (dict Z Z)) :=
  match fuel with
  | O => out_of_fuel
  | S fuel' =>
      status <- __one_level pass_fuel current_graph status ;;
      let new_mod := __modularity status in
      if fltb (fsub new_mod mod_) f__MIN then ret status_list
      else
        partition <- lift (__renumber (node2com status)) ;;
        current_graph <- lift (induced_graph partition current_graph) ;;
        status <- lift (Status_init status current_graph) ;;
        dendrogram_loop fuel' pass_fuel current_graph status new_mod
          (status_list ++ [partition])
  end.

(** [enumerate(graph.nodes())] turned into [part[node] = i] *)
Definition enumerate_nodes (ns : list Z) : dict Z Z :=
  fold_left (fun part ni => dict_set part (snd ni) (fst ni))
    (combine (py_range (List.length ns)) ns) [].

(** [generate_dendrogram(graph)] with its defaults: no initial partition,
    [weight='weight'], [randomize=None] and [random_state=None], which
    [check_random_state] resolves to numpy's global generator. *)
Definition generate_dendrogram (fuel : nat) (graph : Graph)
  : M (list (dict Z Z)) :=
  if Nat.eqb (nx.number_of_edges graph) 0
  then ret [enumerate_nodes (nx.nodes graph)]
  else
    let current_graph := graph in
    status <- lift (Status_init Status_new current_graph) ;;
    status <- __one_level fuel current_graph status ;;
    let new_mod := __modularity status in
    partition <- lift (__renumber (node2com status)) ;;
    current_graph <- lift (induced_graph partition current_graph) ;;
    status <- lift (Status_init status current_graph) ;;
    dendrogram_loop fuel fuel current_graph status new_mod [partition].

(** One step of [partition_at_level]:
    [for node, community in partition.items():
       partition[node] = dendrogram[index][community]] *)
Definition relabel (partition level : dict Z Z) : outcome (dict Z Z) :=
  ofold (fun part nc =>
           c <-? dict_item level (snd nc) ;;
           Ok (dict_set part (fst nc) c))
        partition partition.

(** [partition_at_level(dendrogram, level)] *)
Definition partition_at_level (dendrogram : list (dict Z Z)) (level : nat)
  : outcome (dict Z Z) :=
  match dendrogram with
  | [] => Raise (mk_exn IndexError "list index out of range")
  | first :: rest =>
      if Nat.ltb (List.length rest) level
      then Raise (mk_exn IndexError "list index out of range")
      else ofold relabel (firstn level rest) first
  end.

(** [best_partition(graph)] *)
Definition best_partition (fuel : nat) (graph : Graph) : M (dict Z Z) :=
  _ <- log Call_best_partition ;;
  dendo <- generate_dendrogram fuel graph ;;
  lift (partition_at_level dendo (List.length dendo - 1)).

Definition no_link : exn :=
  mk_exn ValueError "A graph without link has an undefined modularity".

(** The body of [for neighbor, datas in graph[node].items()] in
    [modularity], for a node of community [com] *)
Definition modularity_neighbor (partition : dict Z Z) (node com : Z)
    (inc : dict Z F) (nb : Z * nx.attrs F) : outcome (dict Z F) :=
  let '(neighbor, datas) := nb in
  let edge_weight := nx.weight_of datas fone in
  ncom <-? dict_item partition neighbor ;;
  if Z.eqb ncom com then
    if Z.eqb neighbor node
    then Ok (dict_set inc com (fadd (dict_get_default inc com fzero) edge_weight))
    else Ok (dict_set inc com
               (fadd (dict_get_default inc com fzero) (fdiv edge_weight ftwo)))
  else Ok inc.

(** The body of [for node in graph] in [modularity]; the accumulator is
    the pair of dictionaries [(inc, deg)]. *)
Definition modularity_node (partition : dict Z Z) (graph : Graph)
    (acc : dict Z F * dict Z F) (nd : Z * dict Z (nx.attrs F))
  : outcome (dict Z F * dict Z F) :=
  let '(inc, deg) := acc in
  let '(node, nbrs) := nd in
  com <-? dict_item partition node ;;
  let deg := dict_set deg com
               (fadd (dict_get_default deg com fzero) (nx.degree graph node)) in
  inc <-? ofold (modularity_neighbor partition node com) nbrs inc ;;
  Ok (inc, deg).

(** [modularity(partition, graph)] *)
Definition modularity (partition : dict Z Z) (graph : Graph) : outcome F :=
  let links := nx.size graph in
  if feqb links fzero then Raise no_link
  else
    r <-? ofold (modularity_node partition graph) graph ([], []) ;;
    let '(inc, deg) := r in
    Ok (fold_left
          (fun res com =>
             fadd res
               (fsub (fdiv (dict_get_default inc com fzero) links)
                     (square (fdiv (dict_get_default deg com fzero)
                                   (fmul ftwo links)))))
          (py_set (values partition)) fzero).

End Louvain.
End community_louvain.

(** ** The application: [app/processing.py] *)

Section Processing.
Context {F : Type} `{Num F}.

Local Abbreviation Graph := (nx.Graph F).

(** Python values that travel in the dictionaries the service returns *)
Inductive pyval :=
| PFloat (x : F)
| PInt (n : Z)
| PStr (s : string)
| PDict (d : dict string pyval).

Definition required_columns : list string := ["departure_id"; "return_id"].

Definition columns_missing : exn :=
  mk_exn ValueError "CSV must contain columns: ['departure_id', 'return_id']".

(** The handlers of [load_graph_data]: [FileNotFoundError] is re-raised as
    it is, every other exception becomes a [ValueError]. *)
Definition load_graph_data_except (e : exn) : outcome Graph :=
  match kind e with
  | FileNotFoundError => Raise e
  | _ => Raise (mk_exn ValueError ("Error loading graph data: " ++ message e)%string)
  end.

(** [load_graph_data(filepath)] *)
Definition load_graph_data (fs : pd.filesystem) (filepath : string)
  : outcome Graph :=
  let body :=
    df <-? pd.read_csv fs filepath 1000 ;;
    if negb (forallb (pd.has_column df) required_columns)
    then Raise columns_missing
    else
      G <-? nx.from_pandas_edgelist df "departure_id" "return_id" ;;
      Ok G in
  match body with
  | Raise e => load_graph_data_except e
  | r => r
  end.

(** [not G]: [None] is falsy, and so is a graph whose [len] is zero *)
Definition falsy (G : option Graph) : bool :=
  match G with
  | None => true
  | Some g => Nat.eqb (nx.number_of_nodes g) 0
  end.

Definition empty_result : dict string pyval :=
  [("modularity_score", PFloat fzero);
   ("total_communities_detected", PInt 0);
   ("total_nodes", PInt 0)].

(** [detect_communities(G)] *)
Definition detect_communities (fuel : nat) (G : option Graph)
  : M (dict string pyval) :=
  match G with
  | None => ret empty_result
  | Some g =>
      if falsy G || Nat.eqb (List.length (nx.nodes g)) 0
      then ret empty_result
      else
        partition <- community_louvain.best_partition fuel g ;;
        modularity <- lift (community_louvain.modularity partition g) ;;
        let num_communities := List.length (py_set (values partition)) in
        ret [("modularity_score", PFloat modularity);
             ("total_communities_detected", PInt (Z.of_nat num_communities));
             ("total_nodes", PInt (Z.of_nat (List.length (nx.nodes g))))]
  end.

(** ** The application: [app/main.py] *)

Definition DATA_PATH : string := "data/Databike.csv".

(** The module-level [graph_state] dictionary *)
Definition graph_state := dict string (option Graph).

(** The start-up half of [lifespan] *)
Definition lifespan_startup (fs : pd.filesystem) (state : graph_state)
  : graph_state :=
  match load_graph_data fs DATA_PATH with
  | Ok G => dict_set state "G" (Some G)
  | _ => dict_set state "G" None
  end.

(** [graph_state.get("G")] *)
Definition state_get_G (state : graph_state) : option Graph :=
  match dict_get state "G" with
  | Some (Some G) => Some G
  | _ => None
  end.

(** [analyze_network()] *)
Definition analyze_network (fuel : nat) (state : graph_state)
  : M (dict string pyval) :=
  match state_get_G state with
  | None => raise (mk_exn (HTTPException 503) "Graph data not available")
  | Some G =>
      try_except
        (results <- detect_communities fuel (Some G) ;;
         ret [("status", PStr "success");
              ("algorithm", PStr "Louvain");
              ("results", PDict results)])
        (fun e => raise (mk_exn (HTTPException 500) (message e)))
  end.

End Processing.
Arguments pyval F : clear implicits.
Arguments graph_state F : clear implicits.

(** ** Sample inputs *)

Definition fresh (draws : list nat) : world :=
  {| random_state := draws; trace := [] |}.

(** The triangle of [tests/test_main.py] *)
Definition mock_graph {F} `{Num F} : nx.Graph F :=
  nx.add_edge (nx.add_edge (nx.add_edge nx.empty_graph 1 2 None) 2 3 None) 3 1 None.

(** Six stations in a row *)
Definition path6 {F} `{Num F} : nx.Graph F :=
  nx.add_edges_from nx.empty_graph [(1, 2); (2, 3); (3, 4); (4, 5); (5, 6)].


(** ** Sample files *)

(** A trips file with the two required columns *)
Definition trip_file (records : list (list Z)) : pd.csv_file :=
  {| pd.header := ["departure_id"; "return_id"]; pd.body := records |}.

(** A disk that holds one file, at the configured path *)
Definition disk (f : pd.csv_file) : pd.filesystem :=
  fun path => if string_dec path DATA_PATH then Some f else None.

(** The same trip recorded twice *)
Definition repeated_trip : pd.csv_file := trip_file [[1; 2]; [1; 2]].

(** A trip that returns to the station it left from *)
Definition round_trip : pd.csv_file := trip_file [[7; 7]].

(** A file whose second endpoint column has another name *)
Definition misnamed_file : pd.csv_file :=
  {| pd.header := ["departure_id"; "arrival_id"]; pd.body := [[1; 2]] |}.

(** 1000 trips between stations 1 and 2, then one more trip *)
Definition long_file (last : list Z) : pd.csv_file :=
  trip_file (repeat [1; 2] 1000 ++ [last]).

(** One trip between two stations *)
Definition one_trip : pd.csv_file := trip_file [[1; 2]].

(** The graph of that file, with exact rational weights *)
Definition one_trip_graph : nx.Graph Q :=
  nx.add_edges_from nx.empty_graph [(1, 2)].

(** A round trip at station 1 and a trip between stations 2 and 3 *)
Definition loop_and_trip : pd.csv_file := trip_file [[1; 1]; [2; 3]].

(** ** The application: rendering and the rest of [app/main.py] *)

(** The line break of an f-string *)
Definition newline : string := String (Ascii.ascii_of_nat 10) EmptyString.

Section Rendering.
Context {F : Type} `{Num F}.

Local Abbreviation Graph := (nx.Graph F).

(** The positions [nx.spring_layout] assigns: node -> (x, y) *)
Definition layout := dict Z (F * F).

(** What [generate_graph_image] asks of matplotlib and of networkx's
    drawing functions, call by call.  The calls are recorded, not run: they
    are taken to succeed.  The arguments computed from the graph are kept;
    sizes, fonts and colour maps are constants of the source. *)
Inductive plt_call :=
| plt_figure
| draw_networkx_edges (G : Graph) (pos : layout)
| draw_networkx_nodes (G : Graph) (pos : layout) (node_color : list Z)
| plt_text (x y : F) (s : string)
| plt_title (label : string)
| plt_text_axes (s : string)
| plt_axis_off
| plt_tight_layout
| plt_savefig
| plt_close.

(** The two numeric routines the rendering calls are not embedded:
    [nx.spring_layout(G, k=0.5, iterations=50, seed=42)], which draws from
    a generator of its own seeded with 42 and so is a function of the
    graph, and [np.mean]. *)
Variable spring_layout : Graph -> layout.
Variable np_mean : list F -> F.

(** [[partition[node] for node in G.nodes()]] *)
Definition node_colors (partition : dict Z Z) (G : Graph) : outcome (list Z) :=
  ofold (fun colors node =>
           c <-? dict_item partition node ;;
           Ok (colors ++ [c]))
        (nx.nodes G) [].

(** The loop that fills [community_centers]: per community, the x and the
    y coordinates of its nodes, in the order of the partition *)
Definition community_centers (partition : dict Z Z) (pos : layout)
  : outcome (dict Z (list F * list F)) :=
  ofold (fun centers (nc : Z * Z) =>
           let '(node, comm_id) := nc in
           let centers :=
             if dict_mem centers comm_id then centers
             else dict_set centers comm_id ([], []) in
           p <-? dict_item pos node ;;
           let coords := dict_get_default centers comm_id ([], []) in
           Ok (dict_set centers comm_id
                 (fst coords ++ [fst p], snd coords ++ [snd p])))
        partition [].

(** The label [plt.text] draws at the centre of a community *)
Definition community_label (cc : Z * (list F * list F)) : plt_call :=
  plt_text (np_mean (fst (snd cc))) (np_mean (snd (snd cc)))
           ("C" ++ str (fst cc)).

(** [generate_graph_image(G)]: the image in the buffer it returns is what
    the calls up to [plt.savefig] have drawn.  It runs the optimizer on its
    own, with the process-wide generator in the state it finds it in. *)
Definition generate_graph_image (fuel : nat) (G : Graph) : M (list plt_call) :=
  let pos := spring_layout G in
  partition <- community_louvain.best_partition fuel G ;;
  let num_communities := List.length (py_set (values partition)) in
  colors <- lift (node_colors partition G) ;;
  centers <- lift (community_centers partition pos) ;;
  ret ([plt_figure;
        draw_networkx_edges G pos;
        draw_networkx_nodes G pos colors]
       ++ map community_label centers
       ++ [plt_title ("Bike Sharing Network - "
                      ++ str (Z.of_nat num_communities)
                      ++ " Communities Detected");
           plt_text_axes ("Total Nodes: "
                          ++ str (Z.of_nat (List.length (nx.nodes G)))
                          ++ newline ++ "Total Communities: "
                          ++ str (Z.of_nat num_communities));
           plt_axis_off;
           plt_tight_layout;
           plt_savefig;
           plt_close]).

(** [StreamingResponse(img_buf, media_type=...)] *)
Record StreamingResponse := {
  content : list plt_call;
  media_type : string
}.

(** [visualize_network()] *)
Definition visualize_network (fuel : nat) (state : graph_state F)
  : M StreamingResponse :=
  match state_get_G state with
  | None => raise (mk_exn (HTTPException 503) "Graph data not available")
  | Some G =>
      try_except
        (img_buf <- generate_graph_image fuel G ;;
         ret {| content := img_buf; media_type := "image/png" |})
        (fun e => raise (mk_exn (HTTPException 500) (message e)))
  end.

(** What both endpoints raise while no graph is loaded *)
Definition unavailable : exn :=
  mk_exn (HTTPException 503) "Graph data not available".

(** The shut-down half of [lifespan]: [graph_state.clear()] *)
Definition lifespan_shutdown (state : graph_state F) : graph_state F := [].

End Rendering.
Arguments plt_call F : clear implicits.
Arguments StreamingResponse F : clear implicits.
Arguments layout F : clear implicits.

(** A graph of one station that no trip touches, as [G.add_node(1)] builds *)
Definition lone_station {F} `{Num F} : nx.Graph F :=
  nx.add_node nx.empty_graph 1.

(** The graph of one trip between stations 1 and 2 *)
Definition trip_graph {F} `{Num F} : nx.Graph F :=
  nx.add_edges_from nx.empty_graph [(1, 2)].

(** A file with the header line only *)
Definition header_only : pd.csv_file := trip_file [].

(** A disk without any file *)
Definition empty_disk : pd.filesystem := fun _ => None.

(** A layout that puts every node at the origin, and a stand-in for the
    mean: sample arguments for the two routines that are not embedded *)
Definition origin_layout {F} `{Num F} (G : nx.Graph F) : layout F :=
  map (fun n => (n, (fzero, fzero))) (nx.nodes G).

Definition first_or_zero {F} `{Num F} (l : list F) : F := hd fzero l.

(** Three stations in two communities, and positions for them *)
Definition two_communities : dict Z Z := [(5, 1); (6, 0); (7, 1)].

Definition three_positions : layout float :=
  [(5, (1%float, 2%float)); (6, (3%float, 4%float)); (7, (5%float, 6%float))].

Definition two_centers : dict Z (list float * list float) :=
  [(1, ([1%float; 5%float], [2%float; 6%float]));
   (0, ([3%float], [4%float]))].

(** * Vocabulary of the properties *)

(** The two station identifiers of a record, read at the positions of
    the two required columns *)
Definition endpoints (i j : nat) (r : list Z) : Z * Z :=
  (nth i r 0, nth j r 0).

(** A 64-bit integer: pandas reads a column of such cells as [int64], and
    the cells reach networkx as Python integers. *)
Definition int64 (z : Z) : bool := (- 2 ^ 63 <=? z) && (z <? 2 ^ 63).

(** An edge record under a header of [ncols] columns: one cell per column,
    each a 64-bit integer *)
Definition edge_record (ncols : nat) (r : list Z) : bool :=
  pd.record_fits ncols r && forallb int64 r.

(** The records of the file that [load_graph_data] reads, the first 1000,
    are edge records. *)
Definition edge_records (f : pd.csv_file) : bool :=
  forallb (edge_record (List.length (pd.header f))) (firstn 1000 (pd.body f)).

(** Strictly increasing lists *)
Fixpoint increasing (s : list Z) : Prop :=
  match s with
  | [] => True
  | x :: s' => Forall (Z.lt x) s' /\ increasing s'
  end.

(** A computation reads nothing of the process but the random generator:
    from two processes whose generators are in the same state it yields
    the same outcome and leaves the generators in the same state. *)
Definition rng_only {A} (c : M A) : Prop :=
  forall w1 w2, random_state w1 = random_state w2 ->
    fst (c w1) = fst (c w2)
    /\ random_state (snd (c w1)) = random_state (snd (c w2)).

(** ** Sums over lists *)

Fixpoint zsum {A} (f : A -> Z) (l : list A) : Z :=
  match l with
  | [] => 0
  | x :: l' => f x + zsum f l'
  end.

(** [c'] runs like [c] wherever [c] finishes: it has at least as many steps
    to spend. *)
Definition settles_as {A} (c c' : M A) : Prop :=
  forall w, fst (c w) <> OutOfFuel -> c' w = c w.

Section GraphShapes.
Context {F : Type}.
Local Abbreviation Graph := (nx.Graph F).

(** No edge carries a ['weight'] attribute. *)
Definition unweighted (G : Graph) : Prop :=
  forall x y a, dict_get (nx.neighbors G x) y = Some a -> a = None.

(** Each node is listed once, and each neighbour once per node: there
    are no parallel edges. *)
Definition simple (G : Graph) : Prop :=
  NoDup (nx.nodes G) /\ forall x, NoDup (keys (nx.neighbors G x)).

(** Every neighbour relation is listed from both ends. *)
Definition symmetric (G : Graph) : Prop :=
  forall u v, nx.has_edge G u v = true -> nx.has_edge G v u = true.

(** The (node, neighbour) pairs of the adjacency: an edge between two nodes
    gives two of them, a self-loop one. *)
Definition arcs (G : Graph) : list (Z * Z) :=
  flat_map (fun nd => map (fun vd => (fst nd, fst vd)) (snd nd)) G.

(** What a pair adds to the unweighted degree of its first node *)
Definition arc_weight (a : Z * Z) : Z := if fst a =? snd a then 2 else 1.

Definition swap_arc (a : Z * Z) : Z * Z := (snd a, fst a).

(** [partition[u] == c] *)
Definition in_com (P : dict Z Z) (c u : Z) : bool :=
  match dict_get P u with
  | Some c' => c' =? c
  | None => false
  end.

(** Twice the number of edges *)
Definition total_degree (G : Graph) : Z := zsum arc_weight (arcs G).

(** The summed degree of the nodes of community [c] *)
Definition com_degree (G : Graph) (P : dict Z Z) (c : Z) : Z :=
  zsum (fun a => if in_com P c (fst a) then arc_weight a else 0) (arcs G).

(** Twice the number of edges inside community [c] *)
Definition com_internal (G : Graph) (P : dict Z Z) (c : Z) : Z :=
  zsum (fun a => if in_com P c (fst a) && in_com P c (snd a)
                 then arc_weight a else 0) (arcs G).

End GraphShapes.

Section ExactVocabulary.
Local Open Scope Q_scope.
Local Abbreviation Graph := (nx.Graph Q).

(** No edge of a neighbour dictionary carries a weight. *)
Definition plain (nbrs : dict Z (nx.attrs Q)) : Prop :=
  forall vd, In vd nbrs -> snd vd = None.

(** [d.get(c, 0.)] *)
Definition val (d : dict Z Q) (c : Z) : Q := dict_get_default d c 0.

(** A graph as the networkx constructors leave it, without weights *)
Definition well_formed (G : Graph) : Prop :=
  NoDup (nx.nodes G)
  /\ (forall nd, In nd G -> NoDup (keys (snd nd)) /\ plain (snd nd))
  /\ symmetric G.

(** What one row of the adjacency adds to the degree of community [c] *)
Definition row_degree (P : dict Z Z) (c : Z) (nd : Z * dict Z (nx.attrs Q)) : Z :=
  if in_com P c (fst nd)
  then zsum (fun vd => arc_weight (fst nd, fst vd)) (snd nd)
  else 0%Z.

(** What one row adds to twice the internal weight of community [c] *)
Definition row_internal (P : dict Z Z) (c : Z) (nd : Z * dict Z (nx.attrs Q)) : Z :=
  if in_com P c (fst nd)
  then zsum (fun vd => if in_com P c (fst vd)
                       then arc_weight (fst nd, fst vd) else 0%Z) (snd nd)
  else 0%Z.

(** The numerator of the score over the communities of [P] *)
Definition numerator (G : Graph) (P : dict Z Z) : Z :=
  zsum (fun c => com_internal G P c * total_degree G
                 - com_degree G P c * com_degree G P c)%Z
       (py_set (values P)).

End ExactVocabulary.

(** Reads the operations of [Num] at the rationals as the operations of
    [Q]. *)
Ltac q_ops :=
  unfold ftwo in *;
  change (@fadd Q Q_num) with Qplus in *;
  change (@fsub Q Q_num) with Qminus in *;
  change (@fmul Q Q_num) with Qmult in *;
  change (@fdiv Q Q_num) with Qdiv in *;
  change (@fzero Q Q_num) with 0%Q in *;
  change (@fone Q Q_num) with 1%Q in *;
  change (@feqb Q Q_num) with Qeq_bool in *;
  change (@fltb Q Q_num) with Qltb in *.

(** ** Layouts and communities *)

(** The position of a node in a layout, and the coordinate lists of a list
    of nodes *)
Definition position {F} `{Num F} (pos : layout F) (n : Z) : F * F :=
  dict_get_default pos n (fzero, fzero).

Definition coordinates {F} `{Num F} (pos : layout F) (ns : list Z)
  : list F * list F :=
  (map (fun n => fst (position pos n)) ns,
   map (fun n => snd (position pos n)) ns).

(** No node has a neighbour. *)
Definition edgeless {F} (G : nx.Graph F) : Prop :=
  forall nd, In nd G -> snd nd = [].

(** The nodes of community [c], in the order of the partition *)
Definition members (P : dict Z Z) (c : Z) : list Z :=
  map fst (filter (fun nc => snd nc =? c) P).

(** ** Graphs and dendrograms the optimizer can work on *)

(** Every neighbour is a node. *)
Definition closed {F} (G : nx.Graph F) : Prop :=
  forall u v, nx.has_edge G u v = true -> In v (nx.nodes G).

(** The communities of a partition are numbered [0 .. k-1], [k] being
    their number. *)
Definition numbered (p : dict Z Z) : Prop :=
  forall c, In c (values p)
            <-> In c (py_range (List.length (py_set (values p)))).

(** A level of a dendrogram as the optimizer leaves it *)
Definition level_ok (p : dict Z Z) : Prop := NoDup (keys p) /\ numbered p.

(** The levels of a dendrogram fit: the communities of one level are the
    nodes of the next. *)
Fixpoint chained (levels : list (dict Z Z)) : Prop :=
  match levels with
  | [] => True
  | p :: rest =>
      level_ok p
      /\ match rest with
         | [] => True
         | q :: _ => forall c, In c (values p) <-> In c (keys q)
         end
      /\ chained rest
  end.

(** Not negative: [x < 0] is false. *)
Definition nonneg {F} `{Num F} (x : F) : Prop := fltb x fzero = false.

(** No edge has a negative weight. *)
Definition nonneg_weights {F} `{Num F} (G : nx.Graph F) : Prop :=
  forall u v a, In (v, a) (nx.neighbors G u) -> nonneg (nx.weight_of a fone).

(** ** Signs in binary64 *)

(** What a comparison with zero sees of a float: [signed s x] when [x] is
    a zero, a NaN, or has sign [s]. *)
Definition signed (s : bool) (x : spec_float) : Prop :=
  match x with
  | S754_zero _ => True
  | S754_nan => True
  | S754_infinity s' => s' = s
  | S754_finite s' _ _ => s' = s
  end.

(** * Properties *)

(** ** Dictionaries *)

Section DictFacts.
Context {K V : Type} `{EqDec K}.
Implicit Types (d : dict K V) (k : K) (v : V).

Lemma dict_get_set_eq d k v : dict_get (dict_set d k v) k = Some v.
Proof.
  induction d as [|[k' v'] d IH]; simpl.
  - destruct (eq_dec k k); congruence.
  - destruct (eq_dec k k') as [->|Hne]; simpl.
    + destruct (eq_dec k' k'); congruence.
    + destruct (eq_dec k k'); congruence.
Qed.

Lemma dict_get_set_ne d k k' v :
  k <> k' -> dict_get (dict_set d k v) k' = dict_get d k'.
Proof.
  intros Hne. induction d as [|[k0 v0] d IH]; simpl.
  - destruct (eq_dec k' k); congruence.
  - destruct (eq_dec k k0) as [->|Hk]; simpl.
    + destruct (eq_dec k' k0); congruence.
    + destruct (eq_dec k' k0); congruence.
Qed.

Lemma dict_get_set d k k' v :
  dict_get (dict_set d k v) k' =
  if eq_dec k k' then Some v else dict_get d k'.
Proof.
  destruct (eq_dec k k') as [->|Hne].
  - apply dict_get_set_eq.
  - now apply dict_get_set_ne.
Qed.

Lemma dict_get_None d k : dict_get d k = None <-> ~ In k (keys d).
Proof.
  induction d as [|[k' v'] d IH]; simpl.
  - tauto.
  - destruct (eq_dec k k') as [->|Hne].
    + split; [discriminate | intros Hn; exfalso; apply Hn; now left].
    + rewrite IH. split; [intros Hn [Heq|Hin]; congruence | tauto].
Qed.

Lemma dict_get_Some_key d k v : dict_get d k = Some v -> In k (keys d).
Proof.
  intros Hg. destruct (in_dec eq_dec k (keys d)) as [Hin|Hn]; [assumption|].
  apply dict_get_None in Hn. congruence.
Qed.

Lemma dict_get_Some_In d k v : dict_get d k = Some v -> In (k, v) d.
Proof.
  induction d as [|[k' v'] d IH]; simpl; [discriminate|].
  destruct (eq_dec k k') as [->|Hne].
  - intros [= ->]. now left.
  - intros Hg. right. now apply IH.
Qed.

Lemma dict_get_In_NoDup d k v :
  NoDup (keys d) -> In (k, v) d -> dict_get d k = Some v.
Proof.
  induction d as [|[k' v'] d IH]; simpl; [tauto|].
  intros Hnd [Heq|Hin].
  - inversion Heq; subst. destruct (eq_dec k k); congruence.
  - inversion Hnd as [|? ? Hnot Hnd']; subst.
    destruct (eq_dec k k') as [->|Hne].
    + exfalso. apply Hnot. change (In (fst (k', v)) (map fst d)).
      now apply in_map.
    + now apply IH.
Qed.

Lemma keys_dict_set_present d k v :
  In k (keys d) -> keys (dict_set d k v) = keys d.
Proof.
  induction d as [|[k' v'] d IH]; simpl; [tauto|].
  intros Hin. destruct (eq_dec k k') as [->|Hne]; simpl; [reflexivity|].
  f_equal. apply IH. destruct Hin; congruence.
Qed.

Lemma keys_dict_set_absent d k v :
  ~ In k (keys d) -> keys (dict_set d k v) = keys d ++ [k].
Proof.
  induction d as [|[k' v'] d IH]; simpl; [reflexivity|].
  intros Hn. destruct (eq_dec k k') as [->|Hne]; simpl.
  - exfalso. apply Hn. now left.
  - f_equal. apply IH. tauto.
Qed.

Lemma in_keys_dict_set d k v k' :
  In k' (keys (dict_set d k v)) <-> k' = k \/ In k' (keys d).
Proof.
  destruct (in_dec eq_dec k (keys d)) as [Hin|Hn].
  - rewrite keys_dict_set_present by assumption.
    split; [tauto | intros [->|?]; assumption].
  - rewrite keys_dict_set_absent by assumption.
    rewrite in_app_iff. simpl. intuition congruence.
Qed.

Lemma NoDup_keys_dict_set d k v :
  NoDup (keys d) -> NoDup (keys (dict_set d k v)).
Proof.
  intros Hnd. destruct (in_dec eq_dec k (keys d)) as [Hin|Hn].
  - now rewrite keys_dict_set_present.
  - rewrite keys_dict_set_absent by assumption.
    apply NoDup_app; [assumption | repeat constructor; simpl; tauto |].
    intros x Hx [<-|[]]. contradiction.
Qed.

Lemma length_dict_set_present d k v :
  In k (keys d) -> List.length (dict_set d k v) = List.length d.
Proof.
  intros Hin. rewrite <- (length_map fst (dict_set d k v)).
  change (map fst (dict_set d k v)) with (keys (dict_set d k v)).
  rewrite keys_dict_set_present by assumption. apply length_map.
Qed.

Lemma dict_mem_true d k : dict_mem d k = true <-> In k (keys d).
Proof.
  unfold dict_mem. destruct (dict_get d k) eqn:E.
  - split; [intros _; eapply dict_get_Some_key; eassumption | reflexivity].
  - apply dict_get_None in E. split; [discriminate | contradiction].
Qed.
End DictFacts.

Section DictMore.
Context {K V : Type} `{EqDec K}.
Implicit Types (d : dict K V) (k : K) (v : V).

Lemma dict_get_app d d' k :
  dict_get (d ++ d') k =
  match dict_get d k with Some v => Some v | None => dict_get d' k end.
Proof.
  induction d as [|[k' v'] d IH]; simpl; [reflexivity|].
  destruct (eq_dec k k'); [reflexivity | apply IH].
Qed.

Lemma dict_get_default_set d k k' v default :
  dict_get_default (dict_set d k v) k' default =
  if eq_dec k k' then v else dict_get_default d k' default.
Proof.
  unfold dict_get_default. rewrite dict_get_set.
  destruct (eq_dec k k'); reflexivity.
Qed.
End DictMore.

(** ** Graph construction *)

Section GraphFacts.
Context {F : Type} `{Num F}.
Local Abbreviation Graph := (nx.Graph F).
Implicit Types (G : Graph) (u v x y n : Z) (a : nx.attrs F).

Lemma has_edge_neighbors G x y :
  nx.has_edge G x y = dict_mem (nx.neighbors G x) y.
Proof.
  unfold nx.has_edge, nx.neighbors, dict_get_default.
  destruct (dict_get G x); reflexivity.
Qed.

Lemma dict_get_add_node G n x :
  dict_get (nx.add_node G n) x =
  match dict_get G x with
  | Some d => Some d
  | None => if Z.eq_dec x n then Some [] else None
  end.
Proof.
  unfold nx.add_node, dict_mem.
  destruct (dict_get G n) eqn:En.
  - destruct (dict_get G x) eqn:Ex; [reflexivity|].
    destruct (Z.eq_dec x n); [congruence | reflexivity].
  - rewrite dict_get_app. destruct (dict_get G x); [reflexivity|].
    simpl. unfold eq_dec, Z_EqDec. destruct (Z.eq_dec x n); reflexivity.
Qed.

Lemma neighbors_add_node G n x :
  nx.neighbors (nx.add_node G n) x = nx.neighbors G x.
Proof.
  unfold nx.neighbors, dict_get_default. rewrite dict_get_add_node.
  destruct (dict_get G x); [reflexivity|].
  destruct (Z.eq_dec x n); reflexivity.
Qed.

Lemma in_nodes_add_node G n x :
  In x (nx.nodes (nx.add_node G n)) <-> x = n \/ In x (nx.nodes G).
Proof.
  unfold nx.add_node, nx.nodes. destruct (dict_mem G n) eqn:E.
  - apply dict_mem_true in E. split; [tauto | intros [->|?]; assumption].
  - unfold keys. rewrite map_app, in_app_iff. simpl. intuition congruence.
Qed.

Lemma NoDup_nodes_add_node G n :
  NoDup (nx.nodes G) -> NoDup (nx.nodes (nx.add_node G n)).
Proof.
  intros Hnd. unfold nx.add_node, nx.nodes. destruct (dict_mem G n) eqn:E.
  - assumption.
  - unfold keys. rewrite map_app. simpl.
    apply NoDup_app; [assumption | repeat constructor; simpl; tauto |].
    intros x Hx [<-|[]].
    assert (dict_mem G n = true) by now apply dict_mem_true.
    congruence.
Qed.

Lemma neighbors_dict_set G u (d : dict Z (nx.attrs F)) x :
  nx.neighbors (dict_set G u d) x =
  if Z.eq_dec u x then d else nx.neighbors G x.
Proof. unfold nx.neighbors. apply dict_get_default_set. Qed.

(** The adjacency of every node after [add_edge] *)
Lemma neighbors_add_edge G u v a x :
  nx.neighbors (nx.add_edge G u v a) x =
  let dd := nx.attrs_update (dict_get_default (nx.neighbors G u) v None) a in
  let Nu := dict_set (nx.neighbors G u) v dd in
  if Z.eq_dec v x
  then dict_set (if Z.eq_dec u v then Nu else nx.neighbors G v) u dd
  else if Z.eq_dec u x then Nu else nx.neighbors G x.
Proof.
  unfold nx.add_edge. cbv zeta.
  rewrite !neighbors_dict_set, !neighbors_add_node.
  reflexivity.
Qed.

Lemma in_nodes_add_edge G u v a x :
  In x (nx.nodes (nx.add_edge G u v a)) <-> x = u \/ x = v \/ In x (nx.nodes G).
Proof.
  unfold nx.add_edge. cbv zeta. unfold nx.nodes.
  rewrite !in_keys_dict_set.
  fold (nx.nodes (nx.add_node (nx.add_node G u) v)).
  rewrite !in_nodes_add_node. tauto.
Qed.

Lemma NoDup_nodes_add_edge G u v a :
  NoDup (nx.nodes G) -> NoDup (nx.nodes (nx.add_edge G u v a)).
Proof.
  intros Hnd. unfold nx.add_edge. cbv zeta. unfold nx.nodes.
  do 2 apply NoDup_keys_dict_set.
  now do 2 apply NoDup_nodes_add_node.
Qed.

Lemma has_edge_add_edge G u v a x y :
  nx.has_edge (nx.add_edge G u v a) x y = true <->
  nx.has_edge G x y = true \/ (x = u /\ y = v) \/ (x = v /\ y = u).
Proof.
  rewrite !has_edge_neighbors, neighbors_add_edge. cbv zeta.
  rewrite !dict_mem_true.
  destruct (Z.eq_dec v x) as [<-|Hvx].
  - destruct (Z.eq_dec u v) as [->|Huv];
      rewrite !in_keys_dict_set; intuition congruence.
  - destruct (Z.eq_dec u x) as [<-|Hux].
    + rewrite in_keys_dict_set. intuition congruence.
    + intuition congruence.
Qed.

Lemma has_edge_add_edges_from es : forall G x y,
  nx.has_edge (nx.add_edges_from G es) x y = true <->
  nx.has_edge G x y = true \/ In (x, y) es \/ In (y, x) es.
Proof.
  unfold nx.add_edges_from.
  induction es as [|[u v] es IH]; intros G x y; simpl.
  - tauto.
  - rewrite IH, has_edge_add_edge.
    intuition (try congruence); subst; auto.
Qed.

Lemma in_nodes_add_edges_from es : forall G x,
  In x (nx.nodes (nx.add_edges_from G es)) <->
  In x (nx.nodes G) \/ exists e, In e es /\ (x = fst e \/ x = snd e).
Proof.
  unfold nx.add_edges_from.
  induction es as [|[u v] es IH]; intros G x; simpl.
  - split; [tauto | intros [?|[e [[] _]]]; assumption].
  - rewrite IH, in_nodes_add_edge. split.
    + intros [[Hx|[Hx|Hin]]|[e [He Hx]]].
      * right. exists (u, v). simpl. auto.
      * right. exists (u, v). simpl. auto.
      * now left.
      * right. exists e. auto.
    + intros [Hin|[e [[<-|He] Hx]]]; simpl in *.
      * auto.
      * destruct Hx as [->| ->]; auto.
      * right. exists e. auto.
Qed.

Lemma unweighted_empty : unweighted (F:=F) nx.empty_graph.
Proof. intros x y a. unfold nx.neighbors, dict_get_default. simpl. discriminate. Qed.

Lemma simple_empty : simple (F:=F) nx.empty_graph.
Proof.
  split; [constructor|]. intros x. unfold nx.neighbors, dict_get_default.
  simpl. constructor.
Qed.

Lemma unweighted_get_default G x y :
  unweighted G -> dict_get_default (nx.neighbors G x) y None = None.
Proof.
  intros Hu. unfold dict_get_default.
  destruct (dict_get (nx.neighbors G x) y) eqn:E; [|reflexivity].
  now apply Hu in E.
Qed.

Lemma unweighted_add_edge G u v :
  unweighted G -> unweighted (nx.add_edge G u v None).
Proof.
  intros Hu x y a. rewrite neighbors_add_edge. cbv zeta.
  rewrite unweighted_get_default by assumption. simpl.
  destruct (Z.eq_dec v x) as [<-|Hvx].
  - destruct (Z.eq_dec u v) as [->|Huv]; rewrite ?dict_get_set;
      repeat (match goal with |- context [eq_dec ?p ?q] => destruct (eq_dec p q) end);
      try congruence; apply Hu.
  - destruct (Z.eq_dec u x) as [<-|Hux]; rewrite ?dict_get_set;
      repeat (match goal with |- context [eq_dec ?p ?q] => destruct (eq_dec p q) end);
      try congruence; apply Hu.
Qed.

Lemma simple_add_edge G u v a : simple G -> simple (nx.add_edge G u v a).
Proof.
  intros [Hn Hk]. split; [now apply NoDup_nodes_add_edge|].
  intros x. rewrite neighbors_add_edge. cbv zeta.
  destruct (Z.eq_dec v x); [destruct (Z.eq_dec u v)|destruct (Z.eq_dec u x)];
    repeat apply NoDup_keys_dict_set; apply Hk.
Qed.

Lemma unweighted_add_edges_from es : forall G,
  unweighted G -> unweighted (nx.add_edges_from G es).
Proof.
  unfold nx.add_edges_from.
  induction es as [|[u v] es IH]; intros G Hu; simpl; [assumption|].
  apply IH. now apply unweighted_add_edge.
Qed.

Lemma simple_add_edges_from es : forall G,
  simple G -> simple (nx.add_edges_from G es).
Proof.
  unfold nx.add_edges_from.
  induction es as [|[u v] es IH]; intros G Hs; simpl; [assumption|].
  apply IH. now apply simple_add_edge.
Qed.
End GraphFacts.

(** ** Loading the graph *)

Section LoadFacts.
Context {F : Type} `{Num F}.
Local Abbreviation Graph := (nx.Graph F).

Lemma combine_map_map {A B C} (f : A -> B) (g : A -> C) (l : list A) :
  combine (map f l) (map g l) = map (fun x => (f x, g x)) l.
Proof. induction l; simpl; congruence. Qed.

Lemma index_of_None col cols :
  pd.index_of col cols = None <-> ~ In col cols.
Proof.
  induction cols as [|c cols IH]; simpl; [tauto|].
  destruct (eq_dec col c) as [->|Hne].
  - split; [discriminate | intros Hn; exfalso; apply Hn; now left].
  - destruct (pd.index_of col cols).
    + split; [discriminate|]. intros Hn. exfalso. apply Hn. right.
      destruct (in_dec string_dec col cols) as [|Hc]; [assumption|].
      apply IH in Hc. discriminate.
    + split; [|reflexivity]. intros _ [Heq|Hin]; [congruence|].
      now apply IH.
Qed.

Lemma except_is_Raise (e : exn) :
  exists e', load_graph_data_except (F:=F) e = Raise e'
             /\ (kind e <> FileNotFoundError -> kind e' = ValueError).
Proof.
  unfold load_graph_data_except.
  destruct (kind e) eqn:E; eexists; split; try reflexivity; simpl; congruence.
Qed.

(** What a successful load has gone through *)
Lemma load_graph_data_Ok fs filepath (G : Graph) :
  load_graph_data fs filepath = Ok G ->
  exists f i j,
    fs filepath = Some f
    /\ pd.index_of "departure_id" (pd.header f) = Some i
    /\ pd.index_of "return_id" (pd.header f) = Some j
    /\ G = nx.add_edges_from nx.empty_graph
             (map (endpoints i j) (firstn 1000 (pd.body f))).
Proof.
  unfold load_graph_data, pd.read_csv.
  destruct (fs filepath) as [f|] eqn:Ef; [|cbv; discriminate].
  remember (firstn 1000 (pd.body f)) as rows eqn:Erows.
  destruct (pd.header f) as [|c cs] eqn:Eh; [cbv; discriminate|].
  match goal with |- context [forallb ?p ?l] => destruct (forallb p l) end;
    [|cbv; discriminate].
  unfold nx.from_pandas_edgelist, pd.column, pd.has_column, required_columns.
  cbn [obind pd.columns pd.data forallb].
  destruct (pd.index_of "departure_id" (c :: cs)) as [i|] eqn:Ei;
    [|cbv; discriminate].
  destruct (pd.index_of "return_id" (c :: cs)) as [j|] eqn:Ej;
    [|cbv; discriminate].
  simpl. intros [= <-]. exists f, i, j. rewrite Eh, combine_map_map.
  subst rows. repeat split; try assumption; reflexivity.
Qed.

(** A file without one of the two required columns makes the load raise
    [ValueError]. *)
Lemma load_graph_data_missing fs filepath f :
  fs filepath = Some f ->
  ~ In "departure_id" (pd.header f) \/ ~ In "return_id" (pd.header f) ->
  exists msg, load_graph_data (F:=F) fs filepath = Raise (mk_exn ValueError msg).
Proof.
  intros Ef Hmiss. unfold load_graph_data, pd.read_csv. rewrite Ef.
  remember (firstn 1000 (pd.body f)) as rows eqn:Erows.
  destruct (pd.header f) as [|c cs] eqn:Eh.
  - eexists. reflexivity.
  - match goal with |- context [forallb ?p ?l] => destruct (forallb p l) end;
      [|eexists; reflexivity].
    unfold nx.from_pandas_edgelist, pd.column, pd.has_column, required_columns.
  cbn [obind pd.columns pd.data forallb].
    destruct Hmiss as [Hm|Hm]; apply index_of_None in Hm; rewrite Hm.
    + eexists. reflexivity.
    + destruct (pd.index_of "departure_id" (c :: cs));
        eexists; reflexivity.
Qed.

(** The load reads the header and the first 1000 records, nothing else. *)
Lemma load_graph_data_prefix fs fs' filepath f f' :
  fs filepath = Some f -> fs' filepath = Some f' ->
  pd.header f = pd.header f' ->
  firstn 1000 (pd.body f) = firstn 1000 (pd.body f') ->
  load_graph_data (F:=F) fs filepath = load_graph_data fs' filepath.
Proof.
  intros Ef Ef' Hh Hb. unfold load_graph_data, pd.read_csv.
  rewrite Ef, Ef', Hh, Hb. reflexivity.
Qed.

Lemma edge_records_fit (f : pd.csv_file) :
  edge_records f = true ->
  forallb (pd.record_fits (List.length (pd.header f))) (firstn 1000 (pd.body f))
  = true.
Proof.
  unfold edge_records. rewrite !forallb_forall. intros Hall r Hr.
  apply Hall in Hr. unfold edge_record in Hr.
  apply andb_prop in Hr. tauto.
Qed.

(** A file of edge records with the two required columns is loaded. *)
Lemma load_graph_data_edge_records fs filepath f i j :
  fs filepath = Some f ->
  pd.index_of "departure_id" (pd.header f) = Some i ->
  pd.index_of "return_id" (pd.header f) = Some j ->
  edge_records f = true ->
  load_graph_data (F:=F) fs filepath
  = Ok (nx.add_edges_from nx.empty_graph
          (map (endpoints i j) (firstn 1000 (pd.body f)))).
Proof.
  intros Ef Hi Hj He. apply edge_records_fit in He.
  unfold load_graph_data, pd.read_csv. rewrite Ef, He.
  destruct (pd.header f) as [|c cs] eqn:Eh; [discriminate|].
  unfold nx.from_pandas_edgelist, pd.column, pd.has_column, required_columns.
  cbn [obind pd.columns pd.data forallb]. rewrite Hi, Hj. simpl.
  now rewrite combine_map_map.
Qed.

Lemma load_graph_data_shape fs filepath (G : Graph) :
  load_graph_data fs filepath = Ok G -> simple G /\ unweighted G.
Proof.
  intros Hl. apply load_graph_data_Ok in Hl.
  destruct Hl as (f & i & j & _ & _ & _ & ->). split.
  - apply simple_add_edges_from, simple_empty.
  - apply unweighted_add_edges_from, unweighted_empty.
Qed.

Lemma has_edge_unweighted (G : Graph) u v :
  unweighted G -> nx.has_edge G u v = true ->
  dict_get (nx.neighbors G u) v = Some None.
Proof.
  intros Hu. rewrite has_edge_neighbors. unfold dict_mem.
  destruct (dict_get (nx.neighbors G u) v) as [a|] eqn:E; [|discriminate].
  intros _. now rewrite (Hu _ _ _ E).
Qed.
End LoadFacts.

(** Two floats that [==] tells apart are different, provided the second is
    not a NaN. *)
Lemma float_neq (x y : float) :
  PrimFloat.eqb x y = false -> PrimFloat.eqb y y = true -> x <> y.
Proof. intros Hb Hy ->. congruence. Qed.

(** ** Claims about graph construction *)

(** C2 (counterexample).  The claim has repeated records between the same
    pair accumulate into one edge of weight 2.0.  Loading a file that holds
    the trip 1 -> 2 twice gives one edge whose attribute dictionary is empty:
    it reads as weight 1.0, not 2.0, and station 1 has degree 1.0. *)
Lemma C2_repeated_records_do_not_accumulate :
  exists G : nx.Graph float,
    load_graph_data (disk repeated_trip) DATA_PATH = Ok G
    /\ dict_get (nx.neighbors G 1) 2 = Some None
    /\ nx.weight_of (nx.get_edge_data G 1 2 None) fone = 1%float
    /\ nx.weight_of (nx.get_edge_data G 1 2 None) fone <> 2%float
    /\ nx.degree G 1 = 1%float.
Proof.
  eexists. split; [vm_compute; reflexivity|].
  repeat split; try (vm_compute; reflexivity).
  apply float_neq; vm_compute; reflexivity.
Qed.

(** C2 (amended).  For a file of edge records with the two required
    columns, the graph is built from the endpoint pairs of the first 1000
    records and from nothing else in the file.  Every such record puts an
    edge between its two endpoints, in both directions, with an empty
    attribute dictionary, so that it reads as weight 1 however often the
    pair is repeated; no node lists a neighbour twice (no parallel
    edges). *)
Theorem C2_repeated_records_single_unweighted_edge :
  forall (F : Type) (HF : Num F) (fs : pd.filesystem) (filepath : string)
         (f : pd.csv_file) (i j : nat),
    fs filepath = Some f ->
    pd.index_of "departure_id" (pd.header f) = Some i ->
    pd.index_of "return_id" (pd.header f) = Some j ->
    edge_records f = true ->
    exists G : nx.Graph F,
      load_graph_data fs filepath = Ok G
      /\ G = nx.add_edges_from nx.empty_graph
               (map (endpoints i j) (firstn 1000 (pd.body f)))
      /\ simple G
      /\ forall r, In r (firstn 1000 (pd.body f)) ->
           dict_get (nx.neighbors G (nth i r 0)) (nth j r 0) = Some None
           /\ dict_get (nx.neighbors G (nth j r 0)) (nth i r 0) = Some None
           /\ nx.weight_of (nx.get_edge_data G (nth i r 0) (nth j r 0) None) fone
              = fone.
Proof.
  intros F HF fs filepath f i j Ef Hi Hj He.
  pose proof (load_graph_data_edge_records (F:=F) fs filepath Ef Hi Hj He) as Hl.
  eexists. split; [exact Hl|]. split; [reflexivity|].
  destruct (load_graph_data_shape _ _ Hl) as [Hs Hu].
  split; [exact Hs|]. intros r Hr.
  remember (nx.add_edges_from nx.empty_graph
              (map (endpoints i j) (firstn 1000 (pd.body f)))) as G eqn:HG.
  assert (Hedge : nx.has_edge G (nth i r 0) (nth j r 0) = true).
  { rewrite HG. apply has_edge_add_edges_from. right. left.
    change (nth i r 0, nth j r 0) with (endpoints i j r). now apply in_map. }
  assert (Hedge' : nx.has_edge G (nth j r 0) (nth i r 0) = true).
  { rewrite HG. apply has_edge_add_edges_from. right. right.
    change (nth i r 0, nth j r 0) with (endpoints i j r). now apply in_map. }
  pose proof (has_edge_unweighted _ _ Hu Hedge) as H1.
  pose proof (has_edge_unweighted _ _ Hu Hedge') as H2.
  repeat split; try assumption.
  unfold nx.get_edge_data. unfold nx.neighbors, dict_get_default in H1.
  destruct (dict_get G (nth i r 0)) as [nbrs|]; [|discriminate].
  unfold dict_get_default. now rewrite H1.
Qed.

(** The amended C2 at the file with the repeated trip *)
Lemma C2_witness :
  edge_records repeated_trip = true
  /\ exists G : nx.Graph float,
       load_graph_data (disk repeated_trip) DATA_PATH = Ok G
       /\ G = nx.add_edges_from nx.empty_graph
                (map (endpoints 0 1) (firstn 1000 (pd.body repeated_trip)))
       /\ simple G
       /\ forall r, In r (firstn 1000 (pd.body repeated_trip)) ->
            dict_get (nx.neighbors G (nth 0 r 0)) (nth 1 r 0) = Some None
            /\ dict_get (nx.neighbors G (nth 1 r 0)) (nth 0 r 0) = Some None
            /\ nx.weight_of (nx.get_edge_data G (nth 0 r 0) (nth 1 r 0) None)
                 fone
               = fone.
Proof.
  split; [reflexivity|].
  apply (@C2_repeated_records_single_unweighted_edge float _
           (disk repeated_trip) DATA_PATH repeated_trip 0%nat 1%nat);
    reflexivity.
Defined.

(** C3 (counterexample).  The claim has self-loop records dropped.  Loading
    a file whose only record is the trip 7 -> 7 gives a graph with station 7
    and the edge from 7 to itself. *)
Lemma C3_self_loop_record_is_kept :
  exists G : nx.Graph float,
    load_graph_data (disk round_trip) DATA_PATH = Ok G
    /\ nx.has_edge G 7 7 = true
    /\ nx.nodes G = [7]
    /\ nx.number_of_edges G = 1%nat.
Proof.
  eexists. split; [vm_compute; reflexivity|].
  repeat split; vm_compute; reflexivity.
Qed.

(** C3 (amended).  In a file of edge records with the two required
    columns, a record among the first 1000 whose two endpoints are the same
    station [u] is kept: the file is loaded, [u] is a node of the graph and
    carries an edge to itself. *)
Theorem C3_self_loop_records_become_self_loops :
  forall (F : Type) (fs : pd.filesystem) (filepath : string)
         (f : pd.csv_file) (i j : nat) (r : list Z),
    fs filepath = Some f ->
    pd.index_of "departure_id" (pd.header f) = Some i ->
    pd.index_of "return_id" (pd.header f) = Some j ->
    edge_records f = true ->
    In r (firstn 1000 (pd.body f)) ->
    nth i r 0 = nth j r 0 ->
    exists G : nx.Graph F,
      load_graph_data fs filepath = Ok G
      /\ In (nth i r 0) (nx.nodes G)
      /\ nx.has_edge G (nth i r 0) (nth i r 0) = true.
Proof.
  intros F fs filepath f i j r Ef Hi Hj He Hr Heq.
  eexists. split; [exact (load_graph_data_edge_records fs filepath Ef Hi Hj He)|].
  assert (Hin : In (nth i r 0, nth i r 0)
                   (map (endpoints i j) (firstn 1000 (pd.body f)))).
  { replace (nth i r 0, nth i r 0) with (endpoints i j r)
      by (unfold endpoints; now rewrite <- Heq).
    now apply in_map. }
  split.
  - apply in_nodes_add_edges_from. right.
    eexists. split; [exact Hin|]. now left.
  - apply has_edge_add_edges_from. right. now left.
Qed.

(** The amended C3 at the file with the round trip *)
Lemma C3_witness :
  edge_records round_trip = true
  /\ exists G : nx.Graph float,
       load_graph_data (disk round_trip) DATA_PATH = Ok G
       /\ In 7 (nx.nodes G) /\ nx.has_edge G 7 7 = true.
Proof.
  split; [reflexivity|].
  apply (@C3_self_loop_records_become_self_loops float
           (disk round_trip) DATA_PATH round_trip 0%nat 1%nat [7; 7]);
    try reflexivity. simpl. now left.
Defined.

(** C6.  When the header of the file lacks one of the two endpoint columns,
    [load_graph_data] raises [ValueError] (the data error of this code) and
    returns no graph. *)
Theorem C6_missing_endpoint_column_raises :
  forall (F : Type) (fs : pd.filesystem) (filepath : string) (f : pd.csv_file),
    fs filepath = Some f ->
    ~ In "departure_id" (pd.header f) \/ ~ In "return_id" (pd.header f) ->
    (exists msg,
       load_graph_data (F:=F) fs filepath = Raise (mk_exn ValueError msg))
    /\ forall G : nx.Graph F, load_graph_data fs filepath <> Ok G.
Proof.
  intros F fs filepath f Ef Hmiss.
  destruct (load_graph_data_missing (F:=F) _ _ Ef Hmiss) as [msg Hmsg].
  split; [now exists msg|]. intros G. rewrite Hmsg. discriminate.
Qed.

(** C6 at a file whose return column is misnamed *)
Lemma C6_witness :
  (exists msg,
     load_graph_data (F:=float) (disk misnamed_file) DATA_PATH
     = Raise (mk_exn ValueError msg))
  /\ forall G : nx.Graph float,
       load_graph_data (disk misnamed_file) DATA_PATH <> Ok G.
Proof.
  apply (@C6_missing_endpoint_column_raises float
           (disk misnamed_file) DATA_PATH misnamed_file).
  - reflexivity.
  - right. simpl. intros [E|[E|[]]]; discriminate.
Defined.

(** C10.  The graph is built from the header and the first 1000 data
    records only: two files that agree on those load to the same result,
    the same graph or the same exception, whatever the records beyond the
    first 1000 are.  Those records contribute no node and no edge. *)
Theorem C10_only_first_1000_records :
  forall (F : Type) (fs fs' : pd.filesystem) (filepath : string)
         (f f' : pd.csv_file),
    fs filepath = Some f ->
    fs' filepath = Some f' ->
    pd.header f = pd.header f' ->
    firstn 1000 (pd.body f) = firstn 1000 (pd.body f') ->
    load_graph_data (F:=F) fs filepath = load_graph_data fs' filepath.
Proof.
  intros F fs fs' filepath f f' Ef Ef' Hh Hb.
  exact (load_graph_data_prefix (F:=F) _ _ _ Ef Ef' Hh Hb).
Qed.

(** C10 at two files that differ in their 1001st record only *)
Lemma C10_witness :
  load_graph_data (F:=float) (disk (long_file [3; 4])) DATA_PATH
  = load_graph_data (disk (long_file [5; 6])) DATA_PATH.
Proof.
  apply (@C10_only_first_1000_records float
           (disk (long_file [3; 4])) (disk (long_file [5; 6])) DATA_PATH
           (long_file [3; 4]) (long_file [5; 6])); reflexivity.
Defined.

(** ** Running monadic code *)

Unset Implicit Arguments.

Lemma bind_Ok_inv {A B} (c : M A) (k : A -> M B) w b w' :
  bind c k w = (Ok b, w') ->
  exists a w1, c w = (Ok a, w1) /\ k a w1 = (Ok b, w').
Proof.
  unfold bind. destruct (c w) as [[a| |] w1]; try discriminate.
  intros Hk. now exists a, w1.
Qed.

Lemma lift_Ok_inv {A} (o : outcome A) w a w' :
  lift o w = (Ok a, w') -> o = Ok a /\ w' = w.
Proof. unfold lift. intros [= -> ->]. now split. Qed.

Lemma ret_Ok_inv {A} (x : A) w a w' :
  ret x w = (Ok a, w') -> a = x /\ w' = w.
Proof. unfold ret. intros [= -> ->]. now split. Qed.

Lemma obind_Ok_inv {A B} (c : outcome A) (k : A -> outcome B) b :
  obind c k = Ok b -> exists a, c = Ok a /\ k a = Ok b.
Proof. destruct c as [a| |]; simpl; try discriminate. intros Hk. now exists a. Qed.

Lemma try_except_Ok_inv {A} (c : M A) (h : exn -> M A) w a w' :
  try_except c h w = (Ok a, w') ->
  c w = (Ok a, w') \/ exists e w1, c w = (Raise e, w1) /\ h e w1 = (Ok a, w').
Proof.
  unfold try_except. destruct (c w) as [[a0|e|] w1]; intros Hc.
  - now left.
  - right. now exists e, w1.
  - discriminate.
Qed.

(** ** Sets of community ids *)

Lemma in_set_add x s y : In y (set_add x s) <-> y = x \/ In y s.
Proof.
  induction s as [|z s IH]; simpl.
  - intuition congruence.
  - destruct (x <? z) eqn:Elt; simpl; [intuition congruence|].
    destruct (x =? z) eqn:Eeq; simpl.
    + apply Z.eqb_eq in Eeq. subst. intuition congruence.
    + rewrite IH. intuition congruence.
Qed.

Lemma increasing_set_add x s : increasing s -> increasing (set_add x s).
Proof.
  induction s as [|z s IH]; simpl; [auto|].
  intros [Hz Hs]. destruct (x <? z) eqn:Elt.
  - apply Z.ltb_lt in Elt. simpl. repeat split; try assumption.
    constructor; [assumption|].
    eapply Forall_impl; [|exact Hz]. intros a Ha. lia.
  - destruct (x =? z) eqn:Eeq; simpl; [tauto|].
    apply Z.ltb_ge in Elt. apply Z.eqb_neq in Eeq.
    split; [|tauto].
    apply Forall_forall. intros a Ha. apply in_set_add in Ha.
    destruct Ha as [->|Ha]; [lia|].
    rewrite Forall_forall in Hz. now apply Hz.
Qed.

Lemma increasing_NoDup s : increasing s -> NoDup s.
Proof.
  induction s as [|x s IH]; simpl; [constructor|].
  intros [Hx Hs]. constructor; [|auto].
  intros Hin. rewrite Forall_forall in Hx. apply Hx in Hin. lia.
Qed.

Lemma py_set_fold xs : forall s,
  increasing s ->
  increasing (fold_left (fun s x => set_add x s) xs s)
  /\ forall y, In y (fold_left (fun s x => set_add x s) xs s) <-> In y xs \/ In y s.
Proof.
  induction xs as [|x xs IH]; intros s Hs; simpl.
  - split; [assumption | tauto].
  - destruct (IH (set_add x s) (increasing_set_add x s Hs)) as [Hi Hin].
    split; [assumption|]. intros y. rewrite Hin, in_set_add.
    intuition congruence.
Qed.

Lemma in_py_set xs y : In y (py_set xs) <-> In y xs.
Proof.
  unfold py_set. destruct (py_set_fold xs [] I) as [_ Hin].
  rewrite Hin. simpl. tauto.
Qed.

Lemma NoDup_py_set xs : NoDup (py_set xs).
Proof.
  apply increasing_NoDup. unfold py_set. now apply (py_set_fold xs [] I).
Qed.

(** Any duplicate-free list with the same members as [xs] is as long as
    [set(xs)]. *)
Lemma length_py_set xs ids :
  NoDup ids -> (forall c, In c ids <-> In c xs) ->
  List.length (py_set xs) = List.length ids.
Proof.
  intros Hnd Hin. apply Permutation_length.
  apply NoDup_Permutation; [apply NoDup_py_set | assumption |].
  intros c. rewrite in_py_set, Hin. tauto.
Qed.

(** ** The analysis *)

Section AnalysisFacts.
Context {F : Type} `{Num F}.
Local Abbreviation Graph := (nx.Graph F).

Lemma length_nodes (g : Graph) : List.length (nx.nodes g) = nx.number_of_nodes g.
Proof. unfold nx.nodes, nx.number_of_nodes, keys. apply length_map. Qed.

(** Without nodes the analysis answers at once, leaving generator and
    trace as they were. *)
Lemma detect_communities_empty fuel (G : option Graph) w :
  falsy G = true -> detect_communities fuel G w = (Ok empty_result, w).
Proof.
  unfold detect_communities. destruct G as [g|]; [|reflexivity].
  intros ->. reflexivity.
Qed.

(** With nodes it runs the optimizer and then scores its partition. *)
Lemma detect_communities_nonempty fuel (g : Graph) :
  nx.number_of_nodes g <> 0%nat ->
  detect_communities fuel (Some g) =
  (partition <- community_louvain.best_partition fuel g ;;
   modularity <- lift (community_louvain.modularity partition g) ;;
   ret [("modularity_score", PFloat modularity);
        ("total_communities_detected",
         PInt (Z.of_nat (List.length (py_set (values partition)))));
        ("total_nodes", PInt (Z.of_nat (List.length (nx.nodes g))))]).
Proof.
  intros Hn. unfold detect_communities, falsy.
  rewrite length_nodes.
  destruct (Nat.eqb_spec (nx.number_of_nodes g) 0) as [E|_]; [contradiction|].
  reflexivity.
Qed.

Lemma detect_communities_Ok fuel (g : Graph) w r w' :
  nx.number_of_nodes g <> 0%nat ->
  detect_communities fuel (Some g) w = (Ok r, w') ->
  exists partition q,
    community_louvain.best_partition fuel g w = (Ok partition, w')
    /\ community_louvain.modularity partition g = Ok q
    /\ r = [("modularity_score", PFloat q);
            ("total_communities_detected",
             PInt (Z.of_nat (List.length (py_set (values partition)))));
            ("total_nodes", PInt (Z.of_nat (List.length (nx.nodes g))))].
Proof.
  intros Hn. rewrite detect_communities_nonempty by assumption.
  intros Hb. apply bind_Ok_inv in Hb. destruct Hb as (partition & w1 & Hp & Hb).
  apply bind_Ok_inv in Hb. destruct Hb as (q & w2 & Hq & Hb).
  apply lift_Ok_inv in Hq. destruct Hq as [Hq ->].
  apply ret_Ok_inv in Hb. destruct Hb as [-> ->].
  now exists partition, q.
Qed.

Lemma state_get_G_Some (state : graph_state F) (G : Graph) :
  dict_get state "G" = Some (Some G) -> state_get_G state = Some G.
Proof. unfold state_get_G. now intros ->. Qed.

Lemma analyze_network_Ok fuel (state : graph_state F) w body w' :
  analyze_network fuel state w = (Ok body, w') ->
  exists G results,
    state_get_G state = Some G
    /\ detect_communities fuel (Some G) w = (Ok results, w')
    /\ body = [("status", PStr "success");
               ("algorithm", PStr "Louvain");
               ("results", PDict results)].
Proof.
  unfold analyze_network. destruct (state_get_G state) as [G|]; [|discriminate].
  intros Ha. apply try_except_Ok_inv in Ha.
  destruct Ha as [Ha|(e & w1 & _ & Ha)]; [|discriminate].
  apply bind_Ok_inv in Ha. destruct Ha as (results & w1 & Hd & Hr).
  apply ret_Ok_inv in Hr. destruct Hr as [-> ->].
  now exists G, results.
Qed.
End AnalysisFacts.

(** ** Claims about the analysis *)

(** C4.  For an absent graph ([None]) and for a graph with zero nodes,
    [detect_communities] returns score 0.0, 0 communities and 0 nodes; the
    process is left as it was, so the trace gains no optimizer call and the
    random generator is not touched. *)
Theorem C4_empty_graph_short_circuit :
  forall (F : Type) (HF : Num F) (fuel : nat) (G : option (nx.Graph F))
         (w : world),
    (G = None \/ exists g, G = Some g /\ nx.number_of_nodes g = 0%nat) ->
    detect_communities fuel G w =
      (Ok [("modularity_score", PFloat fzero);
           ("total_communities_detected", PInt 0);
           ("total_nodes", PInt 0)], w)
    /\ trace (snd (detect_communities fuel G w)) = trace w.
Proof.
  intros F HF fuel G w HG.
  assert (Hf : falsy G = true).
  { destruct HG as [->|(g & -> & Hg)]; [reflexivity|].
    simpl. now rewrite Hg. }
  rewrite (detect_communities_empty fuel G w Hf). split; reflexivity.
Qed.

(** C4 for the absent graph and the binary64 score *)
Lemma C4_witness :
  detect_communities (F:=float) 0 None (fresh [3; 1; 4]%nat) =
    (Ok [("modularity_score", PFloat 0%float);
         ("total_communities_detected", PInt 0);
         ("total_nodes", PInt 0)], fresh [3; 1; 4]%nat)
  /\ trace (snd (detect_communities (F:=float) 0 None (fresh [3; 1; 4]%nat)))
     = [].
Proof.
  apply (@C4_empty_graph_short_circuit float float_num 0%nat None
           (fresh [3; 1; 4]%nat)).
  left. reflexivity.
Defined.

(** A graph with nodes does enter the optimizer: the trace of the test
    triangle shows the call and its two local-moving phases. *)
Example mock_graph_trace :
  trace (snd (detect_communities (F:=float) 10 (Some mock_graph) (fresh [])))
  = [Call_best_partition; Call_one_level; Call_one_level].
Proof. vm_compute. reflexivity. Qed.

(** C7.  For a graph with nodes, [total_communities_detected] is the number
    of distinct community ids occurring in the partition the optimizer
    returned: the length of any duplicate-free list of exactly those ids. *)
Theorem C7_count_of_distinct_ids :
  forall (F : Type) (HF : Num F) (fuel : nat) (g : nx.Graph F)
         (w w' : world) (r : dict string (pyval F)),
    nx.number_of_nodes g <> 0%nat ->
    detect_communities fuel (Some g) w = (Ok r, w') ->
    exists partition : dict Z Z,
      community_louvain.best_partition fuel g w = (Ok partition, w')
      /\ forall ids : list Z,
           NoDup ids ->
           (forall c, In c ids <-> In c (values partition)) ->
           dict_get r "total_communities_detected"
           = Some (PInt (Z.of_nat (List.length ids))).
Proof.
  intros F HF fuel g w w' r Hn Hd.
  destruct (@detect_communities_Ok F HF fuel g w r w' Hn Hd)
    as (partition & q & Hp & _ & ->).
  exists partition. split; [assumption|].
  intros ids Hnd Hin. rewrite (length_py_set _ _ Hnd Hin). reflexivity.
Qed.

(** The count is of ids in use, not of the span they cover: ids 0 and 5
    count as two. *)
Example distinct_ids_not_id_range :
  List.length (py_set (values [(10, 0); (11, 5); (12, 5); (13, 0)])) = 2%nat.
Proof. reflexivity. Qed.

(** C7 at the six-station path, whose partition uses the ids 0, 1, 2 *)
Lemma C7_witness :
  exists partition : dict Z Z,
    community_louvain.best_partition (F:=float) 10 path6 (fresh [])
    = (Ok partition,
       snd (detect_communities (F:=float) 10 (Some path6) (fresh [])))
    /\ forall ids : list Z,
         NoDup ids ->
         (forall c, In c ids <-> In c (values partition)) ->
         dict_get [("modularity_score", PFloat 0.26000000000000001%float);
                   ("total_communities_detected", PInt 3);
                   ("total_nodes", PInt 6)]
                  "total_communities_detected"
         = Some (PInt (Z.of_nat (List.length ids))).
Proof.
  apply (@C7_count_of_distinct_ids float float_num 10%nat path6 (fresh [])).
  - vm_compute. discriminate.
  - vm_compute. reflexivity.
Defined.

(** C9.  Whenever [analyze_network] succeeds, the body it returns is the
    success marker, the literal label "Louvain", and a result dictionary
    with exactly the three keys [modularity_score] (a float),
    [total_communities_detected] and [total_nodes] (integers). *)
Theorem C9_response_shape :
  forall (F : Type) (HF : Num F) (fuel : nat) (state : graph_state F)
         (w w' : world) (body : dict string (pyval F)),
    analyze_network fuel state w = (Ok body, w') ->
    exists (score : F) (communities nodes : Z),
      body = [("status", PStr "success");
              ("algorithm", PStr "Louvain");
              ("results",
               PDict [("modularity_score", PFloat score);
                      ("total_communities_detected", PInt communities);
                      ("total_nodes", PInt nodes)])].
Proof.
  intros F HF fuel state w w' body Ha.
  apply analyze_network_Ok in Ha. destruct Ha as (G & results & HG & Hd & ->).
  destruct (Nat.eq_dec (nx.number_of_nodes G) 0) as [E|Hn].
  - rewrite detect_communities_empty in Hd by (simpl; now rewrite E).
    injection Hd as <- _. eexists _, _, _. reflexivity.
  - destruct (@detect_communities_Ok F HF fuel G w results w' Hn Hd)
      as (partition & q & _ & _ & ->).
    eexists _, _, _. reflexivity.
Qed.

(** C9 for the request of [test_analyze_endpoint_success] *)
Lemma C9_witness :
  exists (score : float) (communities nodes : Z),
    [("status", PStr "success");
     ("algorithm", PStr "Louvain");
     ("results",
      PDict [("modularity_score", PFloat 0%float);
             ("total_communities_detected", PInt 1);
             ("total_nodes", PInt 3)])]
    = [("status", PStr "success");
       ("algorithm", PStr "Louvain");
       ("results",
        PDict [("modularity_score", PFloat score);
               ("total_communities_detected", PInt communities);
               ("total_nodes", PInt nodes)])].
Proof.
  apply (@C9_response_shape float float_num 10%nat
           [("G", Some mock_graph)] (fresh [])
           (snd (analyze_network (F:=float) 10
                   [("G", Some mock_graph)] (fresh [])))).
  vm_compute. reflexivity.
Defined.

(** ** Invariants of loops *)

(** A property kept by every successful step of a loop holds when the loop
    ends normally. *)
Lemma ofold_invariant {A S} (body : S -> A -> outcome S) (P : S -> Prop) :
  (forall acc x acc', P acc -> body acc x = Ok acc' -> P acc') ->
  forall xs acc r, P acc -> ofold body xs acc = Ok r -> P r.
Proof.
  intros Hstep. induction xs as [|x xs IH]; intros acc r Hacc; simpl.
  - intros [= <-]. assumption.
  - intros Hb. apply obind_Ok_inv in Hb. destruct Hb as (acc' & Hx & Hrest).
    eapply IH; [|exact Hrest]. eapply Hstep; eassumption.
Qed.

Lemma mfold_invariant {A S} (body : S -> A -> M S) (P : S -> Prop) :
  (forall acc x w acc' w', P acc -> body acc x w = (Ok acc', w') -> P acc') ->
  forall xs acc w r w', P acc -> mfold body xs acc w = (Ok r, w') -> P r.
Proof.
  intros Hstep. induction xs as [|x xs IH]; intros acc w r w' Hacc; simpl.
  - intros Hr. apply ret_Ok_inv in Hr. destruct Hr as [-> _]. assumption.
  - intros Hb. apply bind_Ok_inv in Hb.
    destruct Hb as (acc' & w1 & Hx & Hrest).
    eapply IH; [|exact Hrest]. eapply Hstep; eassumption.
Qed.

Lemma dict_item_Ok {V} (d : dict Z V) k v :
  dict_item d k = Ok v -> dict_get d k = Some v.
Proof. unfold dict_item. destruct (dict_get d k); [now intros [= ->] | discriminate]. Qed.

(** ** The partition covers the graph *)

Section LouvainFacts.
Context {F : Type} `{Num F}.
Local Abbreviation Graph := (nx.Graph F).
Local Abbreviation Status := (community_louvain.Status (F:=F)).
Import community_louvain.

Lemma visit_node_keys (graph : Graph) (acc : Status * bool) node w acc' w' :
  visit_node graph acc node w = (Ok acc', w') ->
  keys (node2com (fst acc')) = keys (node2com (fst acc)).
Proof.
  destruct acc as [status modified]. unfold visit_node.
  intros Hv. apply bind_Ok_inv in Hv. destruct Hv as (com_node & w1 & Hc & Hv).
  apply lift_Ok_inv in Hc. destruct Hc as [Hc ->].
  apply dict_item_Ok, dict_get_Some_key in Hc.
  apply bind_Ok_inv in Hv. destruct Hv as (neigh & w2 & _ & Hv).
  apply bind_Ok_inv in Hv. destruct Hv as (candidates & w3 & _ & Hv).
  apply ret_Ok_inv in Hv. destruct Hv as [-> _]. simpl.
  rewrite keys_dict_set_present.
  - now apply keys_dict_set_present.
  - rewrite keys_dict_set_present; assumption.
Qed.

Lemma one_level_loop_keys fuel : forall (graph : Graph) (status : Status) m w st' w',
  one_level_loop fuel graph status m w = (Ok st', w') ->
  keys (node2com st') = keys (node2com status).
Proof.
  induction fuel as [|fuel IH]; intros graph status m w st' w'; simpl.
  - discriminate.
  - intros Hl. apply bind_Ok_inv in Hl. destruct Hl as (order & w1 & _ & Hl).
    apply bind_Ok_inv in Hl. destruct Hl as ([st1 modified] & w2 & Hf & Hl).
    assert (Hk : keys (node2com st1) = keys (node2com status)).
    { refine (mfold_invariant (visit_node graph)
                (fun acc => keys (node2com (fst acc)) = keys (node2com status))
                _ order (status, false) w1 (st1, modified) w2 eq_refl Hf).
      intros acc x w0 acc' w0' Hacc Hstep. rewrite <- Hacc.
      eapply visit_node_keys; eassumption. }
    destruct (fltb _ f__MIN).
    + apply ret_Ok_inv in Hl. destruct Hl as [-> _]. assumption.
    + destruct modified.
      * apply IH in Hl. congruence.
      * apply ret_Ok_inv in Hl. destruct Hl as [-> _]. assumption.
Qed.

Lemma one_level_keys fuel (graph : Graph) (status : Status) w st' w' :
  __one_level fuel graph status w = (Ok st', w') ->
  keys (node2com st') = keys (node2com status).
Proof.
  unfold __one_level. intros Hl.
  apply bind_Ok_inv in Hl. destruct Hl as (u & w1 & _ & Hl).
  eapply one_level_loop_keys; eassumption.
Qed.

Lemma keys_app {K V} (d d' : dict K V) : keys (d ++ d') = keys d ++ keys d'.
Proof. apply map_app. Qed.

Lemma renumber_keys (d d' : dict Z Z) :
  __renumber d = Ok d' -> keys d' = keys d.
Proof.
  unfold __renumber. destruct (list_eq_dec _ _ _); [now intros [= <-]|].
  match goal with |- ofold ?b d [] = _ -> _ => set (body := b) end.
  assert (Hgen : forall l acc r, ofold body l acc = Ok r ->
                                 keys r = keys acc ++ keys l).
  { induction l as [|[k v] l IH]; intros acc r; simpl.
    - intros [= <-]. now rewrite app_nil_r.
    - intros Hb. apply obind_Ok_inv in Hb. destruct Hb as (acc' & Hx & Hr).
      unfold body in Hx at 1. apply obind_Ok_inv in Hx.
      destruct Hx as (v' & _ & [= <-]). apply IH in Hr. rewrite Hr.
      rewrite keys_app. simpl. now rewrite <- app_assoc. }
  intros Hr. apply Hgen in Hr. exact Hr.
Qed.

Lemma Status_init_fold_keys (graph : Graph) :
  forall l (s : Status) c s' c',
    NoDup (keys (node2com s) ++ l) ->
    ofold (Status_init_node graph) l (s, c) = Ok (s', c') ->
    keys (node2com s') = keys (node2com s) ++ l.
Proof.
  induction l as [|n l IH]; intros s c s' c' Hn; simpl.
  - intros [= <- _]. now rewrite app_nil_r.
  - intros Hb. apply obind_Ok_inv in Hb. destruct Hb as ([s1 c1] & Hx & Hr).
    unfold Status_init_node in Hx.
    destruct (fltb _ fzero); [discriminate|]. injection Hx as <- <-.
    assert (Hnot : ~ In n (keys (node2com s))).
    { intros Hin. apply NoDup_remove_2 in Hn. apply Hn.
      apply in_or_app. now left. }
    apply IH in Hr.
    + rewrite Hr. simpl. rewrite keys_dict_set_absent by assumption.
      now rewrite <- app_assoc.
    + simpl. rewrite keys_dict_set_absent by assumption.
      now rewrite <- app_assoc.
Qed.

Lemma Status_init_keys (st st' : Status) (graph : Graph) :
  NoDup (nx.nodes graph) ->
  Status_init st graph = Ok st' -> keys (node2com st') = nx.nodes graph.
Proof.
  unfold Status_init. intros Hnd Hi.
  apply obind_Ok_inv in Hi. destruct Hi as ([st1 count] & Hf & [= <-]).
  apply Status_init_fold_keys in Hf; [exact Hf | exact Hnd].
Qed.

Lemma dendrogram_loop_prefix fuel pass_fuel :
  forall (graph : Graph) (status : Status) m sl w res w',
    dendrogram_loop fuel pass_fuel graph status m sl w = (Ok res, w') ->
    exists more, res = sl ++ more.
Proof.
  induction fuel as [|fuel IH]; intros graph status m sl w res w'; simpl.
  - discriminate.
  - intros Hl. apply bind_Ok_inv in Hl. destruct Hl as (st1 & w1 & _ & Hl).
    destruct (fltb _ f__MIN).
    + apply ret_Ok_inv in Hl. destruct Hl as [-> _].
      exists []. now rewrite app_nil_r.
    + apply bind_Ok_inv in Hl. destruct Hl as (partition & w2 & _ & Hl).
      apply bind_Ok_inv in Hl. destruct Hl as (g2 & w3 & _ & Hl).
      apply bind_Ok_inv in Hl. destruct Hl as (st2 & w4 & _ & Hl).
      apply IH in Hl. destruct Hl as [more ->].
      exists (partition :: more). now rewrite <- app_assoc.
Qed.

Lemma enumerate_nodes_keys (ns : list Z) :
  NoDup ns -> keys (enumerate_nodes ns) = ns.
Proof.
  unfold enumerate_nodes. intros Hnd.
  assert (Hgen : forall (l : list Z) (cs : list Z) (part : dict Z Z),
            List.length cs = List.length l ->
            NoDup (keys part ++ l) ->
            keys (fold_left (fun p ni => dict_set p (snd ni) (fst ni))
                    (combine cs l) part) = keys part ++ l).
  { induction l as [|n l IH]; intros cs part Hlen Hn.
    - destruct cs; simpl; now rewrite app_nil_r.
    - destruct cs as [|c cs]; [discriminate|]. simpl.
      assert (Hnot : ~ In n (keys part)).
      { intros Hin. apply NoDup_remove_2 in Hn. apply Hn.
        apply in_or_app. now left. }
      rewrite IH.
      + rewrite keys_dict_set_absent by assumption. now rewrite <- app_assoc.
      + simpl in Hlen. lia.
      + rewrite keys_dict_set_absent by assumption. now rewrite <- app_assoc. }
  apply (Hgen ns (py_range (List.length ns)) []).
  - unfold py_range. now rewrite length_map, length_seq.
  - exact Hnd.
Qed.

(** The first level of the dendrogram assigns a community to the nodes of
    the graph, in node order. *)
Lemma generate_dendrogram_first fuel (graph : Graph) w dendo w' :
  NoDup (nx.nodes graph) ->
  generate_dendrogram fuel graph w = (Ok dendo, w') ->
  exists first rest, dendo = first :: rest /\ keys first = nx.nodes graph.
Proof.
  intros Hnd. unfold generate_dendrogram.
  destruct (Nat.eqb (nx.number_of_edges graph) 0).
  - intros Hr. apply ret_Ok_inv in Hr. destruct Hr as [-> _].
    eexists _, []. split; [reflexivity|]. now apply enumerate_nodes_keys.
  - intros Hg. apply bind_Ok_inv in Hg. destruct Hg as (st0 & w1 & Hi & Hg).
    apply lift_Ok_inv in Hi. destruct Hi as [Hi ->].
    apply Status_init_keys in Hi; [|assumption].
    apply bind_Ok_inv in Hg. destruct Hg as (st1 & w2 & Hl & Hg).
    apply one_level_keys in Hl.
    apply bind_Ok_inv in Hg. destruct Hg as (partition & w3 & Hr & Hg).
    apply lift_Ok_inv in Hr. destruct Hr as [Hr ->].
    apply renumber_keys in Hr.
    apply bind_Ok_inv in Hg. destruct Hg as (g2 & w4 & _ & Hg).
    apply bind_Ok_inv in Hg. destruct Hg as (st2 & w5 & _ & Hg).
    apply dendrogram_loop_prefix in Hg. destruct Hg as [more ->].
    exists partition, more. split; [reflexivity|]. congruence.
Qed.

Lemma relabel_keys (partition level partition' : dict Z Z) :
  relabel partition level = Ok partition' -> keys partition' = keys partition.
Proof.
  unfold relabel. intros Hr.
  assert (Hgen : forall l (part r : dict Z Z),
            incl (keys l) (keys part) ->
            ofold (fun p nc => c <-? dict_item level (snd nc) ;;
                               Ok (dict_set p (fst nc) c)) l part = Ok r ->
            keys r = keys part).
  { induction l as [|[n c] l IH]; intros part r Hin; simpl.
    - now intros [= <-].
    - intros Hb. apply obind_Ok_inv in Hb. destruct Hb as (p1 & Hx & Hrest).
      apply obind_Ok_inv in Hx. destruct Hx as (c' & _ & [= <-]).
      assert (Hn : In n (keys part)) by (apply Hin; now left).
      apply IH in Hrest.
      + rewrite Hrest. now apply keys_dict_set_present.
      + rewrite keys_dict_set_present by assumption.
        intros x Hx. apply Hin. now right. }
  eapply Hgen; [|exact Hr]. apply incl_refl.
Qed.

Lemma partition_at_level_keys (first : dict Z Z) rest level partition :
  partition_at_level (first :: rest) level = Ok partition ->
  keys partition = keys first.
Proof.
  unfold partition_at_level. destruct (Nat.ltb _ level); [discriminate|].
  apply (ofold_invariant relabel (fun p => keys p = keys first));
    [|reflexivity].
  intros acc x acc' Hacc Hstep. apply relabel_keys in Hstep. congruence.
Qed.

(** The partition that [best_partition] returns lists the nodes of the
    graph, each once, in node order. *)
Lemma best_partition_keys fuel (graph : Graph) w partition w' :
  NoDup (nx.nodes graph) ->
  best_partition fuel graph w = (Ok partition, w') ->
  keys partition = nx.nodes graph.
Proof.
  intros Hnd. unfold best_partition. intros Hb.
  apply bind_Ok_inv in Hb. destruct Hb as (u & w1 & _ & Hb).
  apply bind_Ok_inv in Hb. destruct Hb as (dendo & w2 & Hg & Hb).
  apply lift_Ok_inv in Hb. destruct Hb as [Hp _].
  apply generate_dendrogram_first in Hg; [|assumption].
  destruct Hg as (first & rest & -> & Hk).
  apply partition_at_level_keys in Hp. congruence.
Qed.
End LouvainFacts.

(** ** What a run depends on *)

Lemma rng_only_ret {A} (a : A) : rng_only (ret a).
Proof. intros w1 w2 Hw. now split. Qed.

Lemma rng_only_lift {A} (o : outcome A) : rng_only (lift o).
Proof. intros w1 w2 Hw. now split. Qed.

Lemma rng_only_log c : rng_only (log c).
Proof. intros w1 w2 Hw. now split. Qed.

Lemma rng_only_bind {A B} (c : M A) (k : A -> M B) :
  rng_only c -> (forall a, rng_only (k a)) -> rng_only (bind c k).
Proof.
  intros Hc Hk w1 w2 Hw. unfold bind.
  destruct (Hc w1 w2 Hw) as [Ho Hr].
  destruct (c w1) as [o1 w1'], (c w2) as [o2 w2']. simpl in Ho, Hr. subst o2.
  destruct o1 as [a|e|]; [now apply Hk | now split | now split].
Qed.

Lemma rng_only_try_except {A} (c : M A) (h : exn -> M A) :
  rng_only c -> (forall e, rng_only (h e)) -> rng_only (try_except c h).
Proof.
  intros Hc Hh w1 w2 Hw. unfold try_except.
  destruct (Hc w1 w2 Hw) as [Ho Hr].
  destruct (c w1) as [o1 w1'], (c w2) as [o2 w2']. simpl in Ho, Hr. subst o2.
  destruct o1 as [a|e|]; [now split | now apply Hh | now split].
Qed.

Lemma rng_only_mfold {A S} (body : S -> A -> M S) xs :
  (forall acc x, rng_only (body acc x)) -> forall acc, rng_only (mfold body xs acc).
Proof.
  intros Hb. induction xs as [|x xs IH]; intros acc; simpl.
  - apply rng_only_ret.
  - apply rng_only_bind; [apply Hb | exact IH].
Qed.

Lemma rng_only_random_interval max : rng_only (np_random.random_interval max).
Proof.
  intros w1 w2 Hw. unfold np_random.random_interval. rewrite Hw.
  destruct (random_state w2) eqn:E; simpl; split; congruence.
Qed.

Lemma rng_only_shuffle {A} (x : list A) : rng_only (np_random.shuffle x).
Proof.
  unfold np_random.shuffle. generalize (List.length x - 1)%nat. intros i.
  revert x. induction i as [|i IH]; intros x; simpl.
  - apply rng_only_ret.
  - apply rng_only_bind; [apply rng_only_random_interval|]. intros j. apply IH.
Qed.

Section Determinism.
Context {F : Type} `{Num F}.
Local Abbreviation Graph := (nx.Graph F).
Import community_louvain.

Lemma rng_only_visit_node (graph : Graph) acc node :
  rng_only (visit_node graph acc node).
Proof.
  destruct acc as [status modified]. unfold visit_node.
  apply rng_only_bind; [apply rng_only_lift|]. intros com_node.
  apply rng_only_bind; [apply rng_only_lift|]. intros neigh.
  apply rng_only_bind; [apply rng_only_shuffle|]. intros candidates.
  apply rng_only_ret.
Qed.

Lemma rng_only_one_level_loop fuel : forall (graph : Graph) status m,
  rng_only (one_level_loop fuel graph status m).
Proof.
  induction fuel as [|fuel IH]; intros graph status m; simpl.
  - apply rng_only_lift.
  - apply rng_only_bind; [apply rng_only_shuffle|]. intros order.
    apply rng_only_bind.
    + apply rng_only_mfold. intros acc x. apply rng_only_visit_node.
    + intros [st modified]. destruct (fltb _ f__MIN); [apply rng_only_ret|].
      destruct modified; [apply IH | apply rng_only_ret].
Qed.

Lemma rng_only_one_level fuel (graph : Graph) status :
  rng_only (__one_level fuel graph status).
Proof.
  unfold __one_level. apply rng_only_bind; [apply rng_only_log|].
  intros _. apply rng_only_one_level_loop.
Qed.

Lemma rng_only_dendrogram_loop fuel pass_fuel :
  forall (graph : Graph) status m sl,
    rng_only (dendrogram_loop fuel pass_fuel graph status m sl).
Proof.
  induction fuel as [|fuel IH]; intros graph status m sl; simpl.
  - apply rng_only_lift.
  - apply rng_only_bind; [apply rng_only_one_level|]. intros st.
    destruct (fltb _ f__MIN); [apply rng_only_ret|].
    apply rng_only_bind; [apply rng_only_lift|]. intros partition.
    apply rng_only_bind; [apply rng_only_lift|]. intros g2.
    apply rng_only_bind; [apply rng_only_lift|]. intros st2.
    apply IH.
Qed.

Lemma rng_only_best_partition fuel (graph : Graph) :
  rng_only (best_partition fuel graph).
Proof.
  unfold best_partition. apply rng_only_bind; [apply rng_only_log|]. intros _.
  apply rng_only_bind; [|intros dendo; apply rng_only_lift].
  unfold generate_dendrogram. destruct (Nat.eqb _ 0); [apply rng_only_ret|].
  apply rng_only_bind; [apply rng_only_lift|]. intros st0.
  apply rng_only_bind; [apply rng_only_one_level|]. intros st1.
  apply rng_only_bind; [apply rng_only_lift|]. intros partition.
  apply rng_only_bind; [apply rng_only_lift|]. intros g2.
  apply rng_only_bind; [apply rng_only_lift|]. intros st2.
  apply rng_only_dendrogram_loop.
Qed.

Lemma rng_only_detect_communities fuel (G : option Graph) :
  rng_only (detect_communities fuel G).
Proof.
  unfold detect_communities. destruct G as [g|]; [|apply rng_only_ret].
  destruct (_ || _); [apply rng_only_ret|].
  apply rng_only_bind; [apply rng_only_best_partition|]. intros partition.
  apply rng_only_bind; [apply rng_only_lift|]. intros q.
  apply rng_only_ret.
Qed.
End Determinism.

(** ** The step budget *)

Lemma settles_as_refl {A} (c : M A) : settles_as c c.
Proof. intros w _. reflexivity. Qed.

Lemma settles_as_bind {A B} (c c' : M A) (k k' : A -> M B) :
  settles_as c c' -> (forall a, settles_as (k a) (k' a)) ->
  settles_as (bind c k) (bind c' k').
Proof.
  intros Hc Hk w. unfold bind. specialize (Hc w).
  destruct (c w) as [[a|e|] w1] eqn:E; simpl in Hc.
  - rewrite Hc by discriminate. apply Hk.
  - rewrite Hc by discriminate. reflexivity.
  - simpl. intros Hn. now contradiction Hn.
Qed.

Lemma settles_as_try_except {A} (c c' : M A) (h : exn -> M A) :
  settles_as c c' -> settles_as (try_except c h) (try_except c' h).
Proof.
  intros Hc w. unfold try_except. specialize (Hc w).
  destruct (c w) as [[a|e|] w1] eqn:E; simpl in Hc.
  - rewrite Hc by discriminate. reflexivity.
  - rewrite Hc by discriminate. reflexivity.
  - simpl. intros Hn. now contradiction Hn.
Qed.

Section StepBudget.
Context {F : Type} `{Num F}.
Local Abbreviation Graph := (nx.Graph F).
Import community_louvain.

Lemma one_level_loop_budget fuel : forall fuel' (graph : Graph) status m,
  (fuel <= fuel')%nat ->
  settles_as (one_level_loop fuel graph status m)
             (one_level_loop fuel' graph status m).
Proof.
  induction fuel as [|fuel IH]; intros fuel' graph status m Hle.
  - intros w Hn. simpl in Hn. now contradiction Hn.
  - destruct fuel' as [|fuel']; [lia|]. simpl.
    apply settles_as_bind; [apply settles_as_refl|]. intros order.
    apply settles_as_bind; [apply settles_as_refl|]. intros [st modified].
    destruct (fltb _ f__MIN); [apply settles_as_refl|].
    destruct modified; [apply IH; lia | apply settles_as_refl].
Qed.

Lemma one_level_budget fuel fuel' (graph : Graph) status :
  (fuel <= fuel')%nat ->
  settles_as (__one_level fuel graph status) (__one_level fuel' graph status).
Proof.
  intros Hle. unfold __one_level.
  apply settles_as_bind; [apply settles_as_refl|]. intros _.
  now apply one_level_loop_budget.
Qed.

Lemma dendrogram_loop_budget fuel :
  forall fuel' pass_fuel pass_fuel' (graph : Graph) status m sl,
    (fuel <= fuel')%nat -> (pass_fuel <= pass_fuel')%nat ->
    settles_as (dendrogram_loop fuel pass_fuel graph status m sl)
               (dendrogram_loop fuel' pass_fuel' graph status m sl).
Proof.
  induction fuel as [|fuel IH];
    intros fuel' pass_fuel pass_fuel' graph status m sl Hle Hple.
  - intros w Hn. simpl in Hn. now contradiction Hn.
  - destruct fuel' as [|fuel']; [lia|]. simpl.
    apply settles_as_bind; [now apply one_level_budget|]. intros st.
    destruct (fltb _ f__MIN); [apply settles_as_refl|].
    apply settles_as_bind; [apply settles_as_refl|]. intros partition.
    apply settles_as_bind; [apply settles_as_refl|]. intros g2.
    apply settles_as_bind; [apply settles_as_refl|]. intros st2.
    apply IH; lia.
Qed.

Lemma best_partition_budget fuel fuel' (graph : Graph) :
  (fuel <= fuel')%nat ->
  settles_as (best_partition fuel graph) (best_partition fuel' graph).
Proof.
  intros Hle. unfold best_partition.
  apply settles_as_bind; [apply settles_as_refl|]. intros _.
  apply settles_as_bind; [|intros dendo; apply settles_as_refl].
  unfold generate_dendrogram. destruct (Nat.eqb _ 0); [apply settles_as_refl|].
  apply settles_as_bind; [apply settles_as_refl|]. intros st0.
  apply settles_as_bind; [now apply one_level_budget|]. intros st1.
  apply settles_as_bind; [apply settles_as_refl|]. intros partition.
  apply settles_as_bind; [apply settles_as_refl|]. intros g2.
  apply settles_as_bind; [apply settles_as_refl|]. intros st2.
  now apply dendrogram_loop_budget.
Qed.

(** A run of the analysis that finishes within a budget finishes the same
    way within any larger one: the budget never shapes a result. *)
Lemma detect_communities_budget fuel fuel' (G : option Graph) :
  (fuel <= fuel')%nat ->
  settles_as (detect_communities fuel G) (detect_communities fuel' G).
Proof.
  intros Hle. unfold detect_communities.
  destruct G as [g|]; [|apply settles_as_refl].
  destruct (_ || _); [apply settles_as_refl|].
  apply settles_as_bind; [now apply best_partition_budget|]. intros partition.
  apply settles_as_refl.
Qed.

Lemma analyze_network_budget fuel fuel' (state : graph_state F) :
  (fuel <= fuel')%nat ->
  settles_as (analyze_network fuel state) (analyze_network fuel' state).
Proof.
  intros Hle. unfold analyze_network.
  destruct (state_get_G state); [|apply settles_as_refl].
  apply settles_as_try_except.
  apply settles_as_bind; [now apply detect_communities_budget|].
  intros results. apply settles_as_refl.
Qed.
End StepBudget.

(** ** Claims about the optimizer *)




(** The first pass of the optimizer over the six-station path visits the
    stations in the order the generator dictates: 4, 3, 6, 5, 2, 1 when the
    next draws are 0, 1, 1, and 2, 3, 4, 5, 6, 1 when they are all zero, as
    they are once a first analysis has used the three draws up. *)
Example path6_visiting_orders :
  fst (np_random.shuffle [1; 2; 3; 4; 5; 6] (fresh [0; 1; 1]%nat))
  = Ok [4; 3; 6; 5; 2; 1]
  /\ fst (np_random.shuffle [1; 2; 3; 4; 5; 6] (fresh []))
     = Ok [2; 3; 4; 5; 6; 1]
  /\ random_state
       (snd (detect_communities (F:=float) 20 (Some path6) (fresh [0; 1; 1]%nat)))
     = [].
Proof. repeat split; vm_compute; reflexivity. Qed.

(** C1 (counterexample).  One process analyses the six-station path twice.
    Its generator starts in a state whose next bounded draws are 0, 1, 1
    (then zeros).  The first run returns 2 communities with score
    0.30000000000000004, the second 3 communities with score 0.26; the
    partitions differ as well. *)
Lemma C1_two_runs_disagree :
  let run1 := detect_communities (F:=float) 20 (Some path6) (fresh [0; 1; 1]%nat) in
  let run2 := detect_communities (F:=float) 20 (Some path6) (snd run1) in
  fst run1 = Ok [("modularity_score", PFloat 0.30000000000000004%float);
                 ("total_communities_detected", PInt 2);
                 ("total_nodes", PInt 6)]
  /\ fst run2 = Ok [("modularity_score", PFloat 0.26000000000000001%float);
                    ("total_communities_detected", PInt 3);
                    ("total_nodes", PInt 6)]
  /\ fst run1 <> fst run2
  /\ fst (community_louvain.best_partition (F:=float) 20 path6 (fresh [0; 1; 1]%nat))
     = Ok [(1, 0); (2, 0); (3, 0); (4, 1); (5, 1); (6, 1)]
  /\ fst (community_louvain.best_partition (F:=float) 20 path6 (snd run1))
     = Ok [(1, 0); (2, 0); (3, 1); (4, 1); (5, 2); (6, 2)].
Proof.
  cbv zeta.
  assert (H1 : fst (detect_communities (F:=float) 20 (Some path6)
                      (fresh [0; 1; 1]%nat))
               = Ok [("modularity_score", PFloat 0.30000000000000004%float);
                     ("total_communities_detected", PInt 2);
                     ("total_nodes", PInt 6)])
    by (vm_compute; reflexivity).
  assert (H2 : fst (detect_communities (F:=float) 20 (Some path6)
                      (snd (detect_communities (F:=float) 20 (Some path6)
                              (fresh [0; 1; 1]%nat))))
               = Ok [("modularity_score", PFloat 0.26000000000000001%float);
                     ("total_communities_detected", PInt 3);
                     ("total_nodes", PInt 6)])
    by (vm_compute; reflexivity).
  split; [exact H1|]. split; [exact H2|]. split.
  - rewrite H1, H2. intros E.
    apply (f_equal (fun o => match o with
                             | Ok r => dict_get r "total_communities_detected"
                             | _ => None
                             end)) in E.
    vm_compute in E. discriminate E.
  - split; vm_compute; reflexivity.
Qed.

(** C1 (amended).  The result of [detect_communities] is a function of the
    graph and of the state of the process-wide random generator, which
    nothing in the code seeds: two runs on the same graph that start from
    the same generator state return the same result and leave the generator
    in the same state.  Whatever the generator state, two successful runs
    on a graph report the same [total_nodes]. *)
Theorem C1_same_generator_state_same_result :
  forall (F : Type) (HF : Num F) (fuel : nat) (G : option (nx.Graph F))
         (w1 w2 : world),
    (random_state w1 = random_state w2 ->
     fst (detect_communities fuel G w1) = fst (detect_communities fuel G w2)
     /\ random_state (snd (detect_communities fuel G w1))
        = random_state (snd (detect_communities fuel G w2)))
    /\ forall r1 r2,
         fst (detect_communities fuel G w1) = Ok r1 ->
         fst (detect_communities fuel G w2) = Ok r2 ->
         dict_get r1 "total_nodes" = dict_get r2 "total_nodes".
Proof.
  intros F HF fuel G w1 w2. split.
  - apply rng_only_detect_communities.
  - intros r1 r2 H1 H2.
    destruct G as [g|].
    + destruct (Nat.eq_dec (nx.number_of_nodes g) 0) as [E|Hn].
      * rewrite detect_communities_empty in H1, H2
          by (simpl; now rewrite E).
        simpl in H1, H2. congruence.
      * destruct (detect_communities fuel (Some g) w1) as [o1 w1'] eqn:E1.
        destruct (detect_communities fuel (Some g) w2) as [o2 w2'] eqn:E2.
        simpl in H1, H2. subst o1 o2.
        destruct (@detect_communities_Ok F HF fuel g w1 r1 w1' Hn E1)
          as (p1 & q1 & _ & _ & ->).
        destruct (@detect_communities_Ok F HF fuel g w2 r2 w2' Hn E2)
          as (p2 & q2 & _ & _ & ->).
        reflexivity.
    + simpl in H1, H2. congruence.
Qed.

(** C1 (amended) for two processes with the generator in the same state *)
Lemma C1_witness :
  fst (detect_communities (F:=float) 20 (Some path6) (fresh [0; 1; 1]%nat))
  = fst (detect_communities (F:=float) 20 (Some path6)
           {| random_state := [0; 1; 1]%nat; trace := [Call_best_partition] |})
  /\ random_state
       (snd (detect_communities (F:=float) 20 (Some path6) (fresh [0; 1; 1]%nat)))
     = random_state
         (snd (detect_communities (F:=float) 20 (Some path6)
                 {| random_state := [0; 1; 1]%nat;
                    trace := [Call_best_partition] |})).
Proof.
  apply (@C1_same_generator_state_same_result float float_num 20%nat
           (Some path6) (fresh [0; 1; 1]%nat)
           {| random_state := [0; 1; 1]%nat; trace := [Call_best_partition] |}).
  reflexivity.
Defined.

Lemma zsum_app {A} (f : A -> Z) l1 l2 :
  zsum f (l1 ++ l2) = zsum f l1 + zsum f l2.
Proof. induction l1 as [|x l1 IH]; simpl; lia. Qed.

Lemma zsum_ext {A} (f g : A -> Z) l :
  (forall x, In x l -> f x = g x) -> zsum f l = zsum g l.
Proof.
  induction l as [|x l IH]; simpl; intros Hfg; [reflexivity|].
  rewrite (Hfg x) by now left. rewrite IH; [reflexivity|].
  intros y Hy. apply Hfg. now right.
Qed.

Lemma zsum_le {A} (f g : A -> Z) l :
  (forall x, In x l -> f x <= g x) -> zsum f l <= zsum g l.
Proof.
  induction l as [|x l IH]; simpl; intros Hfg; [lia|].
  assert (f x <= g x) by (apply Hfg; now left).
  assert (zsum f l <= zsum g l) by (apply IH; intros y Hy; apply Hfg; now right).
  lia.
Qed.

Lemma zsum_nonneg {A} (f : A -> Z) l :
  (forall x, In x l -> 0 <= f x) -> 0 <= zsum f l.
Proof.
  induction l as [|x l IH]; simpl; intros Hf; [lia|].
  assert (0 <= f x) by (apply Hf; now left).
  assert (0 <= zsum f l) by (apply IH; intros y Hy; apply Hf; now right).
  lia.
Qed.

Lemma zsum_zero {A} (f : A -> Z) l :
  (forall x, In x l -> f x = 0) -> zsum f l = 0.
Proof.
  induction l as [|x l IH]; simpl; intros Hf; [reflexivity|].
  rewrite (Hf x) by now left. rewrite IH; [reflexivity|].
  intros y Hy. apply Hf. now right.
Qed.

Lemma zsum_plus {A} (f g : A -> Z) l :
  zsum (fun x => f x + g x) l = zsum f l + zsum g l.
Proof. induction l as [|x l IH]; simpl; lia. Qed.

Lemma zsum_scale {A} (f : A -> Z) k l :
  zsum (fun x => k * f x) l = k * zsum f l.
Proof. induction l as [|x l IH]; simpl; lia. Qed.

Lemma zsum_map {A B} (f : B -> Z) (g : A -> B) l :
  zsum f (map g l) = zsum (fun x => f (g x)) l.
Proof. induction l as [|x l IH]; simpl; congruence. Qed.

Lemma zsum_flat_map {A B} (f : B -> Z) (g : A -> list B) l :
  zsum f (flat_map g l) = zsum (fun x => zsum f (g x)) l.
Proof.
  induction l as [|x l IH]; simpl; [reflexivity|].
  now rewrite zsum_app, IH.
Qed.

Lemma zsum_Permutation {A} (f : A -> Z) l l' :
  Permutation l l' -> zsum f l = zsum f l'.
Proof. induction 1; simpl; lia. Qed.

(** Summing over the terms of two lists in either order *)
Lemma zsum_exchange {A B} (f : A -> B -> Z) la lb :
  zsum (fun a => zsum (fun b => f a b) lb) la
  = zsum (fun b => zsum (fun a => f a b) la) lb.
Proof.
  induction la as [|a la IH]; simpl.
  - symmetry. now apply zsum_zero.
  - rewrite IH. symmetry. apply zsum_plus.
Qed.

(** A member of a duplicate-free list is picked out once. *)
Lemma zsum_pick (l : list Z) (a k : Z) :
  NoDup l -> In a l -> zsum (fun c => if c =? a then k else 0) l = k.
Proof.
  induction l as [|c l IH]; simpl; intros Hnd Hin; [contradiction|].
  inversion Hnd as [|? ? Hnot Hnd']; subst.
  destruct Hin as [->|Hin].
  - rewrite Z.eqb_refl. rewrite zsum_zero; [lia|].
    intros x Hx. destruct (Z.eqb_spec x a); [subst; contradiction | reflexivity].
  - destruct (Z.eqb_spec c a) as [->|Hne]; [contradiction|].
    rewrite IH by assumption. lia.
Qed.

(** ** Counting edges by community *)

Section Counting.
Context {F : Type}.
Local Abbreviation Graph := (nx.Graph F).
Implicit Types (G : Graph) (P : dict Z Z).

Lemma in_com_Some P c u com :
  dict_get P u = Some com -> in_com P c u = (com =? c).
Proof. unfold in_com. now intros ->. Qed.

Lemma arc_weight_pos a : 0 < arc_weight a.
Proof. unfold arc_weight. destruct (_ =? _); lia. Qed.

Lemma arc_weight_swap a : arc_weight (swap_arc a) = arc_weight a.
Proof. unfold arc_weight, swap_arc. simpl. now rewrite Z.eqb_sym. Qed.

Lemma com_internal_bounds G P c :
  0 <= com_internal G P c <= com_degree G P c.
Proof.
  unfold com_internal, com_degree. split.
  - apply zsum_nonneg. intros a _. pose proof (arc_weight_pos a).
    destruct (_ && _); lia.
  - apply zsum_le. intros a _. pose proof (arc_weight_pos a).
    destruct (in_com P c (fst a)), (in_com P c (snd a)); simpl; lia.
Qed.

Lemma com_degree_le_total G P c : com_degree G P c <= total_degree G.
Proof.
  unfold com_degree, total_degree. apply zsum_le. intros a _.
  pose proof (arc_weight_pos a). destruct (in_com P c (fst a)); lia.
Qed.

(** The edges that leave a community are edges that enter it from the
    other nodes. *)
Lemma com_cut_le_rest G P c :
  Permutation (arcs G) (map swap_arc (arcs G)) ->
  com_degree G P c - com_internal G P c <= total_degree G - com_degree G P c.
Proof.
  intros Hperm.
  assert (Hcut : com_degree G P c - com_internal G P c
                 = zsum (fun a => if in_com P c (fst a) && negb (in_com P c (snd a))
                                  then arc_weight a else 0) (arcs G)).
  { unfold com_degree, com_internal.
    assert (E : forall l,
      zsum (fun a => if in_com P c (fst a) then arc_weight a else 0) l
      - zsum (fun a => if in_com P c (fst a) && in_com P c (snd a)
                       then arc_weight a else 0) l
      = zsum (fun a => if in_com P c (fst a) && negb (in_com P c (snd a))
                       then arc_weight a else 0) l).
    { induction l as [|a l IH]; simpl; [reflexivity|].
      destruct (in_com P c (fst a)), (in_com P c (snd a)); simpl; lia. }
    apply E. }
  assert (Hrest : total_degree G - com_degree G P c
                  = zsum (fun a => if negb (in_com P c (fst a))
                                   then arc_weight a else 0) (arcs G)).
  { unfold total_degree, com_degree.
    assert (E : forall l,
      zsum arc_weight l
      - zsum (fun a => if in_com P c (fst a) then arc_weight a else 0) l
      = zsum (fun a => if negb (in_com P c (fst a))
                       then arc_weight a else 0) l).
    { induction l as [|a l IH]; simpl; [reflexivity|].
      destruct (in_com P c (fst a)); simpl; lia. }
    apply E. }
  rewrite Hcut, Hrest.
  rewrite (zsum_Permutation _ _ _ Hperm), zsum_map.
  apply zsum_le. intros a _. rewrite arc_weight_swap. simpl.
  pose proof (arc_weight_pos a).
  destruct (in_com P c (fst a)), (in_com P c (snd a)); simpl; lia.
Qed.

(** The community degrees add up to the total degree when every node that
    has a neighbour lies in one of the listed communities. *)
Lemma com_degree_total G P (C : list Z) :
  NoDup C ->
  (forall a, In a (arcs G) -> exists c, In c C /\ dict_get P (fst a) = Some c) ->
  zsum (com_degree G P) C = total_degree G.
Proof.
  intros Hnd Hcov. unfold com_degree, total_degree.
  rewrite zsum_exchange. apply zsum_ext. intros a Ha.
  destruct (Hcov a Ha) as (c & Hc & Hg).
  rewrite (zsum_ext _ (fun c0 => if c0 =? c then arc_weight a else 0)).
  - now apply zsum_pick.
  - intros c0 _. unfold in_com. rewrite Hg. now rewrite Z.eqb_sym.
Qed.

(** The numerator of the modularity, [sum_c (2 e_c * 2m - d_c^2)], lies
    between [-(2m)^2 / 2] and [(2m)^2]. *)
Lemma modularity_numerator_bounds G P (C : list Z) :
  NoDup C ->
  Permutation (arcs G) (map swap_arc (arcs G)) ->
  (forall a, In a (arcs G) -> exists c, In c C /\ dict_get P (fst a) = Some c) ->
  let L := total_degree G in
  let N := zsum (fun c => com_internal G P c * L - com_degree G P c * com_degree G P c) C in
  - (L * L) <= 2 * N /\ N <= L * L.
Proof.
  intros Hnd Hperm Hcov L N.
  pose proof (com_degree_total G P C Hnd Hcov) as Htot. fold L in Htot.
  assert (HL : 0 <= L).
  { unfold L, total_degree. apply zsum_nonneg. intros a _.
    pose proof (arc_weight_pos a). lia. }
  split.
  - assert (Hlow : zsum (fun c => - (L * (com_degree G P c - com_internal G P c))) C
                   <= zsum (fun c => 2 * (com_internal G P c * L
                                          - com_degree G P c * com_degree G P c)) C).
    { apply zsum_le. intros c _.
      pose proof (com_internal_bounds G P c) as [HJ0 HJD].
      pose proof (com_degree_le_total G P c) as HDL.
      pose proof (com_cut_le_rest G P c Hperm) as Hcut. fold L in HDL, Hcut.
      set (D := com_degree G P c) in *. set (J := com_internal G P c) in *.
      nia. }
    rewrite zsum_scale in Hlow. fold N in Hlow.
    assert (Hx : zsum (fun c => com_degree G P c - com_internal G P c) C <= L).
    { rewrite <- Htot. apply zsum_le. intros c _.
      pose proof (com_internal_bounds G P c). lia. }
    assert (Hneg : zsum (fun c => - (L * (com_degree G P c - com_internal G P c))) C
                   = - (L * zsum (fun c => com_degree G P c - com_internal G P c) C)).
    { rewrite <- zsum_scale. rewrite <- (zsum_scale _ (-1)).
      apply zsum_ext. intros c _. lia. }
    rewrite Hneg in Hlow. nia.
  - assert (Hup : N <= zsum (fun c => L * com_degree G P c) C).
    { unfold N. apply zsum_le. intros c _.
      pose proof (com_internal_bounds G P c) as [HJ0 HJD].
      set (D := com_degree G P c) in *. set (J := com_internal G P c) in *.
      nia. }
    rewrite zsum_scale, Htot in Hup. exact Hup.
Qed.

(** With one node per community and no self-loop nothing is internal. *)
Lemma com_internal_singletons G P c :
  (forall a, In a (arcs G) -> fst a <> snd a) ->
  (forall a c', In a (arcs G) ->
     dict_get P (fst a) = Some c' -> dict_get P (snd a) = Some c' ->
     fst a = snd a) ->
  com_internal G P c = 0.
Proof.
  intros Hloop Hinj. unfold com_internal. apply zsum_zero. intros a Ha.
  unfold in_com.
  destruct (dict_get P (fst a)) as [c1|] eqn:E1; [|reflexivity].
  destruct (dict_get P (snd a)) as [c2|] eqn:E2; [|now rewrite andb_false_r].
  destruct (Z.eqb_spec c1 c) as [->|]; [|reflexivity].
  destruct (Z.eqb_spec c2 c) as [->|]; [|reflexivity].
  exfalso. apply (Hloop a Ha). now apply (Hinj a c).
Qed.
End Counting.

(** ** The modularity formula over exact rationals *)

Section ExactModularity.
Local Open Scope Q_scope.
Local Abbreviation Graph := (nx.Graph Q).

Lemma val_set d k x c :
  val (dict_set d k x) c = if Z.eq_dec k c then x else val d c.
Proof. unfold val. apply dict_get_default_set. Qed.

Lemma fold_left_Qplus_shift (l : list Q) (a : Q) :
  fold_left Qplus l a == a + fold_left Qplus l 0.
Proof.
  revert a. induction l as [|x l IH]; intros a; simpl.
  - ring.
  - rewrite (IH (a + x)), (IH (0 + x)). ring.
Qed.

(** A sum of unit weights is their number. *)
Lemma fsum_units (nbrs : dict Z (nx.attrs Q)) :
  plain nbrs ->
  nx.fsum (map (fun dd => nx.weight_of dd fone) (values nbrs))
  == inject_Z (Z.of_nat (List.length nbrs)).
Proof.
  unfold nx.fsum. q_ops. induction nbrs as [|[v a] nbrs IH]; intros Hp.
  - reflexivity.
  - assert (Ha : a = None) by (apply (Hp (v, a)); now left). subst a.
    cbn [values map fold_left List.length snd].
    rewrite fold_left_Qplus_shift.
    change (map snd nbrs) with (values nbrs). rewrite IH.
    + simpl nx.weight_of.
      rewrite Nat2Z.inj_succ. unfold Z.succ. rewrite inject_Z_plus. ring.
    + intros vd Hvd. apply Hp. now right.
Qed.

Lemma zsum_arc_weight_row (u : Z) (nbrs : dict Z (nx.attrs Q)) :
  NoDup (keys nbrs) ->
  zsum (fun vd => arc_weight (u, fst vd)) nbrs
  = (Z.of_nat (List.length nbrs) + if dict_mem nbrs u then 1 else 0)%Z.
Proof.
  unfold arc_weight, dict_mem. simpl fst. simpl snd.
  induction nbrs as [|[v a] nbrs IH]; intros Hnd.
  - reflexivity.
  - inversion Hnd as [|? ? Hnot Hnd']; subst.
    cbn [zsum List.length dict_get fst]. rewrite IH by assumption.
    unfold eq_dec, Z_EqDec. rewrite Nat2Z.inj_succ.
    destruct (Z.eq_dec u v) as [->|Hne].
    + rewrite Z.eqb_refl.
      destruct (dict_get nbrs v) eqn:E; [|lia].
      exfalso. apply Hnot. eapply dict_get_Some_key. exact E.
    + destruct (Z.eqb_spec u v); [contradiction|].
      destruct (dict_get nbrs u); lia.
Qed.

(** The degree networkx reports is the sum of the arc weights of the row. *)
Lemma degree_of_exact (u : Z) (nbrs : dict Z (nx.attrs Q)) :
  plain nbrs -> NoDup (keys nbrs) ->
  nx.degree_of u nbrs == inject_Z (zsum (fun vd => arc_weight (u, fst vd)) nbrs).
Proof.
  intros Hp Hnd. unfold nx.degree_of.
  rewrite zsum_arc_weight_row by assumption. unfold dict_mem.
  destruct (dict_get nbrs u) as [dd|] eqn:E.
  - apply dict_get_Some_In in E. apply Hp in E. simpl in E. subst dd.
    q_ops. rewrite fsum_units by assumption.
    simpl nx.weight_of. rewrite inject_Z_plus. reflexivity.
  - rewrite fsum_units by assumption. rewrite Z.add_0_r. reflexivity.
Qed.
Lemma neighbors_of_item (G : Graph) nd :
  NoDup (nx.nodes G) -> In nd G -> nx.neighbors G (fst nd) = snd nd.
Proof.
  intros Hnd Hin. destruct nd as [u nbrs]. unfold nx.neighbors, dict_get_default.
  now rewrite (dict_get_In_NoDup G u nbrs Hnd Hin).
Qed.

Lemma fsum_exact {A} (f : A -> Q) (g : A -> Z) (l : list A) :
  (forall x, In x l -> f x == inject_Z (g x)) ->
  nx.fsum (map f l) == inject_Z (zsum g l).
Proof.
  unfold nx.fsum. q_ops. induction l as [|x l IH]; intros Hfg.
  - reflexivity.
  - cbn [map fold_left zsum]. rewrite fold_left_Qplus_shift, IH.
    + rewrite (Hfg x) by now left. rewrite inject_Z_plus. ring.
    + intros y Hy. apply Hfg. now right.
Qed.

Lemma total_degree_rows (G : Graph) :
  total_degree G
  = zsum (fun nd => zsum (fun vd => arc_weight (fst nd, fst vd)) (snd nd)) G.
Proof.
  unfold total_degree, arcs. rewrite zsum_flat_map.
  apply zsum_ext. intros nd _. now rewrite zsum_map.
Qed.

(** [G.size(weight='weight')] is half the total degree. *)
Lemma size_exact (G : Graph) :
  well_formed G -> nx.size G == inject_Z (total_degree G) / 2.
Proof.
  intros (Hnd & Hrows & _). unfold nx.size.
  assert (Hs : nx.fsum (map (fun nd => nx.degree_of (fst nd) (snd nd)) G)
               == inject_Z (total_degree G)).
  { rewrite total_degree_rows. apply fsum_exact.
    intros nd Hin. destruct (Hrows nd Hin). now apply degree_of_exact. }
  q_ops. rewrite Hs. reflexivity.
Qed.

Lemma com_degree_rows (G : Graph) P c :
  com_degree G P c = zsum (row_degree P c) G.
Proof.
  unfold com_degree, arcs. rewrite zsum_flat_map.
  apply zsum_ext. intros [u nbrs] _. rewrite zsum_map. unfold row_degree.
  cbn [fst snd]. destruct (in_com P c u); [reflexivity|].
  now apply zsum_zero.
Qed.

Lemma com_internal_rows (G : Graph) P c :
  com_internal G P c = zsum (row_internal P c) G.
Proof.
  unfold com_internal, arcs. rewrite zsum_flat_map.
  apply zsum_ext. intros [u nbrs] _. rewrite zsum_map. unfold row_internal.
  cbn [fst snd]. destruct (in_com P c u); [reflexivity|].
  now apply zsum_zero.
Qed.

(** The inner loop of [modularity] adds, for the community of the node,
    half the arc weight of every neighbour in that community. *)
Lemma modularity_neighbors_exact P u com :
  forall nbrs inc inc',
    plain nbrs ->
    ofold (community_louvain.modularity_neighbor P u com) nbrs inc = Ok inc' ->
    (forall vd, In vd nbrs -> dict_get P (fst vd) <> None)
    /\ forall c,
         val inc' c ==
         val inc c +
         (if Z.eq_dec com c
          then inject_Z (zsum (fun vd => if in_com P com (fst vd)
                                         then arc_weight (u, fst vd) else 0%Z)
                           nbrs) / 2
          else 0).
Proof.
  induction nbrs as [|[v a] nbrs IH]; intros inc inc' Hp; simpl ofold.
  - intros [= <-]. split; [intros vd []|].
    intros c. destruct (Z.eq_dec com c); simpl; unfold Qdiv; ring.
  - intros Hb. apply obind_Ok_inv in Hb. destruct Hb as (inc1 & Hstep & Hrest).
    assert (Ha : a = None) by (apply (Hp (v, a)); now left). subst a.
    apply IH in Hrest; [|intros vd Hvd; apply Hp; now right].
    destruct Hrest as [Hcov Hval].
    unfold community_louvain.modularity_neighbor in Hstep.
    apply obind_Ok_inv in Hstep. destruct Hstep as (ncom & Hn & Hstep).
    apply dict_item_Ok in Hn. split.
    + intros vd [<-|Hvd]; [simpl; congruence | now apply Hcov].
    + intros c. rewrite Hval. cbn [zsum fst]. unfold in_com at 2. rewrite Hn.
      unfold arc_weight at 2. cbn [fst snd]. rewrite (Z.eqb_sym u v).
      destruct (ncom =? com)%Z.
      * destruct (v =? u)%Z; injection Hstep as <-; fold (val inc com);
          rewrite val_set; q_ops; simpl nx.weight_of;
          destruct (Z.eq_dec com c) as [->|]; rewrite ?inject_Z_plus;
          try (unfold Qdiv; ring).
        -- change (inject_Z 2) with 2. field.
        -- change (inject_Z 1) with 1. field.
      * injection Hstep as <-.
        destruct (Z.eq_dec com c); [|reflexivity].
        rewrite Z.add_0_l. reflexivity.
Qed.
(** The outer loop of [modularity] accumulates, per community, the degree
    of its nodes and half the arc weight inside it. *)
Lemma modularity_nodes_exact P (G0 : Graph) :
  forall items inc deg inc' deg',
    (forall nd, In nd items ->
       NoDup (keys (snd nd)) /\ plain (snd nd)
       /\ nx.neighbors G0 (fst nd) = snd nd) ->
    ofold (community_louvain.modularity_node P G0) items (inc, deg)
    = Ok (inc', deg') ->
    (forall nd, In nd items -> dict_get P (fst nd) <> None)
    /\ forall c,
         val deg' c == val deg c + inject_Z (zsum (row_degree P c) items)
         /\ val inc' c == val inc c + inject_Z (zsum (row_internal P c) items) / 2.
Proof.
  induction items as [|[u nbrs] items IH]; intros inc deg inc' deg' Hrows;
    simpl ofold.
  - intros [= <- <-]. split; [intros nd []|].
    intros c. split; simpl; unfold Qdiv; ring.
  - intros Hb. apply obind_Ok_inv in Hb.
    destruct Hb as ([inc1 deg1] & Hstep & Hrest).
    destruct (Hrows (u, nbrs) (or_introl eq_refl)) as (Hnd & Hp & Hnb).
    cbn [fst snd] in Hnd, Hp, Hnb.
    apply IH in Hrest; [|intros nd Hin; apply Hrows; now right].
    destruct Hrest as [Hcov Hval].
    unfold community_louvain.modularity_node in Hstep.
    apply obind_Ok_inv in Hstep. destruct Hstep as (com & Hc & Hstep).
    apply dict_item_Ok in Hc.
    apply obind_Ok_inv in Hstep. destruct Hstep as (inc2 & Hinner & Heq).
    injection Heq as <- <-.
    apply modularity_neighbors_exact in Hinner; [|assumption].
    destruct Hinner as [_ Hinc]. split.
    + intros nd [<-|Hin]; [simpl; congruence | now apply Hcov].
    + intros c. destruct (Hval c) as [Hd Hi]. split.
      * rewrite Hd. fold (val deg com). rewrite val_set.
        unfold nx.degree. rewrite Hnb.
        cbn [zsum]. unfold row_degree at 2. cbn [fst snd].
        rewrite (in_com_Some P c u com Hc).
        destruct (Z.eq_dec com c) as [->|Hne].
        -- rewrite Z.eqb_refl. q_ops.
           rewrite (degree_of_exact u nbrs Hp Hnd), inject_Z_plus. ring.
        -- destruct (Z.eqb_spec com c); [contradiction|].
           rewrite Z.add_0_l. reflexivity.
      * rewrite Hi, Hinc.
        cbn [zsum]. unfold row_internal at 2. cbn [fst snd].
        rewrite (in_com_Some P c u com Hc).
        destruct (Z.eq_dec com c) as [->|Hne].
        -- rewrite Z.eqb_refl. rewrite inject_Z_plus. unfold Qdiv. ring.
        -- destruct (Z.eqb_spec com c); [contradiction|].
           rewrite Z.add_0_l. ring.
Qed.

Lemma fold_terms_exact (t : Z -> Q) (n : Z -> Z) (M : Q) (C : list Z) :
  (forall c, t c == inject_Z (n c) * M) ->
  forall a, fold_left (fun r c => r + t c) C a == a + inject_Z (zsum n C) * M.
Proof.
  intros Ht. induction C as [|c C IH]; intros a; simpl.
  - ring.
  - rewrite IH, Ht, inject_Z_plus. ring.
Qed.

Lemma ratio_bounds (N M : Z) :
  (0 < M)%Z ->
  ((- M <= 2 * N)%Z -> - (1 # 2) <= inject_Z N * / inject_Z M)
  /\ ((N <= M)%Z -> inject_Z N * / inject_Z M <= 1)
  /\ ((N <= 0)%Z -> inject_Z N * / inject_Z M <= 0).
Proof.
  intros HM.
  assert (HMq : 0 < inject_Z M).
  { change (inject_Z 0 < inject_Z M). rewrite <- Zlt_Qlt. exact HM. }
  repeat split; intros HN.
  - apply Qle_shift_div_l; [exact HMq|].
    unfold Qle, Qmult, Qopp, inject_Z. cbn [Qnum Qden]. lia.
  - apply Qle_shift_div_r; [exact HMq|].
    unfold Qle, Qmult, inject_Z. cbn [Qnum Qden]. lia.
  - apply Qle_shift_div_r; [exact HMq|].
    unfold Qle, Qmult, inject_Z. cbn [Qnum Qden]. lia.
Qed.

(** *** The arcs of a well-formed graph *)

Lemma arcs_cons u nbrs (G : Graph) :
  arcs ((u, nbrs) :: G) = map (fun vd => (u, fst vd)) nbrs ++ arcs G.
Proof. reflexivity. Qed.

Lemma in_arcs (G : Graph) u v :
  In (u, v) (arcs G) <-> exists nbrs, In (u, nbrs) G /\ In v (keys nbrs).
Proof.
  unfold arcs. rewrite in_flat_map. split.
  - intros ([u' nbrs] & Hin & Hv). apply in_map_iff in Hv.
    destruct Hv as (vd & [= <- <-] & Hvd). exists nbrs. split; [assumption|].
    unfold keys. now apply in_map.
  - intros (nbrs & Hin & Hv). exists (u, nbrs). split; [assumption|].
    unfold keys in Hv. apply in_map_iff in Hv. destruct Hv as (vd & <- & Hvd).
    apply in_map_iff. now exists vd.
Qed.

Lemma in_arcs_has_edge (G : Graph) u v :
  NoDup (nx.nodes G) -> In (u, v) (arcs G) <-> nx.has_edge G u v = true.
Proof.
  intros Hnd. rewrite in_arcs, has_edge_neighbors, dict_mem_true. split.
  - intros (nbrs & Hin & Hv).
    pose proof (neighbors_of_item G (u, nbrs) Hnd Hin) as Hn.
    cbn [fst snd] in Hn. now rewrite Hn.
  - intros Hv. unfold nx.neighbors, dict_get_default in Hv.
    destruct (dict_get G u) as [nbrs|] eqn:E; [|destruct Hv].
    exists nbrs. split; [now apply dict_get_Some_In | assumption].
Qed.

Lemma NoDup_arcs (G : Graph) :
  NoDup (nx.nodes G) ->
  (forall nd, In nd G -> NoDup (keys (snd nd))) ->
  NoDup (arcs G).
Proof.
  induction G as [|[u nbrs] G IH]; intros Hnd Hrows; [constructor|].
  rewrite arcs_cons. inversion Hnd as [|? ? Hnot Hnd']; subst.
  apply NoDup_app.
  - pose proof (Hrows (u, nbrs) (or_introl eq_refl)) as Hk. simpl in Hk.
    clear - Hk. induction nbrs as [|[v a] nbrs IHn]; simpl; [constructor|].
    inversion Hk as [|? ? Hn Hk']; subst. constructor; [|now apply IHn].
    intros Hin. apply in_map_iff in Hin. destruct Hin as (vd & [= <-] & Hvd).
    apply Hn. unfold keys. now apply in_map.
  - apply IH; [assumption|]. intros nd Hin. apply Hrows. now right.
  - intros [x y] Hx Hy. apply in_map_iff in Hx. destruct Hx as (vd & [= <- <-] & _).
    apply in_arcs in Hy. destruct Hy as (nbrs' & Hin & _).
    apply Hnot. change u with (fst (u, nbrs')). unfold keys. now apply in_map.
Qed.

Lemma arcs_swap_Permutation (G : Graph) :
  well_formed G -> Permutation (arcs G) (map swap_arc (arcs G)).
Proof.
  intros (Hnd & Hrows & Hsym).
  assert (Hna : NoDup (arcs G)).
  { apply NoDup_arcs; [assumption|]. intros nd Hin. now apply Hrows. }
  apply NoDup_Permutation.
  - exact Hna.
  - apply Finite.Injective_map_NoDup; [|exact Hna].
    intros [a b] [c d]. unfold swap_arc. simpl. congruence.
  - intros [u v]. rewrite in_map_iff. split.
    + intros Hin. exists (v, u). split; [reflexivity|].
      apply in_arcs_has_edge; [assumption|]. apply Hsym.
      now apply in_arcs_has_edge.
    + intros ([a b] & [= <- <-] & Hin).
      apply in_arcs_has_edge; [assumption|]. apply Hsym.
      now apply in_arcs_has_edge.
Qed.
(** *** The value of [modularity] *)

Lemma total_degree_nonneg (G : Graph) : (0 <= total_degree G)%Z.
Proof.
  unfold total_degree. apply zsum_nonneg. intros a _.
  pose proof (arc_weight_pos a). lia.
Qed.

Lemma dict_get_Some_value (P : dict Z Z) u c :
  dict_get P u = Some c -> In c (values P).
Proof.
  intros Hg. apply dict_get_Some_In in Hg.
  change c with (snd (u, c)). unfold values. now apply in_map.
Qed.

(** On a well-formed graph a successful call of [modularity] returns
    [numerator / (2m)^2], and the partition has a community for every node
    that has a neighbour. *)
Lemma modularity_exact (G : Graph) (P : dict Z Z) (q : Q) :
  well_formed G ->
  community_louvain.modularity P G = Ok q ->
  (0 < total_degree G)%Z
  /\ q == inject_Z (numerator G P)
          * / inject_Z (total_degree G * total_degree G)
  /\ forall a, In a (arcs G) ->
       exists c, In c (py_set (values P)) /\ dict_get P (fst a) = Some c.
Proof.
  intros Hwf. pose proof Hwf as (Hnd & Hrows & Hsym).
  unfold community_louvain.modularity.
  pose proof (size_exact G Hwf) as Hsize.
  destruct (feqb (nx.size G) fzero) eqn:Elinks; [discriminate|].
  intros Hm. apply obind_Ok_inv in Hm. destruct Hm as ([inc deg] & Hfold & Hq).
  injection Hq as <-.
  apply Qeq_bool_neq in Elinks.
  assert (HL : (0 < total_degree G)%Z).
  { pose proof (total_degree_nonneg G).
    destruct (Z.eq_dec (total_degree G) 0) as [E0|]; [|lia].
    exfalso. apply Elinks. rewrite Hsize, E0. reflexivity. }
  assert (HLq : ~ inject_Z (total_degree G) == 0).
  { intros E. apply Elinks. rewrite Hsize, E. reflexivity. }
  apply modularity_nodes_exact in Hfold.
  2:{ intros nd Hin. destruct (Hrows nd Hin). repeat split; try assumption.
      now apply neighbors_of_item. }
  destruct Hfold as [Hcov Hval].
  split; [exact HL|]. split.
  - unfold community_louvain.square. q_ops.
    set (links := nx.size G) in *.
    assert (Ht : forall c,
      val inc c / links
      - val deg c / ((1 + 1) * links) * (val deg c / ((1 + 1) * links))
      == inject_Z (com_internal G P c * total_degree G
                   - com_degree G P c * com_degree G P c)
         * / inject_Z (total_degree G * total_degree G)).
    { intros c. destruct (Hval c) as [Hd Hi].
      rewrite Hd, Hi, Hsize, <- com_degree_rows, <- com_internal_rows.
      unfold val. cbv [dict_get_default dict_get].
      unfold Z.sub. rewrite inject_Z_plus, inject_Z_opp, !inject_Z_mult.
      field. exact HLq. }
    pose proof (fold_terms_exact _ _ _ (py_set (values P)) Ht 0) as Hsum.
    etransitivity; [exact Hsum|]. unfold numerator. ring.
  - intros [u v] Ha. apply in_arcs in Ha. destruct Ha as (nbrs & Hin & _).
    pose proof (Hcov (u, nbrs) Hin) as Hu. cbn [fst] in *.
    destruct (dict_get P u) as [c|] eqn:E; [|congruence].
    exists c. split; [|reflexivity].
    apply in_py_set. eapply dict_get_Some_value. exact E.
Qed.

(** The score lies in [[-1/2, 1]]; it is not positive when no two nodes
    share a community and the graph has no self-loop. *)
Lemma modularity_exact_bounds (G : Graph) (P : dict Z Z) (q : Q) :
  well_formed G ->
  community_louvain.modularity P G = Ok q ->
  (- (1 # 2) <= q /\ q <= 1)
  /\ ((forall u, nx.has_edge G u u = false) ->
      (forall u v c, dict_get P u = Some c -> dict_get P v = Some c -> u = v) ->
      q <= 0).
Proof.
  intros Hwf Hm.
  destruct (modularity_exact G P q Hwf Hm) as (HL & Hq & Hcov).
  pose proof (modularity_numerator_bounds G P (py_set (values P))
                (NoDup_py_set _) (arcs_swap_Permutation G Hwf) Hcov) as Hb.
  cbv zeta in Hb. fold (numerator G P) in Hb. destruct Hb as [Hlo Hhi].
  assert (HM : (0 < total_degree G * total_degree G)%Z) by nia.
  destruct (ratio_bounds (numerator G P) _ HM) as (Hr1 & Hr2 & Hr3).
  split; [split|].
  - rewrite Hq. apply Hr1. lia.
  - rewrite Hq. apply Hr2. lia.
  - intros Hloop Hinj. rewrite Hq. apply Hr3.
    unfold numerator.
    rewrite <- (zsum_zero (fun _ : Z => 0%Z) (py_set (values P)))
      by reflexivity.
    apply zsum_le. intros c _.
    rewrite (com_internal_singletons G P c); [nia| |].
    + intros [u v] Ha Heq. simpl in Heq. subst v.
      destruct Hwf as (Hnd & _ & _).
      apply in_arcs_has_edge in Ha; [|assumption].
      rewrite Hloop in Ha. discriminate.
    + intros [u v] c' _ Hu Hv. simpl in *. now apply (Hinj u v c').
Qed.

(** *** Loaded graphs are well formed *)

Lemma symmetric_add_edges_from es : forall G : Graph,
  symmetric G -> symmetric (nx.add_edges_from G es).
Proof.
  intros G Hs u v. rewrite !has_edge_add_edges_from.
  intros [H|[H|H]]; auto.
Qed.

Lemma well_formed_of_shape (G : Graph) :
  simple G -> unweighted G -> symmetric G -> well_formed G.
Proof.
  intros [Hnd Hk] Hu Hs. split; [exact Hnd|]. split; [|exact Hs].
  intros nd Hin. pose proof (neighbors_of_item G nd Hnd Hin) as Hn.
  split.
  - rewrite <- Hn. apply Hk.
  - intros [v a] Hv. simpl.
    apply (Hu (fst nd) v a). rewrite Hn.
    apply dict_get_In_NoDup; [|exact Hv]. rewrite <- Hn. apply Hk.
Qed.

Lemma load_graph_data_well_formed fs filepath (G : Graph) :
  load_graph_data fs filepath = Ok G -> well_formed G.
Proof.
  intros Hl. destruct (load_graph_data_shape _ _ Hl) as [Hs Hu].
  apply well_formed_of_shape; try assumption.
  apply load_graph_data_Ok in Hl. destruct Hl as (f & i & j & _ & _ & _ & ->).
  apply symmetric_add_edges_from. intros u v.
  rewrite has_edge_neighbors. unfold nx.neighbors, dict_get_default, dict_mem.
  simpl. discriminate.
Qed.
(** *** [modularity] returns a score *)

Lemma ofold_defined {A S} (body : S -> A -> outcome S) (xs : list A) :
  (forall acc x, In x xs -> exists acc', body acc x = Ok acc') ->
  forall acc, exists r, ofold body xs acc = Ok r.
Proof.
  induction xs as [|x xs IH]; intros Hstep acc; simpl.
  - now exists acc.
  - destruct (Hstep acc x (or_introl eq_refl)) as [acc' Hx]. rewrite Hx. simpl.
    apply IH. intros acc0 y Hy. apply Hstep. now right.
Qed.

Lemma has_edge_node (G : Graph) u v :
  nx.has_edge G u v = true -> In u (nx.nodes G).
Proof.
  unfold nx.has_edge. destruct (dict_get G u) eqn:E; [|discriminate].
  intros _. eapply dict_get_Some_key. exact E.
Qed.

(** With at least one edge and a community for every node, [modularity]
    raises nothing. *)
Lemma modularity_defined (G : Graph) (P : dict Z Z) :
  well_formed G ->
  (0 < total_degree G)%Z ->
  (forall n, In n (nx.nodes G) -> dict_get P n <> None) ->
  exists q, community_louvain.modularity P G = Ok q.
Proof.
  intros Hwf HL Hcov. pose proof Hwf as (Hnd & Hrows & Hsym).
  unfold community_louvain.modularity.
  assert (Elinks : feqb (nx.size G) fzero = false).
  { q_ops. destruct (Qeq_bool (nx.size G) 0) eqn:E; [|reflexivity].
    apply Qeq_bool_iff in E. rewrite (size_exact G Hwf) in E.
    exfalso. unfold Qeq, Qdiv, Qmult, Qinv, inject_Z in E.
    cbn [Qnum Qden] in E. lia. }
  rewrite Elinks.
  destruct (ofold_defined (community_louvain.modularity_node P G) G) with (acc := (@nil (Z * Q), @nil (Z * Q)))
    as [[inc deg] Hr].
  - intros [inc deg] [u nbrs] Hin. unfold community_louvain.modularity_node.
    assert (Hu : In u (nx.nodes G)).
    { change u with (fst (u, nbrs)). unfold nx.nodes, keys. now apply in_map. }
    unfold dict_item at 1.
    destruct (dict_get P u) as [com|] eqn:Eu; [|now apply Hcov in Hu].
    cbn [obind].
    destruct (ofold_defined (community_louvain.modularity_neighbor P u com) nbrs)
      with (acc := inc) as [inc' Hinc].
    + intros inc0 [v a] Hv. unfold community_louvain.modularity_neighbor.
      assert (Hvn : In v (nx.nodes G)).
      { apply (has_edge_node G v u). apply Hsym.
        apply in_arcs_has_edge; [assumption|]. apply in_arcs.
        exists nbrs. split; [assumption|].
        change v with (fst (v, a)). unfold keys. now apply in_map. }
      unfold dict_item.
      destruct (dict_get P v) as [ncom|] eqn:Ev; [|now apply Hcov in Hvn].
      cbn [obind]. destruct (ncom =? com)%Z; [destruct (v =? u)%Z|]; eauto.
    + rewrite Hinc. cbn [obind]. eauto.
  - rewrite Hr. cbn [obind]. eauto.
Qed.
End ExactModularity.

(** ** The score and the bounds of the formula *)

(** Two scores the code returns, in binary64.  For the graph of one trip
    and the partition that separates its two stations [modularity] returns
    exactly -0.5, which is not above -0.5.  For the graph of a round trip
    and a trip, which the loader builds, one node per community scores
    0.125, which is above 0. *)
Example scores_at_small_graphs :
  (exists G : nx.Graph float,
     load_graph_data (disk one_trip) DATA_PATH = Ok G
     /\ community_louvain.modularity [(1, 0); (2, 1)] G = Ok (-0.5)%float
     /\ PrimFloat.ltb (-0.5)%float (-0.5)%float = false)
  /\ (exists G : nx.Graph float,
        load_graph_data (disk loop_and_trip) DATA_PATH = Ok G
        /\ community_louvain.modularity [(1, 0); (2, 1); (3, 2)] G
           = Ok 0.125%float
        /\ PrimFloat.leb 0.125%float 0%float = false).
Proof.
  split; eexists; (split; [vm_compute; reflexivity|]);
    split; vm_compute; reflexivity.
Qed.

(** The value of the formula, read over exact rationals.  For every graph
    as the loader builds them (unit weights, self-loops allowed) with at
    least one edge and every partition that gives each node a community,
    it lies in the closed interval [-1/2, 1]; when the graph has no
    self-loop and no two nodes share a community it is at most 0.  This
    bounds the number the formula denotes, not the binary64 number the
    code returns, which carries the rounding of every operation. *)
Lemma exact_score_bounds :
  forall (G : nx.Graph Q) (P : dict Z Z),
    well_formed G ->
    (0 < total_degree G)%Z ->
    (forall n, In n (nx.nodes G) -> dict_get P n <> None) ->
    exists q : Q,
      community_louvain.modularity P G = Ok q
      /\ (- (1 # 2) <= q)%Q /\ (q <= 1)%Q
      /\ ((forall u, nx.has_edge G u u = false) ->
          (forall u v c, dict_get P u = Some c -> dict_get P v = Some c -> u = v) ->
          (q <= 0)%Q).
Proof.
  intros G P Hwf HL Hcov.
  destruct (modularity_defined G P Hwf HL Hcov) as [q Hq].
  exists q. split; [exact Hq|].
  destruct (modularity_exact_bounds G P q Hwf Hq) as [[Hlo Hhi] Hsingle].
  repeat split; assumption.
Qed.

(** The lower bound is attained: one trip, its two stations apart. *)
Example one_trip_exact_score :
  load_graph_data (disk one_trip) DATA_PATH = Ok one_trip_graph
  /\ exists q : Q,
       community_louvain.modularity [(1, 0); (2, 1)] one_trip_graph = Ok q
       /\ (q == - (1 # 2))%Q.
Proof.
  split; [vm_compute; reflexivity|].
  eexists. split; [vm_compute; reflexivity|]. reflexivity.
Qed.

(** * Further properties of the service *)

(** ** More on running monadic code *)

Lemma bind_Raise_inv {A B} (c : M A) (k : A -> M B) w e w' :
  bind c k w = (Raise e, w') ->
  c w = (Raise e, w')
  \/ exists a w1, c w = (Ok a, w1) /\ k a w1 = (Raise e, w').
Proof.
  unfold bind. destruct (c w) as [[a|e0|] w1]; intros Hb.
  - right. now exists a, w1.
  - left. injection Hb as <- <-. reflexivity.
  - discriminate.
Qed.

Lemma try_except_Raise_inv {A} (c : M A) (h : exn -> M A) w e w' :
  try_except c h w = (Raise e, w') ->
  exists e0 w1, c w = (Raise e0, w1) /\ h e0 w1 = (Raise e, w').
Proof.
  unfold try_except. destruct (c w) as [[a|e0|] w1]; intros Ht;
    try discriminate.
  now exists e0, w1.
Qed.

(** ** More on graph construction *)

Lemma dict_set_same {K V} `{EqDec K} (d : dict K V) k v :
  dict_get d k = Some v -> dict_set d k v = d.
Proof.
  induction d as [|[k' v'] d IH]; simpl; [discriminate|].
  destruct (eq_dec k k') as [->|Hne].
  - now intros [= ->].
  - intros Hg. now rewrite IH.
Qed.

Section MoreGraphFacts.
Context {F : Type} `{Num F}.
Local Abbreviation Graph := (nx.Graph F).
Implicit Types (G : Graph) (u v x y n : Z).

Lemma add_node_present G n : In n (nx.nodes G) -> nx.add_node G n = G.
Proof.
  intros Hin. unfold nx.add_node.
  apply dict_mem_true in Hin. unfold nx.nodes in Hin. now rewrite Hin.
Qed.

Lemma neighbors_Some G u nbrs :
  dict_get G u = Some nbrs -> nx.neighbors G u = nbrs.
Proof. intros Hg. unfold nx.neighbors, dict_get_default. now rewrite Hg. Qed.

Lemma has_edge_source G u v : nx.has_edge G u v = true -> In u (nx.nodes G).
Proof.
  unfold nx.has_edge. destruct (dict_get G u) eqn:E; [|discriminate].
  intros _. eapply dict_get_Some_key. exact E.
Qed.

Lemma dict_set_neighbors G u : In u (nx.nodes G) -> dict_set G u (nx.neighbors G u) = G.
Proof.
  intros Hin. apply dict_set_same.
  destruct (dict_get G u) as [nbrs|] eqn:E.
  - now rewrite (neighbors_Some _ _ _ E).
  - apply dict_get_None in E. contradiction.
Qed.

(** Adding an edge that is already there, to a graph without weights,
    changes nothing. *)
Lemma add_edge_again G u v :
  unweighted G -> nx.has_edge G u v = true -> nx.has_edge G v u = true ->
  nx.add_edge G u v None = G.
Proof.
  intros Hu Huv Hvu.
  pose proof (has_edge_source _ _ _ Huv) as Hin_u.
  pose proof (has_edge_source _ _ _ Hvu) as Hin_v.
  unfold nx.add_edge. cbv zeta.
  rewrite (add_node_present _ _ Hin_u), (add_node_present _ _ Hin_v).
  rewrite (unweighted_get_default _ _ Hu). cbn [nx.attrs_update].
  rewrite (dict_set_same _ _ _ (has_edge_unweighted _ _ Hu Huv)).
  rewrite (dict_set_neighbors _ _ Hin_u).
  rewrite (dict_set_same _ _ _ (has_edge_unweighted _ _ Hu Hvu)).
  apply dict_set_neighbors, Hin_v.
Qed.

Lemma symmetric_edges_from es : forall G,
  symmetric G -> symmetric (nx.add_edges_from G es).
Proof.
  intros G Hs u v. rewrite !has_edge_add_edges_from.
  intros [Hg|[He|He]]; auto.
Qed.

Lemma symmetric_empty : symmetric (F:=F) nx.empty_graph.
Proof. intros u v. cbv. discriminate. Qed.

Lemma closed_of_symmetric G : symmetric G -> closed G.
Proof.
  intros Hs u v Huv. apply (has_edge_source G v u). now apply Hs.
Qed.

Lemma nodes_add_edge G u v a :
  nx.nodes (nx.add_edge G u v a) = nx.nodes (nx.add_node (nx.add_node G u) v).
Proof.
  unfold nx.add_edge. cbv zeta. unfold nx.nodes.
  rewrite keys_dict_set_present.
  - rewrite keys_dict_set_present; [reflexivity|].
    fold (nx.nodes (nx.add_node (nx.add_node G u) v)).
    rewrite !in_nodes_add_node. tauto.
  - rewrite in_keys_dict_set.
    fold (nx.nodes (nx.add_node (nx.add_node G u) v)).
    rewrite !in_nodes_add_node. tauto.
Qed.

Lemma length_nodes_add_node G n :
  (List.length (nx.nodes (nx.add_node G n)) <= S (List.length (nx.nodes G)))%nat.
Proof.
  unfold nx.add_node, nx.nodes. destruct (dict_mem G n).
  - lia.
  - rewrite keys_app, length_app. simpl. lia.
Qed.

Lemma length_nodes_add_edges_from es : forall G,
  (List.length (nx.nodes (nx.add_edges_from G es))
   <= List.length (nx.nodes G) + 2 * List.length es)%nat.
Proof.
  unfold nx.add_edges_from.
  induction es as [|[u v] es IH]; intros G; simpl fold_left.
  - simpl. lia.
  - etransitivity; [apply IH|]. cbn [fst snd List.length].
    rewrite nodes_add_edge.
    pose proof (length_nodes_add_node (nx.add_node G u) v).
    pose proof (length_nodes_add_node G u). lia.
Qed.

(** Every node took part in an edge. *)
Lemma no_isolated_add_edges_from es : forall G,
  (forall x, In x (nx.nodes G) -> exists y, nx.has_edge G x y = true) ->
  forall x, In x (nx.nodes (nx.add_edges_from G es)) ->
    exists y, nx.has_edge (nx.add_edges_from G es) x y = true.
Proof.
  intros G HG x Hx. apply in_nodes_add_edges_from in Hx.
  destruct Hx as [Hx|([u v] & He & [->| ->])].
  - destruct (HG x Hx) as [y Hy]. exists y.
    apply has_edge_add_edges_from. now left.
  - exists v. apply has_edge_add_edges_from. right. now left.
  - exists u. apply has_edge_add_edges_from. right. now right.
Qed.

Lemma neighbors_item G x nbrs :
  NoDup (nx.nodes G) -> In (x, nbrs) G -> nx.neighbors G x = nbrs.
Proof.
  intros Hnd Hin. apply neighbors_Some. now apply dict_get_In_NoDup.
Qed.

(** A graph whose nodes all have a neighbour has an edge as soon as it has
    a node. *)
Lemma number_of_edges_pos G :
  NoDup (nx.nodes G) -> symmetric G ->
  (forall x, In x (nx.nodes G) -> exists y, nx.has_edge G x y = true) ->
  G <> [] -> (1 <= nx.number_of_edges G)%nat.
Proof.
  intros Hnd Hsym Hiso Hne. unfold nx.number_of_edges.
  assert (Hrow : forall x nbrs, In (x, nbrs) G ->
            (1 <= nx.degree_count x nbrs)%nat).
  { intros x nbrs Hin.
    assert (Hx : In x (nx.nodes G)).
    { change x with (fst (x, nbrs)). unfold nx.nodes, keys. now apply in_map. }
    destruct (Hiso x Hx) as [y Hy].
    rewrite has_edge_neighbors, (neighbors_item _ _ _ Hnd Hin) in Hy.
    unfold nx.degree_count. destruct nbrs; [discriminate|]. simpl. lia. }
  apply Nat.div_le_lower_bound; [discriminate|].
  destruct G as [|[n nbrs] G']; [congruence|]. cbn [map list_sum fst snd].
  destruct G' as [|[n' nbrs'] G''].
  - assert (Hn : In n (nx.nodes [(n, nbrs)])) by now left.
    destruct (Hiso n Hn) as [y Hy].
    pose proof (has_edge_source _ _ _ (Hsym _ _ Hy)) as Hyn.
    simpl in Hyn. destruct Hyn as [<-|[]].
    rewrite has_edge_neighbors in Hy.
    rewrite (neighbors_item _ _ _ Hnd (or_introl eq_refl)) in Hy.
    unfold nx.degree_count. rewrite Hy.
    destruct nbrs; [discriminate|]. simpl. lia.
  - pose proof (Hrow n nbrs (or_introl eq_refl)).
    pose proof (Hrow n' nbrs' (or_intror (or_introl eq_refl))).
    cbn [map list_sum fst snd]. simpl list_sum. lia.
Qed.

(** An edge listed again, in either direction, can be dropped from the
    list. *)
Lemma add_edges_from_repeat (before after : list (Z * Z)) u v G :
  unweighted G ->
  In (u, v) before \/ In (v, u) before ->
  nx.add_edges_from G (before ++ (u, v) :: after)
  = nx.add_edges_from G (before ++ after).
Proof.
  intros Hu Hin. unfold nx.add_edges_from. rewrite !fold_left_app.
  cbn [fold_left fst snd]. f_equal.
  fold (nx.add_edges_from G before).
  apply add_edge_again.
  - now apply unweighted_add_edges_from.
  - apply has_edge_add_edges_from. tauto.
  - apply has_edge_add_edges_from. tauto.
Qed.

End MoreGraphFacts.

(** ** More on loading the graph *)

Section MoreLoadFacts.
Context {F : Type} `{Num F}.
Local Abbreviation Graph := (nx.Graph F).

(** The graph of a file that has the two columns and whose first 1000
    records are well laid out *)
Lemma load_graph_data_returns fs filepath f i j :
  fs filepath = Some f ->
  pd.index_of "departure_id" (pd.header f) = Some i ->
  pd.index_of "return_id" (pd.header f) = Some j ->
  forallb (pd.record_fits (List.length (pd.header f))) (firstn 1000 (pd.body f))
  = true ->
  load_graph_data (F:=F) fs filepath
  = Ok (nx.add_edges_from nx.empty_graph
          (map (endpoints i j) (firstn 1000 (pd.body f)))).
Proof.
  intros Ef Ei Ej Hfit. unfold load_graph_data, pd.read_csv. rewrite Ef.
  remember (firstn 1000 (pd.body f)) as rows eqn:Erows.
  destruct (pd.header f) as [|c cs] eqn:Eh; [discriminate|].
  rewrite Hfit.
  unfold nx.from_pandas_edgelist, pd.column, pd.has_column, required_columns.
  cbn [obind pd.columns pd.data forallb]. rewrite Ei, Ej.
  cbn [obind negb andb pd.data]. now rewrite combine_map_map.
Qed.


(** The stations and the connections of a loaded graph *)
Lemma in_loaded_nodes (rows : list (list Z)) i j x :
  In x (nx.nodes (nx.add_edges_from (F:=F) nx.empty_graph
                    (map (endpoints i j) rows)))
  <-> exists r, In r rows /\ (x = nth i r 0 \/ x = nth j r 0).
Proof.
  rewrite in_nodes_add_edges_from. split.
  - intros [[]|(e & He & Hx)]. apply in_map_iff in He.
    destruct He as (r & <- & Hr). now exists r.
  - intros (r & Hr & Hx). right. exists (endpoints i j r).
    split; [now apply in_map|exact Hx].
Qed.

Lemma loaded_has_edge (rows : list (list Z)) i j u v :
  nx.has_edge (nx.add_edges_from (F:=F) nx.empty_graph
                 (map (endpoints i j) rows)) u v = true
  <-> exists r, In r rows
        /\ ((u = nth i r 0 /\ v = nth j r 0)
            \/ (u = nth j r 0 /\ v = nth i r 0)).
Proof.
  rewrite has_edge_add_edges_from. split.
  - intros [Hg|[He|He]]; [cbv in Hg; discriminate| |];
      apply in_map_iff in He; destruct He as (r & [= <- <-] & Hr);
      exists r; auto.
  - intros (r & Hr & [[-> ->]|[-> ->]]); right; [left|right];
      apply in_map_iff; exists r; auto.
Qed.

(** Every station of a loaded graph took part in a trip. *)
Lemma loaded_no_isolated fs filepath (G : Graph) :
  load_graph_data fs filepath = Ok G ->
  forall x, In x (nx.nodes G) -> exists y, nx.has_edge G x y = true.
Proof.
  intros Hl. apply load_graph_data_Ok in Hl.
  destruct Hl as (f & i & j & _ & _ & _ & ->).
  apply no_isolated_add_edges_from. intros x [].
Qed.

End MoreLoadFacts.

(** ** The optimizer's partition fits what reads it *)

Section PartitionUse.
Context {F : Type} `{Num F}.
Local Abbreviation Graph := (nx.Graph F).

Lemma row_has_edge (G : Graph) u nbrs v a :
  NoDup (nx.nodes G) -> In (u, nbrs) G -> In (v, a) nbrs ->
  nx.has_edge G u v = true.
Proof.
  intros Hnd Hu Hv.
  rewrite has_edge_neighbors, (neighbors_item _ _ _ Hnd Hu).
  apply dict_mem_true. change v with (fst (v, a)). unfold keys.
  now apply in_map.
Qed.

(** With a community for every node, the only exception [modularity] can
    raise is the one for a graph without links. *)
Lemma modularity_covered (G : Graph) (P : dict Z Z) :
  NoDup (nx.nodes G) -> closed G ->
  (forall n, In n (nx.nodes G) -> dict_get P n <> None) ->
  (exists q, community_louvain.modularity P G = Ok q)
  \/ community_louvain.modularity P G = Raise community_louvain.no_link.
Proof.
  intros Hnd Hsym Hcov. unfold community_louvain.modularity.
  destruct (feqb (nx.size G) fzero); [now right|left].
  destruct (ofold_defined (community_louvain.modularity_node P G) G)
    with (acc := (@nil (Z * F), @nil (Z * F))) as [[inc deg] Hr].
  - intros [inc deg] [u nbrs] Hin. unfold community_louvain.modularity_node.
    assert (Hu : In u (nx.nodes G)).
    { change u with (fst (u, nbrs)). unfold nx.nodes, keys. now apply in_map. }
    unfold dict_item at 1.
    destruct (dict_get P u) as [com|] eqn:Eu; [|now apply Hcov in Hu].
    cbn [obind].
    destruct (ofold_defined (community_louvain.modularity_neighbor P u com) nbrs)
      with (acc := inc) as [inc' Hinc].
    + intros inc0 [v a] Hv. unfold community_louvain.modularity_neighbor.
      assert (Hvn : In v (nx.nodes G)).
      { apply (Hsym u v). now apply (row_has_edge G u nbrs v a). }
      unfold dict_item.
      destruct (dict_get P v) as [ncom|] eqn:Ev; [|now apply Hcov in Hvn].
      cbn [obind]. destruct (ncom =? com)%Z; [destruct (v =? u)%Z|]; eauto.
    + rewrite Hinc. cbn [obind]. eauto.
  - rewrite Hr. cbn [obind]. eauto.
Qed.

Lemma covered_by_keys (P : dict Z Z) (ns : list Z) :
  keys P = ns -> forall n, In n ns -> dict_get P n <> None.
Proof.
  intros <- n Hn E. apply dict_get_None in E. contradiction.
Qed.

End PartitionUse.

(** ** What is drawn *)

Lemma members_app (P P' : dict Z Z) c :
  members (P ++ P') c = members P c ++ members P' c.
Proof. unfold members. now rewrite filter_app, map_app. Qed.

Lemma members_nonempty (P : dict Z Z) c :
  members P c <> [] <-> In c (values P).
Proof.
  unfold members, values. induction P as [|[n c'] P IH]; simpl.
  - tauto.
  - destruct (c' =? c) eqn:E.
    + apply Z.eqb_eq in E. simpl. split; [auto|discriminate].
    + apply Z.eqb_neq in E. rewrite IH. intuition congruence.
Qed.

Lemma values_of_keys (P : dict Z Z) :
  NoDup (keys P) -> map (fun n => dict_get_default P n 0) (keys P) = values P.
Proof.
  unfold keys, values, dict_get_default.
  induction P as [|[k v] P IH]; intros Hnd; [reflexivity|].
  inversion Hnd as [|? ? Hk Hnd']; subst. cbn [map fst snd dict_get].
  destruct (eq_dec k k) as [_|Hne]; [|congruence]. f_equal.
  rewrite <- (IH Hnd'). apply map_ext_in. intros n Hn.
  destruct (eq_dec n k) as [->|_]; [contradiction|reflexivity].
Qed.

Section Drawing.
Context {F : Type} `{Num F}.
Local Abbreviation Graph := (nx.Graph F).
Variable spring_layout : Graph -> layout F.
Variable np_mean : list F -> F.

Lemma node_colors_fold (P : dict Z Z) : forall (ns : list Z) (acc : list Z),
  (forall n, In n ns -> dict_get P n <> None) ->
  ofold (fun colors node => c <-? dict_item P node ;; Ok (colors ++ [c])) ns acc
  = Ok (acc ++ map (fun n => dict_get_default P n 0) ns).
Proof.
  induction ns as [|n ns IH]; intros acc Hcov; simpl.
  - now rewrite app_nil_r.
  - unfold dict_item, dict_get_default.
    destruct (dict_get P n) as [c|] eqn:E;
      [|now destruct (Hcov n (or_introl eq_refl))].
    cbn [obind]. rewrite IH by (intros m Hm; apply Hcov; now right).
    now rewrite <- app_assoc.
Qed.

(** The colour list is the list of the partition's values. *)
Lemma node_colors_values (P : dict Z Z) (G : Graph) :
  NoDup (nx.nodes G) -> keys P = nx.nodes G ->
  node_colors P G = Ok (values P).
Proof.
  intros Hnd Hk. unfold node_colors.
  rewrite node_colors_fold by (now apply covered_by_keys).
  rewrite <- Hk. rewrite values_of_keys by (now rewrite Hk). reflexivity.
Qed.

(** What the dictionary of centres holds once the nodes in [done] have been
    filed *)
Lemma community_centers_fold (pos : layout F) :
  forall (rest done : dict Z Z) (centers r : dict Z (list F * list F)),
    NoDup (keys centers) ->
    (forall c, dict_get centers c =
               match members done c with
               | [] => None
               | ms => Some (coordinates pos ms)
               end) ->
    ofold (fun centers (nc : Z * Z) =>
             let '(node, comm_id) := nc in
             let centers :=
               if dict_mem centers comm_id then centers
               else dict_set centers comm_id ([], []) in
             p <-? dict_item pos node ;;
             let coords := dict_get_default centers comm_id ([], []) in
             Ok (dict_set centers comm_id
                   (fst coords ++ [fst p], snd coords ++ [snd p])))
          rest centers = Ok r ->
    NoDup (keys r)
    /\ forall c, dict_get r c =
                 match members (done ++ rest) c with
                 | [] => None
                 | ms => Some (coordinates pos ms)
                 end.
Proof.
  induction rest as [|[n c] rest IH]; intros done centers r Hnd Hget; simpl.
  - intros [= <-]. now rewrite app_nil_r.
  - unfold dict_item. destruct (dict_get pos n) as [p|] eqn:Ep; [|discriminate].
    cbn [obind]. intros Hr.
    replace (done ++ (n, c) :: rest) with ((done ++ [(n, c)]) ++ rest)
      by now rewrite <- app_assoc.
    eapply IH; [| |exact Hr].
    + destruct (dict_mem centers c); repeat apply NoDup_keys_dict_set;
        assumption.
    + intros c'. rewrite members_app. unfold members at 2. cbn [filter snd].
      assert (Hp : position pos n = p).
      { unfold position, dict_get_default. now rewrite Ep. }
      rewrite dict_get_set. destruct (eq_dec c c') as [<-|Hne].
      * rewrite Z.eqb_refl. cbn [map fst].
        assert (Hc : dict_get_default
                       (if dict_mem centers c then centers
                        else dict_set centers c ([], [])) c ([], [])
                     = coordinates pos (members done c)).
        { pose proof (Hget c) as Hgc. unfold dict_mem, dict_get_default.
          destruct (members done c) as [|m ms]; rewrite Hgc.
          - now rewrite dict_get_set_eq.
          - now rewrite Hgc. }
        rewrite Hc. unfold coordinates. cbn [fst snd].
        destruct (members done c) as [|m ms]; cbn [app map];
          rewrite ?map_app; cbn [map]; rewrite Hp; reflexivity.
      * apply Z.eqb_neq in Hne. rewrite Hne. cbn [map]. rewrite app_nil_r.
        destruct (dict_mem centers c); [apply Hget|].
        rewrite dict_get_set_ne; [apply Hget|].
        apply Z.eqb_neq in Hne. exact Hne.
Qed.

Lemma community_centers_Ok (P : dict Z Z) (pos : layout F) centers :
  community_centers P pos = Ok centers ->
  NoDup (keys centers)
  /\ forall c, dict_get centers c =
               match members P c with
               | [] => None
               | ms => Some (coordinates pos ms)
               end.
Proof.
  intros Hc. apply (community_centers_fold pos P [] [] centers).
  - constructor.
  - reflexivity.
  - exact Hc.
Qed.

Lemma in_keys_centers (P : dict Z Z) (pos : layout F) centers :
  community_centers P pos = Ok centers ->
  forall c, In c (keys centers) <-> In c (values P).
Proof.
  intros Hc c. destruct (community_centers_Ok _ _ _ Hc) as [_ Hget].
  rewrite <- members_nonempty. specialize (Hget c). split.
  - intros Hin E. rewrite E in Hget. apply dict_get_None in Hget.
    contradiction.
  - intros Hne. destruct (dict_get centers c) eqn:E.
    + eapply dict_get_Some_key. exact E.
    + destruct (members P c); [congruence|discriminate].
Qed.

(** A layout with a position for every node of the partition lets the loop
    run to its end. *)
Lemma community_centers_defined (P : dict Z Z) (pos : layout F) :
  (forall n, In n (keys P) -> dict_get pos n <> None) ->
  exists centers, community_centers P pos = Ok centers.
Proof.
  intros Hcov. unfold community_centers. apply ofold_defined.
  intros acc [n c] Hin. unfold dict_item.
  assert (Hn : In n (keys P)).
  { change n with (fst (n, c)). unfold keys. now apply in_map. }
  destruct (dict_get pos n) eqn:E; [|now apply Hcov in Hn].
  cbn [obind]. eauto.
Qed.

Lemma generate_graph_image_Ok fuel (G : Graph) w img w' :
  generate_graph_image spring_layout np_mean fuel G w = (Ok img, w') ->
  exists P colors centers,
    community_louvain.best_partition fuel G w = (Ok P, w')
    /\ node_colors P G = Ok colors
    /\ community_centers P (spring_layout G) = Ok centers
    /\ img = [plt_figure;
              draw_networkx_edges G (spring_layout G);
              draw_networkx_nodes G (spring_layout G) colors]
             ++ map (community_label np_mean) centers
             ++ [plt_title ("Bike Sharing Network - "
                              ++ str (Z.of_nat (List.length (py_set (values P))))
                              ++ " Communities Detected");
                 plt_text_axes
                   ("Total Nodes: "
                    ++ str (Z.of_nat (List.length (nx.nodes G)))
                    ++ newline ++ "Total Communities: "
                    ++ str (Z.of_nat (List.length (py_set (values P)))));
                 plt_axis_off;
                 plt_tight_layout;
                 plt_savefig;
                 plt_close].
Proof.
  unfold generate_graph_image. intros Hg.
  apply bind_Ok_inv in Hg. destruct Hg as (P & w1 & Hb & Hg).
  apply bind_Ok_inv in Hg. destruct Hg as (colors & w2 & Hc & Hg).
  apply lift_Ok_inv in Hc. destruct Hc as [Hc ->].
  apply bind_Ok_inv in Hg. destruct Hg as (centers & w3 & Hcc & Hg).
  apply lift_Ok_inv in Hcc. destruct Hcc as [Hcc ->].
  apply ret_Ok_inv in Hg. destruct Hg as [-> ->].
  exists P, colors, centers. repeat split; assumption.
Qed.

(** With a position for every node, rendering goes through once the
    optimizer has returned. *)
Lemma generate_graph_image_returns fuel (G : Graph) w P w' :
  NoDup (nx.nodes G) ->
  (forall n, In n (nx.nodes G) -> dict_get (spring_layout G) n <> None) ->
  community_louvain.best_partition fuel G w = (Ok P, w') ->
  exists centers,
    community_centers P (spring_layout G) = Ok centers
    /\ generate_graph_image spring_layout np_mean fuel G w
       = (Ok ([plt_figure;
               draw_networkx_edges G (spring_layout G);
               draw_networkx_nodes G (spring_layout G) (values P)]
              ++ map (community_label np_mean) centers
              ++ [plt_title ("Bike Sharing Network - "
                             ++ str (Z.of_nat (List.length (py_set (values P))))
                             ++ " Communities Detected");
                  plt_text_axes
                    ("Total Nodes: "
                     ++ str (Z.of_nat (List.length (nx.nodes G)))
                     ++ newline ++ "Total Communities: "
                     ++ str (Z.of_nat (List.length (py_set (values P)))));
                  plt_axis_off;
                  plt_tight_layout;
                  plt_savefig;
                  plt_close]), w').
Proof.
  intros Hnd Hpos Hb.
  pose proof (best_partition_keys fuel G w P w' Hnd Hb) as Hk.
  destruct (community_centers_defined P (spring_layout G)) as [centers Hc].
  { now rewrite Hk. }
  exists centers. split; [exact Hc|].
  unfold generate_graph_image, bind. rewrite Hb. unfold lift.
  rewrite (node_colors_values P G Hnd Hk), Hc. reflexivity.
Qed.

Lemma length_centers (P : dict Z Z) (pos : layout F) centers :
  community_centers P pos = Ok centers ->
  List.length centers = List.length (py_set (values P)).
Proof.
  intros Hc.
  replace (List.length centers) with (List.length (keys centers))
    by (unfold keys; apply length_map).
  symmetry. apply length_py_set.
  - now destruct (community_centers_Ok _ _ _ Hc).
  - now apply in_keys_centers with (pos := pos).
Qed.

End Drawing.

(** ** The endpoints and the life of the graph *)

Section ServiceFacts.
Context {F : Type} `{Num F}.
Local Abbreviation Graph := (nx.Graph F).

Lemma state_get_G_startup fs (state : graph_state F) :
  state_get_G (lifespan_startup fs state) =
  match load_graph_data fs DATA_PATH with
  | Ok G => Some G
  | _ => None
  end.
Proof.
  unfold lifespan_startup, state_get_G.
  destruct (load_graph_data fs DATA_PATH); now rewrite dict_get_set_eq.
Qed.

Lemma analyze_network_Raise fuel (state : graph_state F) w e w' :
  analyze_network fuel state w = (Raise e, w') ->
  (state_get_G state = None /\ e = unavailable /\ w' = w)
  \/ exists G e0,
       state_get_G state = Some G
       /\ detect_communities fuel (Some G) w = (Raise e0, w')
       /\ e = mk_exn (HTTPException 500) (message e0).
Proof.
  unfold analyze_network. destruct (state_get_G state) as [G|].
  - intros Ha. right. apply try_except_Raise_inv in Ha.
    destruct Ha as (e0 & w1 & Hc & Hh). exists G, e0. split; [reflexivity|].
    unfold raise, lift in Hh. injection Hh as <- <-.
    apply bind_Raise_inv in Hc. destruct Hc as [Hc|(r & w2 & _ & Hc)].
    + now split.
    + discriminate.
  - intros Ha. left. unfold raise, lift in Ha. injection Ha as <- <-.
    now repeat split.
Qed.

(** The branch of [best_partition] for a graph without edges: no step of
    the optimizer, no random draw. *)
Lemma best_partition_edgeless fuel (g : Graph) w :
  nx.number_of_edges g = 0%nat ->
  community_louvain.best_partition fuel g w
  = (Ok (community_louvain.enumerate_nodes (nx.nodes g)),
     {| random_state := random_state w;
        trace := trace w ++ [Call_best_partition] |}).
Proof.
  intros He. unfold community_louvain.best_partition,
    community_louvain.generate_dendrogram, bind, log.
  rewrite He. reflexivity.
Qed.

Lemma number_of_edges_edgeless (g : Graph) :
  edgeless g -> nx.number_of_edges g = 0%nat.
Proof.
  intros He. unfold nx.number_of_edges.
  assert (Hs : list_sum (map (fun nd => nx.degree_count (fst nd) (snd nd)) g)
               = 0%nat).
  { induction g as [|[n nbrs] g IH]; [reflexivity|].
    change (nx.degree_count n nbrs
            + list_sum (map (fun nd => nx.degree_count (fst nd) (snd nd)) g)
            = 0)%nat.
    rewrite IH; [|intros nd Hnd; apply He; now right].
    pose proof (He (n, nbrs) (or_introl eq_refl)) as Hn. simpl in Hn.
    subst nbrs. reflexivity. }
  now rewrite Hs.
Qed.

Lemma size_edgeless (g : Graph) :
  fadd fzero fzero = fzero -> fdiv fzero ftwo = fzero ->
  edgeless g -> nx.size g = fzero.
Proof.
  intros Hadd Hdiv He. unfold nx.size, nx.fsum.
  assert (Hs : fold_left fadd
                 (map (fun nd => nx.degree_of (fst nd) (snd nd)) g) fzero
               = fzero).
  { induction g as [|[n nbrs] g IH]; [reflexivity|].
    cbn [map fold_left fst snd].
    pose proof (He (n, nbrs) (or_introl eq_refl)) as Hn. simpl in Hn.
    subst nbrs. cbv [nx.degree_of values map nx.fsum fold_left dict_get].
    rewrite Hadd. apply IH. intros nd Hnd. apply He. now right. }
  now rewrite Hs.
Qed.

Lemma detect_communities_edgeless fuel (g : Graph) w :
  fadd fzero fzero = fzero -> fdiv fzero ftwo = fzero ->
  feqb fzero fzero = true ->
  g <> [] -> edgeless g ->
  detect_communities fuel (Some g) w
  = (Raise community_louvain.no_link,
     {| random_state := random_state w;
        trace := trace w ++ [Call_best_partition] |}).
Proof.
  intros Hadd Hdiv Heq Hne He.
  rewrite detect_communities_nonempty.
  2:{ destruct g; [congruence|discriminate]. }
  unfold bind.
  rewrite (best_partition_edgeless _ _ _ (number_of_edges_edgeless _ He)).
  unfold lift, community_louvain.modularity.
  now rewrite (size_edgeless _ Hadd Hdiv He), Heq.
Qed.

Lemma analyze_network_no_graph fuel (state : graph_state F) w :
  state_get_G state = None ->
  analyze_network fuel state w = (Raise unavailable, w).
Proof. intros Hs. unfold analyze_network. now rewrite Hs. Qed.

Lemma length_py_set_le xs : (List.length (py_set xs) <= List.length xs)%nat.
Proof.
  apply NoDup_incl_length; [apply NoDup_py_set|].
  intros x Hx. now apply in_py_set.
Qed.

Lemma length_py_set_pos xs : xs <> [] -> (1 <= List.length (py_set xs))%nat.
Proof.
  destruct xs as [|x xs]; [congruence|]. intros _.
  assert (Hx : In x (py_set (x :: xs))) by (apply in_py_set; now left).
  destruct (py_set (x :: xs)); [contradiction|]. simpl. lia.
Qed.

Lemma visualize_network_no_graph sl mean fuel (state : graph_state F) w :
  state_get_G state = None ->
  visualize_network sl mean fuel state w = (Raise unavailable, w).
Proof. intros Hs. unfold visualize_network. now rewrite Hs. Qed.

Lemma visualize_network_Raise sl mean fuel (state : graph_state F) w e w' :
  visualize_network sl mean fuel state w = (Raise e, w') ->
  (state_get_G state = None /\ e = unavailable /\ w' = w)
  \/ exists G e0,
       state_get_G state = Some G
       /\ generate_graph_image sl mean fuel G w = (Raise e0, w')
       /\ e = mk_exn (HTTPException 500) (message e0).
Proof.
  unfold visualize_network. destruct (state_get_G state) as [G|].
  - intros Ha. right. apply try_except_Raise_inv in Ha.
    destruct Ha as (e0 & w1 & Hc & Hh). exists G, e0. split; [reflexivity|].
    unfold raise, lift in Hh. injection Hh as <- <-.
    apply bind_Raise_inv in Hc. destruct Hc as [Hc|(r & w2 & _ & Hc)].
    + now split.
    + discriminate.
  - intros Ha. left. unfold raise, lift in Ha. injection Ha as <- <-.
    now repeat split.
Qed.

Lemma visualize_network_Ok sl mean fuel (state : graph_state F) w resp w' :
  visualize_network sl mean fuel state w = (Ok resp, w') ->
  exists G,
    state_get_G state = Some G
    /\ generate_graph_image sl mean fuel G w = (Ok (content resp), w')
    /\ media_type resp = "image/png".
Proof.
  unfold visualize_network. destruct (state_get_G state) as [G|];
    [|discriminate].
  intros Ha. exists G. split; [reflexivity|].
  apply try_except_Ok_inv in Ha.
  destruct Ha as [Ha|(e & w1 & _ & Ha)]; [|discriminate].
  apply bind_Ok_inv in Ha. destruct Ha as (img & w1 & Hg & Hr).
  apply ret_Ok_inv in Hr. destruct Hr as [-> ->]. now split.
Qed.

End ServiceFacts.

(** ** What the loader raises and what it builds *)


(** X2.  When a file of edge records is loaded, two stations are joined
    in the graph exactly when one of the first 1000 records has them as
    its two endpoints, in either order: the graph is undirected, and no
    record beyond the first 1000 and no other column adds an edge. *)
Theorem loaded_edges_are_the_recorded_pairs :
  forall (F : Type) (fs : pd.filesystem) (filepath : string)
         (f : pd.csv_file) (G : nx.Graph F) (i j : nat),
    fs filepath = Some f ->
    edge_records f = true ->
    load_graph_data fs filepath = Ok G ->
    pd.index_of "departure_id" (pd.header f) = Some i ->
    pd.index_of "return_id" (pd.header f) = Some j ->
    forall u v : Z,
      nx.has_edge G u v = true
      <-> exists r, In r (firstn 1000 (pd.body f))
            /\ ((u = nth i r 0 /\ v = nth j r 0)
                \/ (u = nth j r 0 /\ v = nth i r 0)).
Proof.
  intros F fs filepath f G i j Ef He Hl Ei Ej u v.
  rewrite (load_graph_data_edge_records fs filepath Ef Ei Ej He) in Hl.
  injection Hl as <-. apply loaded_has_edge.
Qed.

Lemma loaded_edges_witness :
  edge_records loop_and_trip = true
  /\ load_graph_data (F:=float) (disk loop_and_trip) DATA_PATH
     = Ok (nx.add_edges_from nx.empty_graph [(1, 1); (2, 3)])
  /\ forall u v : Z,
       nx.has_edge (F:=float)
         (nx.add_edges_from nx.empty_graph [(1, 1); (2, 3)]) u v = true
       <-> exists r, In r (firstn 1000 (pd.body loop_and_trip))
             /\ ((u = nth 0 r 0 /\ v = nth 1 r 0)
                 \/ (u = nth 1 r 0 /\ v = nth 0 r 0)).
Proof.
  split; [reflexivity|]. split; [vm_compute; reflexivity|].
  apply (loaded_edges_are_the_recorded_pairs float (disk loop_and_trip)
           DATA_PATH loop_and_trip);
    vm_compute; reflexivity.
Defined.

(** X3.  A loaded graph has at most two stations per record read, hence at
    most 2000; every station has a neighbour (possibly itself); and a
    loaded graph with a station has an edge, so that the optimizer's
    shortcut for graphs without edges is never taken on it. *)
Theorem loaded_graph_is_small_and_has_no_isolated_station :
  forall (F : Type) (fs : pd.filesystem) (filepath : string)
         (f : pd.csv_file) (G : nx.Graph F),
    fs filepath = Some f ->
    load_graph_data fs filepath = Ok G ->
    (nx.number_of_nodes G <= 2 * List.length (firstn 1000 (pd.body f)))%nat
    /\ (nx.number_of_nodes G <= 2000)%nat
    /\ (forall x, In x (nx.nodes G) -> exists y, nx.has_edge G x y = true)
    /\ (nx.number_of_nodes G <> 0%nat -> (1 <= nx.number_of_edges G)%nat).
Proof.
  intros F fs filepath f G Ef Hl.
  destruct (load_graph_data_shape _ _ Hl) as [[Hnd _] _].
  pose proof Hl as Hc. apply load_graph_data_Ok in Hc.
  destruct Hc as (f' & i & j & Ef' & _ & _ & HG).
  assert (f' = f) by congruence. subst f'.
  remember (firstn 1000 (pd.body f)) as rows eqn:Erows.
  assert (Hlen : (List.length rows <= 1000)%nat).
  { subst rows. apply firstn_le_length. }
  assert (Hsize : (nx.number_of_nodes G <= 2 * List.length rows)%nat).
  { rewrite <- length_nodes, HG.
    etransitivity; [apply length_nodes_add_edges_from|].
    rewrite length_map. simpl. lia. }
  pose proof (loaded_no_isolated fs filepath G Hl) as Hiso.
  repeat split.
  - exact Hsize.
  - lia.
  - exact Hiso.
  - intros Hne. apply number_of_edges_pos; try assumption.
    + rewrite HG. apply symmetric_edges_from, symmetric_empty.
    + intros ->. now apply Hne.
Qed.

Lemma loaded_graph_size_witness :
  load_graph_data (F:=float) (disk (long_file [3; 4])) DATA_PATH = Ok trip_graph
  /\ (nx.number_of_nodes (F:=float) trip_graph
      <= 2 * List.length (firstn 1000 (pd.body (long_file [3; 4]%Z))))%nat
  /\ (nx.number_of_nodes (F:=float) trip_graph <= 2000)%nat
  /\ (forall x, In x (nx.nodes (F:=float) trip_graph) ->
        exists y, nx.has_edge (F:=float) trip_graph x y = true)
  /\ (nx.number_of_nodes (F:=float) trip_graph <> 0%nat ->
      (1 <= nx.number_of_edges (F:=float) trip_graph)%nat).
Proof.
  split; [vm_compute; reflexivity|].
  apply (loaded_graph_is_small_and_has_no_isolated_station float
           (disk (long_file [3; 4])) DATA_PATH (long_file [3; 4]));
    vm_compute; reflexivity.
Defined.

(** X4.  In a file of edge records that stays within the 1000 records
    that are read, a record that repeats the two endpoints of an earlier
    record, in the same or in the opposite order, has no effect: with or
    without it the loader returns the same graph. *)
Theorem repeated_record_changes_nothing :
  forall (F : Type) (fs fs' : pd.filesystem) (filepath : string)
         (f f' : pd.csv_file) (before after : list (list Z))
         (r r0 : list Z) (i j : nat),
    fs filepath = Some f ->
    fs' filepath = Some f' ->
    pd.header f' = pd.header f ->
    pd.body f = before ++ after ->
    pd.body f' = before ++ r :: after ->
    (List.length (pd.body f') <= 1000)%nat ->
    edge_records f' = true ->
    pd.index_of "departure_id" (pd.header f) = Some i ->
    pd.index_of "return_id" (pd.header f) = Some j ->
    In r0 before ->
    (nth i r 0 = nth i r0 0 /\ nth j r 0 = nth j r0 0)
    \/ (nth i r 0 = nth j r0 0 /\ nth j r 0 = nth i r0 0) ->
    exists G : nx.Graph F,
      load_graph_data fs' filepath = Ok G
      /\ load_graph_data fs filepath = Ok G.
Proof.
  intros F fs fs' filepath f f' before after r r0 i j
         Ef Ef' Hh Hb Hb' Hlen He' Ei Ej Hr0 Hsame.
  assert (Hlen0 : (List.length (pd.body f) <= 1000)%nat).
  { rewrite Hb. rewrite Hb' in Hlen. rewrite length_app in *. simpl in Hlen.
    lia. }
  assert (He : edge_records f = true).
  { unfold edge_records in *. rewrite Hh in He'.
    rewrite (firstn_all2 _ Hlen) in He'. rewrite (firstn_all2 _ Hlen0).
    rewrite Hb' in He'. rewrite Hb. rewrite forallb_app in *.
    cbn [forallb] in He'. apply andb_prop in He'. destruct He' as [H1 H2].
    apply andb_prop in H2. destruct H2 as [_ H2]. now rewrite H1, H2. }
  rewrite <- Hh in Ei, Ej.
  rewrite (load_graph_data_edge_records fs' filepath Ef' Ei Ej He').
  rewrite Hh in Ei, Ej.
  rewrite (load_graph_data_edge_records fs filepath Ef Ei Ej He).
  eexists. split; [reflexivity|]. f_equal.
  rewrite (firstn_all2 _ Hlen), (firstn_all2 _ Hlen0), Hb, Hb'.
  rewrite map_app. cbn [map]. rewrite map_app. symmetry.
  apply add_edges_from_repeat; [apply unweighted_empty|].
  destruct Hsame as [[-> ->]|[-> ->]]; [left|right];
    apply in_map_iff; exists r0; auto.
Qed.

Lemma repeated_record_witness :
  edge_records (trip_file [[1; 2]; [2; 1]; [2; 3]]) = true
  /\ exists G : nx.Graph float,
       load_graph_data (disk (trip_file [[1; 2]; [2; 1]; [2; 3]])) DATA_PATH
       = Ok G
       /\ load_graph_data (disk (trip_file [[1; 2]; [2; 3]])) DATA_PATH = Ok G.
Proof.
  split; [reflexivity|].
  apply (repeated_record_changes_nothing float
           (disk (trip_file [[1; 2]; [2; 3]]))
           (disk (trip_file [[1; 2]; [2; 1]; [2; 3]])) DATA_PATH
           (trip_file [[1; 2]; [2; 3]]) (trip_file [[1; 2]; [2; 1]; [2; 3]])
           [[1; 2]] [[2; 3]] [2; 1] [1; 2] 0 1);
    try (vm_compute; reflexivity).
  - simpl. lia.
  - now left.
  - right. split; reflexivity.
Defined.

(** ** What the endpoints answer *)

(** X5.  After a start-up that found a file of edge records, every
    successful answer of [/analyze] reports as [total_nodes] the number of
    distinct stations that occur as an endpoint in the first 1000
    records. *)
Theorem total_nodes_counts_the_stations :
  forall (F : Type) (HF : Num F) (fs : pd.filesystem) (state : graph_state F)
         (f : pd.csv_file) (i j : nat) (fuel : nat) (w w' : world)
         (body : dict string (pyval F)) (stations : list Z),
    fs DATA_PATH = Some f ->
    edge_records f = true ->
    pd.index_of "departure_id" (pd.header f) = Some i ->
    pd.index_of "return_id" (pd.header f) = Some j ->
    analyze_network fuel (lifespan_startup fs state) w = (Ok body, w') ->
    NoDup stations ->
    (forall x, In x stations <->
       exists r, In r (firstn 1000 (pd.body f))
                 /\ (x = nth i r 0 \/ x = nth j r 0)) ->
    exists results,
      dict_get body "results" = Some (PDict results)
      /\ dict_get results "total_nodes"
         = Some (PInt (Z.of_nat (List.length stations))).
Proof.
  intros F HF fs state f i j fuel w w' body stations Ef He Ei Ej Ha Hnd Hst.
  apply analyze_network_Ok in Ha. destruct Ha as (G & results & HG & Hd & ->).
  exists results. split; [reflexivity|].
  rewrite state_get_G_startup in HG.
  pose proof (load_graph_data_edge_records (F:=F) fs DATA_PATH Ef Ei Ej He)
    as Hl.
  rewrite Hl in HG.
  assert (HGeq : G = nx.add_edges_from nx.empty_graph
                       (map (endpoints i j) (firstn 1000 (pd.body f))))
    by congruence.
  rewrite <- HGeq in Hl.
  destruct (load_graph_data_shape _ _ Hl) as [[HndG _] _].
  assert (Hlen : List.length (nx.nodes G) = List.length stations).
  { apply Permutation_length, NoDup_Permutation; try assumption.
    intros x. rewrite Hst, HGeq. apply in_loaded_nodes. }
  destruct (Nat.eq_dec (nx.number_of_nodes G) 0) as [Hz|Hnz].
  - rewrite detect_communities_empty in Hd by (simpl; now rewrite Hz).
    injection Hd as <- _. rewrite <- Hlen, length_nodes, Hz. reflexivity.
  - apply detect_communities_Ok in Hd; [|assumption].
    destruct Hd as (P & q & _ & _ & ->). rewrite <- Hlen. reflexivity.
Qed.

Lemma total_nodes_witness :
  edge_records loop_and_trip = true
  /\ exists body w',
       analyze_network (F:=float) 10 (lifespan_startup (disk loop_and_trip) [])
         (fresh []) = (Ok body, w')
       /\ exists results,
            dict_get body "results" = Some (PDict results)
            /\ dict_get results "total_nodes"
               = Some (PInt (Z.of_nat (List.length [1; 2; 3]))).
Proof.
  split; [reflexivity|].
  eexists. eexists. split; [vm_compute; reflexivity|].
  eapply (total_nodes_counts_the_stations float float_num (disk loop_and_trip) []
            loop_and_trip 0 1 10 (fresh [])).
  - reflexivity.
  - reflexivity.
  - reflexivity.
  - reflexivity.
  - vm_compute. reflexivity.
  - repeat constructor; simpl; intuition discriminate.
  - intros x. simpl. split.
    + intros [<-|[<-|[<-|[]]]].
      * exists [1; 1]. auto.
      * exists [2; 3]. auto.
      * exists [2; 3]. auto.
    + intros (r & [<-|[<-|[]]] & [->| ->]); simpl; auto.
Defined.

(** X6.  On a graph with at least one node every successful analysis
    reports at least one community and at most as many communities as
    nodes. *)
Theorem communities_between_one_and_nodes :
  forall (F : Type) (HF : Num F) (fuel : nat) (g : nx.Graph F)
         (w w' : world) (r : dict string (pyval F)),
    NoDup (nx.nodes g) ->
    nx.number_of_nodes g <> 0%nat ->
    detect_communities fuel (Some g) w = (Ok r, w') ->
    exists c n : Z,
      dict_get r "total_communities_detected" = Some (PInt c)
      /\ dict_get r "total_nodes" = Some (PInt n)
      /\ 1 <= c <= n.
Proof.
  intros F HF fuel g w w' r Hnd Hne Hd.
  apply detect_communities_Ok in Hd; [|assumption].
  destruct Hd as (P & q & Hb & _ & ->).
  apply best_partition_keys in Hb; [|assumption].
  eexists. eexists. split; [reflexivity|]. split; [reflexivity|].
  assert (Hlen : List.length (values P) = List.length (nx.nodes g)).
  { rewrite <- Hb. unfold values, keys. now rewrite !length_map. }
  pose proof (length_py_set_le (values P)).
  assert (Hvals : values P <> []).
  { intros E. rewrite E in Hlen. rewrite length_nodes in Hlen.
    simpl in Hlen. congruence. }
  pose proof (length_py_set_pos (values P) Hvals). lia.
Qed.

Lemma communities_bounds_witness :
  exists (r : dict string (pyval float)) (w' : world),
    detect_communities 10 (Some mock_graph) (fresh []) = (Ok r, w')
    /\ exists c n : Z,
         dict_get r "total_communities_detected" = Some (PInt c)
         /\ dict_get r "total_nodes" = Some (PInt n)
         /\ 1 <= c <= n.
Proof.
  eexists. eexists. split; [vm_compute; reflexivity|].
  eapply (communities_between_one_and_nodes float float_num 10 mock_graph
            (fresh [])).
  - vm_compute. repeat constructor; simpl; intuition discriminate.
  - vm_compute. discriminate.
  - vm_compute. reflexivity.
Defined.

(** X7.  A graph that has nodes but no edge makes the analysis fail: the
    optimizer's shortcut numbers the nodes without a random draw, then
    [modularity] raises [ValueError], which [/analyze] answers with
    status 500 and that message.  It holds in any arithmetic where
    [0 + 0 = 0], [0 / 2 = 0] and [0 == 0], as in binary64. *)
Theorem edgeless_graph_is_an_internal_error :
  forall (F : Type) (HF : Num F) (fuel : nat) (state : graph_state F)
         (g : nx.Graph F) (w : world),
    fadd fzero fzero = fzero ->
    fdiv fzero ftwo = fzero ->
    feqb fzero fzero = true ->
    state_get_G state = Some g ->
    g <> [] ->
    edgeless g ->
    detect_communities fuel (Some g) w
    = (Raise community_louvain.no_link,
       {| random_state := random_state w;
          trace := trace w ++ [Call_best_partition] |})
    /\ analyze_network fuel state w
       = (Raise (mk_exn (HTTPException 500)
                   "A graph without link has an undefined modularity"),
          {| random_state := random_state w;
             trace := trace w ++ [Call_best_partition] |}).
Proof.
  intros F HF fuel state g w Hadd Hdiv Heq Hs Hne He.
  pose proof (detect_communities_edgeless fuel g w Hadd Hdiv Heq Hne He) as Hd.
  split; [exact Hd|].
  unfold analyze_network. rewrite Hs. unfold try_except, bind.
  rewrite Hd. reflexivity.
Qed.

Lemma edgeless_graph_witness :
  detect_communities (F:=float) 0 (Some lone_station) (fresh [5%nat])
  = (Raise community_louvain.no_link,
     {| random_state := [5%nat]; trace := [Call_best_partition] |})
  /\ analyze_network (F:=float) 0 [("G", Some lone_station)] (fresh [5%nat])
     = (Raise (mk_exn (HTTPException 500)
                 "A graph without link has an undefined modularity"),
        {| random_state := [5%nat]; trace := [Call_best_partition] |}).
Proof.
  apply (edgeless_graph_is_an_internal_error float float_num 0
           [("G", Some lone_station)] lone_station (fresh [5%nat]));
    try (vm_compute; reflexivity).
  - vm_compute. discriminate.
  - intros nd Hnd. vm_compute in Hnd. destruct Hnd as [<-|[]]. reflexivity.
Defined.

(** X8.  While no graph is loaded both endpoints answer 503 and leave the
    process as it is: that is so after a start-up whose load failed,
    whatever the failure, and after the shut-down, whatever was loaded. *)
Theorem no_graph_no_answer :
  forall (F : Type) (HF : Num F) (spring_layout : nx.Graph F -> layout F)
         (np_mean : list F -> F) (fs : pd.filesystem)
         (state : graph_state F) (fuel : nat) (w : world),
    ((forall G : nx.Graph F, load_graph_data fs DATA_PATH <> Ok G) ->
     analyze_network fuel (lifespan_startup fs state) w
     = (Raise (mk_exn (HTTPException 503) "Graph data not available"), w)
     /\ visualize_network spring_layout np_mean fuel
          (lifespan_startup fs state) w
        = (Raise (mk_exn (HTTPException 503) "Graph data not available"), w))
    /\ analyze_network fuel (lifespan_shutdown state) w
       = (Raise (mk_exn (HTTPException 503) "Graph data not available"), w)
    /\ visualize_network spring_layout np_mean fuel (lifespan_shutdown state) w
       = (Raise (mk_exn (HTTPException 503) "Graph data not available"), w).
Proof.
  intros F HF sl mean fs state fuel w. split; [|split; reflexivity].
  intros Hl.
  assert (Hs : state_get_G (lifespan_startup fs state) = None).
  { rewrite state_get_G_startup.
    destruct (load_graph_data fs DATA_PATH) as [G| |] eqn:E;
      [now destruct (Hl G)|reflexivity|reflexivity]. }
  split.
  - now apply analyze_network_no_graph.
  - now apply visualize_network_no_graph.
Qed.

Lemma no_graph_witness :
  analyze_network (F:=float) 0 (lifespan_startup empty_disk []) (fresh [])
  = (Raise (mk_exn (HTTPException 503) "Graph data not available"), fresh [])
  /\ visualize_network (F:=float) origin_layout first_or_zero 0
       (lifespan_startup empty_disk []) (fresh [])
     = (Raise (mk_exn (HTTPException 503) "Graph data not available"), fresh []).
Proof.
  apply (proj1 (no_graph_no_answer float float_num origin_layout first_or_zero
                  empty_disk [] 0 (fresh []))).
  intros G. vm_compute. discriminate.
Defined.

(** X9.  [/analyze] lets no exception out but [HTTPException]: status 503
    when no graph is loaded, with the process untouched, and status 500
    carrying the message of whatever [detect_communities] raised. *)
Theorem analyze_network_raises_only_http_errors :
  forall (F : Type) (HF : Num F) (fuel : nat) (state : graph_state F)
         (w w' : world) (e : exn),
    analyze_network fuel state w = (Raise e, w') ->
    (e = mk_exn (HTTPException 503) "Graph data not available"
     /\ state_get_G state = None /\ w' = w)
    \/ (kind e = HTTPException 500
        /\ exists (G : nx.Graph F) (e0 : exn),
             state_get_G state = Some G
             /\ detect_communities fuel (Some G) w = (Raise e0, w')
             /\ message e = message e0).
Proof.
  intros F HF fuel state w w' e Ha. apply analyze_network_Raise in Ha.
  destruct Ha as [(Hs & -> & ->)|(G & e0 & Hs & Hd & ->)]; [left|right].
  - now repeat split.
  - split; [reflexivity|]. exists G, e0. now repeat split.
Qed.

Lemma analyze_network_raises_witness :
  analyze_network (F:=float) 0 [("G", None)] (fresh [])
  = (Raise (mk_exn (HTTPException 503) "Graph data not available"), fresh [])
  /\ ((mk_exn (HTTPException 503) "Graph data not available"
       = mk_exn (HTTPException 503) "Graph data not available"
       /\ state_get_G (F:=float) [("G", None)] = None /\ fresh [] = fresh [])
      \/ (kind (mk_exn (HTTPException 503) "Graph data not available")
          = HTTPException 500
          /\ exists (G : nx.Graph float) (e0 : exn),
               state_get_G [("G", None)] = Some G
               /\ detect_communities 0 (Some G) (fresh [])
                  = (Raise e0, fresh [])
               /\ message (mk_exn (HTTPException 503) "Graph data not available")
                  = message e0)).
Proof.
  split; [reflexivity|].
  apply (analyze_network_raises_only_http_errors float float_num 0
           [("G", None)] (fresh []) (fresh [])).
  reflexivity.
Defined.

(** X10.  A file that has the two columns and no record loads as the empty
    graph, not as a missing one: after start-up [/analyze] answers
    success with score 0.0, no community and no node, without entering the
    optimizer. *)
Theorem header_only_file_analyzes_to_zeros :
  forall (F : Type) (HF : Num F) (fs : pd.filesystem) (f : pd.csv_file)
         (state : graph_state F) (fuel : nat) (w : world),
    fs DATA_PATH = Some f ->
    In "departure_id" (pd.header f) ->
    In "return_id" (pd.header f) ->
    pd.body f = [] ->
    load_graph_data (F:=F) fs DATA_PATH = Ok nx.empty_graph
    /\ analyze_network fuel (lifespan_startup fs state) w
       = (Ok [("status", PStr "success");
              ("algorithm", PStr "Louvain");
              ("results",
               PDict [("modularity_score", PFloat fzero);
                      ("total_communities_detected", PInt 0);
                      ("total_nodes", PInt 0)])], w).
Proof.
  intros F HF fs f state fuel w Ef Hd Hr Hb.
  destruct (pd.index_of "departure_id" (pd.header f)) as [i|] eqn:Ei;
    [|now apply index_of_None in Ei].
  destruct (pd.index_of "return_id" (pd.header f)) as [j|] eqn:Ej;
    [|now apply index_of_None in Ej].
  assert (Hl : load_graph_data (F:=F) fs DATA_PATH = Ok nx.empty_graph).
  { rewrite (load_graph_data_returns fs DATA_PATH f i j Ef Ei Ej);
      rewrite Hb; reflexivity. }
  split; [exact Hl|].
  unfold analyze_network. rewrite state_get_G_startup, Hl.
  unfold try_except, bind.
  rewrite detect_communities_empty by reflexivity. reflexivity.
Qed.

Lemma header_only_witness :
  load_graph_data (F:=float) (disk header_only) DATA_PATH = Ok nx.empty_graph
  /\ analyze_network (F:=float) 0 (lifespan_startup (disk header_only) [])
       (fresh [7%nat])
     = (Ok [("status", PStr "success");
            ("algorithm", PStr "Louvain");
            ("results",
             PDict [("modularity_score", PFloat fzero);
                    ("total_communities_detected", PInt 0);
                    ("total_nodes", PInt 0)])], fresh [7%nat]).
Proof.
  apply (header_only_file_analyzes_to_zeros float float_num (disk header_only)
           header_only [] 0 (fresh [7%nat])).
  - reflexivity.
  - simpl. auto.
  - simpl. auto.
  - reflexivity.
Defined.

(** X11.  Between its two library calls [detect_communities] loses
    nothing: on a graph whose neighbours are all nodes, the partition
    [best_partition] returns has a community for every node that
    [modularity] looks up, so once the optimizer has returned, the
    analysis either returns its result or raises the [ValueError] of a
    graph without links; no [KeyError] can occur. *)
Theorem modularity_accepts_the_partition :
  forall (F : Type) (HF : Num F) (fuel : nat) (g : nx.Graph F)
         (w w' : world) (partition : dict Z Z),
    NoDup (nx.nodes g) ->
    closed g ->
    nx.number_of_nodes g <> 0%nat ->
    community_louvain.best_partition fuel g w = (Ok partition, w') ->
    (exists q : F,
       community_louvain.modularity partition g = Ok q
       /\ detect_communities fuel (Some g) w
          = (Ok [("modularity_score", PFloat q);
                 ("total_communities_detected",
                  PInt (Z.of_nat (List.length (py_set (values partition)))));
                 ("total_nodes", PInt (Z.of_nat (List.length (nx.nodes g))))],
             w'))
    \/ detect_communities fuel (Some g) w
       = (Raise community_louvain.no_link, w').
Proof.
  intros F HF fuel g w w' P Hnd Hsym Hne Hb.
  rewrite detect_communities_nonempty by assumption.
  unfold bind. rewrite Hb. unfold lift.
  pose proof (best_partition_keys fuel g w P w' Hnd Hb) as Hk.
  destruct (modularity_covered g P Hnd Hsym (covered_by_keys P _ Hk))
    as [[q Hq]|Hq]; rewrite Hq.
  - left. exists q. split; reflexivity.
  - now right.
Qed.

Lemma modularity_accepts_witness :
  exists (partition : dict Z Z) (w' : world),
    community_louvain.best_partition (F:=float) 10 path6 (fresh [0; 1; 1]%nat)
    = (Ok partition, w')
    /\ ((exists q : float,
           community_louvain.modularity partition path6 = Ok q
           /\ detect_communities 10 (Some path6) (fresh [0; 1; 1]%nat)
              = (Ok [("modularity_score", PFloat q);
                     ("total_communities_detected",
                      PInt (Z.of_nat (List.length (py_set (values partition)))));
                     ("total_nodes",
                      PInt (Z.of_nat (List.length (nx.nodes (F:=float) path6))))],
                 w'))
        \/ detect_communities (F:=float) 10 (Some path6) (fresh [0; 1; 1]%nat)
           = (Raise community_louvain.no_link, w')).
Proof.
  eexists. eexists. split; [vm_compute; reflexivity|].
  apply (modularity_accepts_the_partition float float_num 10 path6
           (fresh [0; 1; 1]%nat)).
  - vm_compute. repeat constructor; simpl; intuition discriminate.
  - apply closed_of_symmetric, symmetric_edges_from, symmetric_empty.
  - vm_compute. discriminate.
  - vm_compute. reflexivity.
Defined.

(** ** What the image shows *)

(** X12.  Rendering adds no failure of its own and follows the partition
    it computed: when the layout has a position for every node and the
    optimizer returns a partition, [generate_graph_image] returns an
    image in which the nodes are coloured by the partition's values in
    node order, one label is drawn per entry of [community_centers], and
    the number of labels is the number of communities announced in the
    title and in the legend. *)
Theorem rendering_follows_the_partition :
  forall (F : Type) (HF : Num F) (spring_layout : nx.Graph F -> layout F)
         (np_mean : list F -> F) (fuel : nat) (G : nx.Graph F)
         (w w' : world) (partition : dict Z Z),
    NoDup (nx.nodes G) ->
    (forall n, In n (nx.nodes G) -> dict_get (spring_layout G) n <> None) ->
    community_louvain.best_partition fuel G w = (Ok partition, w') ->
    exists centers : dict Z (list F * list F),
      community_centers partition (spring_layout G) = Ok centers
      /\ List.length (map (community_label np_mean) centers)
         = List.length (py_set (values partition))
      /\ generate_graph_image spring_layout np_mean fuel G w
         = (Ok ([plt_figure;
                 draw_networkx_edges G (spring_layout G);
                 draw_networkx_nodes G (spring_layout G) (values partition)]
                ++ map (community_label np_mean) centers
                ++ [plt_title
                      ("Bike Sharing Network - "
                       ++ str (Z.of_nat (List.length (py_set (values partition))))
                       ++ " Communities Detected");
                    plt_text_axes
                      ("Total Nodes: "
                       ++ str (Z.of_nat (List.length (nx.nodes G)))
                       ++ newline ++ "Total Communities: "
                       ++ str (Z.of_nat (List.length (py_set (values partition)))));
                    plt_axis_off;
                    plt_tight_layout;
                    plt_savefig;
                    plt_close]), w').
Proof.
  intros F HF sl mean fuel G w w' P Hnd Hpos Hb.
  destruct (generate_graph_image_returns sl mean fuel G w P w' Hnd Hpos Hb)
    as (centers & Hc & Hg).
  exists centers. split; [exact Hc|]. split; [|exact Hg].
  rewrite length_map. now apply length_centers with (pos := sl G).
Qed.

Lemma rendering_witness :
  exists (partition : dict Z Z) (w' : world)
         (img : list (plt_call float)),
    community_louvain.best_partition (F:=float) 10 mock_graph (fresh [])
    = (Ok partition, w')
    /\ generate_graph_image origin_layout first_or_zero 10 mock_graph (fresh [])
       = (Ok img, w').
Proof.
  assert (Hb : community_louvain.best_partition (F:=float) 10 mock_graph
                 (fresh [])
               = (Ok [(1, 0); (2, 0); (3, 0)],
                  {| random_state := [];
                     trace := [Call_best_partition; Call_one_level;
                               Call_one_level] |})).
  { vm_compute. reflexivity. }
  assert (Hnd : NoDup (nx.nodes (F:=float) mock_graph)).
  { vm_compute. repeat constructor; simpl; intuition discriminate. }
  assert (Hpos : forall n, In n (nx.nodes (F:=float) mock_graph) ->
                   dict_get (origin_layout (F:=float) mock_graph) n <> None).
  { intros n Hn. vm_compute in Hn.
    destruct Hn as [<-|[<-|[<-|[]]]]; vm_compute; discriminate. }
  destruct (rendering_follows_the_partition float float_num origin_layout
              first_or_zero 10 mock_graph (fresh []) _ _ Hnd Hpos Hb)
    as (centers & _ & _ & Hg).
  eexists. eexists. eexists. split; [exact Hb|exact Hg].
Defined.

(** X13.  [community_centers] holds exactly one entry per community of
    the partition, so as many entries as [num_communities] counts; the
    entry of a community lists the x and the y coordinates of its member
    nodes, in the order of the partition. *)
Theorem one_center_per_community :
  forall (F : Type) (HF : Num F) (pos : layout F) (partition : dict Z Z)
         (centers : dict Z (list F * list F)),
    community_centers partition pos = Ok centers ->
    NoDup (keys centers)
    /\ (forall c, In c (keys centers) <-> In c (values partition))
    /\ List.length centers = List.length (py_set (values partition))
    /\ forall c xs ys,
         dict_get centers c = Some (xs, ys) ->
         members partition c <> []
         /\ (xs, ys) = coordinates pos (members partition c).
Proof.
  intros F HF pos P centers Hc.
  destruct (community_centers_Ok _ _ _ Hc) as [Hnd Hget].
  pose proof (in_keys_centers _ _ _ Hc) as Hin.
  repeat split; try assumption; try apply Hin.
  - now apply length_centers with (pos := pos).
  - rewrite Hget in H. destruct (members P c); [discriminate|congruence].
  - rewrite Hget in H. destruct (members P c); [discriminate|congruence].
Qed.

Lemma one_center_witness :
  community_centers two_communities three_positions = Ok two_centers
  /\ NoDup (keys two_centers)
  /\ (forall c, In c (keys two_centers) <-> In c (values two_communities))
  /\ List.length two_centers = List.length (py_set (values two_communities))
  /\ forall c xs ys,
       dict_get two_centers c = Some (xs, ys) ->
       members two_communities c <> []
       /\ (xs, ys) = coordinates three_positions (members two_communities c).
Proof.
  split; [vm_compute; reflexivity|].
  apply (one_center_per_community float float_num).
  vm_compute. reflexivity.
Defined.

(** X14.  [/visualize] lets no exception out but [HTTPException]: status
    503 when no graph is loaded, with the process untouched, and status
    500 carrying the message of whatever [generate_graph_image] raised;
    what it returns is the image of the loaded graph, served as
    image/png. *)
Theorem visualize_network_outcomes :
  forall (F : Type) (HF : Num F) (spring_layout : nx.Graph F -> layout F)
         (np_mean : list F -> F) (fuel : nat) (state : graph_state F)
         (w : world),
    (forall (e : exn) (w' : world),
       visualize_network spring_layout np_mean fuel state w = (Raise e, w') ->
       (e = mk_exn (HTTPException 503) "Graph data not available"
        /\ state_get_G state = None /\ w' = w)
       \/ (kind e = HTTPException 500
           /\ exists (G : nx.Graph F) (e0 : exn),
                state_get_G state = Some G
                /\ generate_graph_image spring_layout np_mean fuel G w
                   = (Raise e0, w')
                /\ message e = message e0))
    /\ forall (resp : StreamingResponse F) (w' : world),
         visualize_network spring_layout np_mean fuel state w = (Ok resp, w') ->
         media_type resp = "image/png"
         /\ exists G : nx.Graph F,
              state_get_G state = Some G
              /\ generate_graph_image spring_layout np_mean fuel G w
                 = (Ok (content resp), w').
Proof.
  intros F HF sl mean fuel state w. split.
  - intros e w' Hv. apply visualize_network_Raise in Hv.
    destruct Hv as [(Hs & -> & ->)|(G & e0 & Hs & Hg & ->)]; [left|right].
    + now repeat split.
    + split; [reflexivity|]. exists G, e0. now repeat split.
  - intros resp w' Hv. apply visualize_network_Ok in Hv.
    destruct Hv as (G & Hs & Hg & Hm). split; [exact Hm|]. now exists G.
Qed.

(** ** No lookup of the optimizer fails *)

(** *** Shuffling *)

Lemma incl_list_update {A} (x : list A) i a :
  incl (np_random.list_update x i a) (a :: x).
Proof.
  revert i. induction x as [|b x IH]; intros i; simpl.
  - intros y [].
  - destruct i as [|i].
    + intros y [<-|Hy]; [now left|right; now right].
    + intros y [<-|Hy]; [right; now left|].
      destruct (IH i y Hy) as [<-|Hin]; [now left|right; now right].
Qed.

Lemma incl_swap {A} (x : list A) i j : incl (np_random.swap x i j) x.
Proof.
  unfold np_random.swap.
  destruct (nth_error x i) as [a|] eqn:Ei; [|apply incl_refl].
  destruct (nth_error x j) as [b|] eqn:Ej; [|apply incl_refl].
  apply nth_error_In in Ei, Ej. intros y Hy.
  apply incl_list_update in Hy. destruct Hy as [<-|Hy]; [assumption|].
  apply incl_list_update in Hy. destruct Hy as [<-|Hy]; assumption.
Qed.

Lemma random_interval_returns max w :
  exists j w', np_random.random_interval max w = (Ok j, w').
Proof.
  unfold np_random.random_interval. destruct (random_state w); eauto.
Qed.

Lemma shuffle_from_returns {A} i : forall (x : list A) w,
  exists y w', np_random.shuffle_from i x w = (Ok y, w') /\ incl y x.
Proof.
  induction i as [|i IH]; intros x w; simpl.
  - exists x, w. split; [reflexivity|apply incl_refl].
  - unfold bind. destruct (random_interval_returns (S i) w) as (j & w1 & ->).
    destruct (IH (np_random.swap x (S i) j) w1) as (y & w' & -> & Hy).
    exists y, w'. split; [reflexivity|].
    eapply incl_tran; [exact Hy|apply incl_swap].
Qed.

(** A shuffle returns, and returns elements of its argument. *)
Lemma shuffle_returns {A} (x : list A) w :
  exists y w', np_random.shuffle x w = (Ok y, w') /\ incl y x.
Proof. apply shuffle_from_returns. Qed.
(** *** Renumbering *)

Lemma set_mem_true x s : set_mem x s = true <-> In x s.
Proof.
  unfold set_mem. rewrite existsb_exists. split.
  - intros (y & Hy & E). apply Z.eqb_eq in E. now subst.
  - intros Hx. exists x. split; [exact Hx|apply Z.eqb_refl].
Qed.

Lemma NoDup_py_range n : NoDup (py_range n).
Proof.
  unfold py_range. apply Finite.Injective_map_NoDup; [|apply seq_NoDup].
  intros a b. apply Nat2Z.inj.
Qed.

Lemma length_py_range n : List.length (py_range n) = n.
Proof. unfold py_range. now rewrite length_map, length_seq. Qed.

Lemma map_fst_combine {A B} (l : list A) : forall l' : list B,
  (List.length l <= List.length l')%nat -> map fst (combine l l') = l.
Proof.
  induction l as [|a l IH]; intros [|b l'] Hlen; simpl in *; try reflexivity.
  - lia.
  - rewrite IH by lia. reflexivity.
Qed.

Lemma in_keys_fold_set {K V} `{EqDec K} (l : list (K * V)) : forall (d : dict K V) k,
  In k (keys (fold_left (fun d kv => dict_set d (fst kv) (snd kv)) l d))
  <-> In k (keys d) \/ In k (map fst l).
Proof.
  induction l as [|[k0 v0] l IH]; intros d k; simpl.
  - tauto.
  - rewrite IH, in_keys_dict_set. simpl. intuition congruence.
Qed.

(** Two duplicate-free lists have as many elements outside of each other
    when they have the same length. *)
Lemma length_outside (a b : list Z) :
  NoDup a -> NoDup b -> List.length a = List.length b ->
  List.length (filter (fun x => negb (set_mem x b)) a)
  = List.length (filter (fun x => negb (set_mem x a)) b).
Proof.
  intros Ha Hb Hlen.
  pose proof (filter_length (fun x => set_mem x b) a) as Ea.
  pose proof (filter_length (fun x => set_mem x a) b) as Eb.
  assert (Hin : List.length (filter (fun x => set_mem x b) a)
                = List.length (filter (fun x => set_mem x a) b)).
  { apply Permutation_length, NoDup_Permutation.
    - now apply NoDup_filter.
    - now apply NoDup_filter.
    - intros x. rewrite !filter_In, !set_mem_true. tauto. }
  lia.
Qed.

Lemma renumber_returns (d : dict Z Z) :
  exists d', community_louvain.__renumber d = Ok d'.
Proof.
  unfold community_louvain.__renumber.
  set (vals := py_set (values d)).
  set (target := py_range (List.length vals)).
  destruct (list_eq_dec Z.eq_dec vals target) as [_|_]; [eauto|].
  apply ofold_defined. intros acc [k v] Hin.
  assert (Hv : In v vals).
  { apply in_py_set. change v with (snd (k, v)). unfold values.
    now apply in_map. }
  cbn [snd fst]. unfold dict_item.
  match goal with |- context [dict_get ?r v] =>
    destruct (dict_get r v) eqn:E; [cbn [obind]; eauto|] end.
  exfalso. apply dict_get_None in E. apply E. clear E.
  apply in_keys_fold_set.
  destruct (set_mem v target) eqn:Em.
  - left. unfold keys. rewrite map_fst_combine by lia.
    apply filter_In. split; [now apply set_mem_true|now apply set_mem_true].
  - right. rewrite map_fst_combine.
    + apply filter_In. split; [exact Hv|now rewrite Em].
    + apply Nat.eq_le_incl, length_outside.
      * apply NoDup_py_set.
      * apply NoDup_py_range.
      * unfold target. now rewrite length_py_range.
Qed.

Lemma dict_get_fold_set_other {K V} `{EqDec K} (l : list (K * V)) :
  forall (d : dict K V) k,
    ~ In k (map fst l) ->
    dict_get (fold_left (fun d kv => dict_set d (fst kv) (snd kv)) l d) k
    = dict_get d k.
Proof.
  induction l as [|[k0 v0] l IH]; intros d k Hk; simpl; [reflexivity|].
  simpl in Hk. rewrite IH by tauto.
  apply dict_get_set_ne. intros ->. tauto.
Qed.

Lemma dict_get_fold_set_in {K V} `{EqDec K} (l : list (K * V)) :
  forall (d : dict K V) a b,
    NoDup (map fst l) -> In (a, b) l ->
    dict_get (fold_left (fun d kv => dict_set d (fst kv) (snd kv)) l d) a
    = Some b.
Proof.
  induction l as [|[k0 v0] l IH]; intros d a b Hnd Hin; simpl; [destruct Hin|].
  simpl in Hnd. inversion Hnd as [|? ? Hk Hnd']; subst.
  destruct Hin as [[= -> ->]|Hin].
  - rewrite dict_get_fold_set_other by assumption. apply dict_get_set_eq.
  - now apply IH.
Qed.

Lemma dict_get_combine_same (l : list Z) t :
  In t l -> dict_get (combine l l) t = Some t.
Proof.
  induction l as [|x l IH]; simpl; [intros []|].
  destruct (eq_dec t x) as [->|Hne]; [reflexivity|].
  intros [->|Hin]; [congruence|now apply IH].
Qed.

Lemma in_combine_left {A B} (l : list A) : forall (l' : list B) a,
  (List.length l <= List.length l')%nat -> In a l ->
  exists b, In (a, b) (combine l l').
Proof.
  induction l as [|x l IH]; intros [|y l'] a Hlen Hin; simpl in *;
    try contradiction; try lia.
  destruct Hin as [->|Hin].
  - exists y. now left.
  - destruct (IH l' a) as [b Hb]; [lia|exact Hin|]. exists b. now right.
Qed.

Lemma in_combine_right {A B} (l : list A) : forall (l' : list B) b,
  (List.length l' <= List.length l)%nat -> In b l' ->
  exists a, In (a, b) (combine l l').
Proof.
  induction l as [|x l IH]; intros [|y l'] b Hlen Hin; simpl in *;
    try contradiction; try lia.
  destruct Hin as [->|Hin].
  - exists x. now left.
  - destruct (IH l' b) as [a Ha]; [lia|exact Hin|]. exists a. now right.
Qed.

Lemma renumber_fold (R : dict Z Z) : forall (d acc r : dict Z Z),
  ofold (fun ret kv => v <-? dict_item R (snd kv) ;; Ok (ret ++ [(fst kv, v)]))
        d acc = Ok r ->
  values r = values acc ++ map (fun v => dict_get_default R v 0) (values d).
Proof.
  induction d as [|[k v] d IH]; intros acc r; simpl.
  - intros [= <-]. now rewrite app_nil_r.
  - unfold dict_item, dict_get_default.
    destruct (dict_get R v) as [v'|]; cbn [obind]; [|discriminate].
    intros Hr. apply IH in Hr. rewrite Hr. unfold values at 1.
    rewrite map_app. cbn [map snd]. now rewrite <- app_assoc.
Qed.

(** [__renumber] numbers the communities [0 .. k-1]. *)
Lemma renumber_numbered (d d' : dict Z Z) :
  community_louvain.__renumber d = Ok d' -> numbered d'.
Proof.
  unfold community_louvain.__renumber.
  set (vals := py_set (values d)).
  set (target := py_range (List.length vals)).
  destruct (list_eq_dec Z.eq_dec vals target) as [E|_].
  { intros [= <-]. intros c. fold vals. fold target. rewrite <- E.
    symmetry. apply in_py_set. }
  set (kept := filter (fun t => set_mem t vals) target).
  set (A := filter (fun v => negb (set_mem v target)) vals).
  set (B := filter (fun t => negb (set_mem t vals)) target).
  set (R := fold_left (fun d kv => dict_set d (fst kv) (snd kv))
              (combine A B) (combine kept kept)).
  intros Hr. apply renumber_fold in Hr. cbn [values map app] in Hr.
  assert (Hlen : List.length A = List.length B).
  { apply length_outside; [apply NoDup_py_set|apply NoDup_py_range|].
    unfold target. now rewrite length_py_range. }
  assert (HA : NoDup (map fst (combine A B))).
  { rewrite map_fst_combine by lia. apply NoDup_filter, NoDup_py_set. }
  assert (Hkept : forall t, In t kept -> dict_get R t = Some t).
  { intros t Ht. unfold R. rewrite dict_get_fold_set_other.
    - now apply dict_get_combine_same.
    - rewrite map_fst_combine by lia. unfold A. rewrite filter_In.
      apply filter_In in Ht. destruct Ht as [Ht _].
      apply set_mem_true in Ht. rewrite Ht. simpl. intros [_ Hf]. discriminate. }
  assert (Hmoved : forall a b, In (a, b) (combine A B) -> dict_get R a = Some b).
  { intros a b Hab. unfold R. now apply dict_get_fold_set_in. }
  assert (Himage : forall c,
            In c (map (fun v => dict_get_default R v 0) (values d))
            <-> In c target).
  { intros c. rewrite in_map_iff. split.
    - intros (v & <- & Hv). apply in_py_set in Hv. fold vals in Hv.
      unfold dict_get_default. destruct (set_mem v target) eqn:Em.
      + rewrite Hkept; [now apply set_mem_true|].
        apply filter_In. split; [now apply set_mem_true|now apply set_mem_true].
      + destruct (in_combine_left A B v) as [b Hb]; [lia| |].
        * apply filter_In. split; [exact Hv|now rewrite Em].
        * rewrite (Hmoved v b Hb). apply in_combine_r in Hb.
          apply filter_In in Hb. apply Hb.
    - intros Hc. unfold dict_get_default. destruct (set_mem c vals) eqn:Em.
      + exists c. split.
        * rewrite Hkept; [reflexivity|]. apply filter_In. now split.
        * apply in_py_set. now apply set_mem_true.
      + destruct (in_combine_right A B c) as [a Ha]; [lia| |].
        * apply filter_In. split; [exact Hc|now rewrite Em].
        * exists a. split; [now rewrite (Hmoved a c Ha)|].
          apply in_combine_l in Ha. apply filter_In in Ha.
          apply in_py_set. apply Ha. }
  intros c.
  assert (Hk : List.length (py_set (values d')) = List.length vals).
  { transitivity (List.length target);
      [|unfold target; apply length_py_range].
    apply length_py_set; [apply NoDup_py_range|].
    intros c0. rewrite Hr, Himage. tauto. }
  rewrite Hk. rewrite Hr. apply Himage.
Qed.

Lemma in_py_range n c : In c (py_range n) <-> 0 <= c < Z.of_nat n.
Proof.
  unfold py_range. rewrite in_map_iff. split.
  - intros (i & <- & Hi). apply in_seq in Hi. lia.
  - intros Hc. exists (Z.to_nat c). split; [lia|]. apply in_seq. lia.
Qed.

(** *** Numbering the nodes of a graph without edges *)

Lemma dict_set_absent {K V} `{EqDec K} (d : dict K V) k v :
  ~ In k (keys d) -> dict_set d k v = d ++ [(k, v)].
Proof.
  induction d as [|[k' v'] d IH]; simpl; intros Hk; [reflexivity|].
  destruct (eq_dec k k') as [->|Hne]; [tauto|].
  rewrite IH; [reflexivity|tauto].
Qed.

Lemma enumerate_nodes_values (ns : list Z) :
  NoDup ns ->
  values (community_louvain.enumerate_nodes ns) = py_range (List.length ns).
Proof.
  unfold community_louvain.enumerate_nodes. intros Hnd.
  assert (Hgen : forall (l : list Z) (cs : list Z) (part : dict Z Z),
            List.length cs = List.length l ->
            NoDup (keys part ++ l) ->
            values (fold_left (fun p ni => dict_set p (snd ni) (fst ni))
                      (combine cs l) part) = values part ++ cs).
  { induction l as [|n l IH]; intros cs part Hlen Hn.
    - destruct cs; [|discriminate]. simpl. now rewrite app_nil_r.
    - destruct cs as [|c cs]; [discriminate|]. simpl.
      assert (Hnot : ~ In n (keys part)).
      { intros Hin. apply NoDup_remove_2 in Hn. apply Hn.
        apply in_or_app. now left. }
      rewrite dict_set_absent by assumption. rewrite IH.
      + unfold values. rewrite map_app. simpl. now rewrite <- app_assoc.
      + simpl in Hlen. lia.
      + rewrite keys_app. simpl. now rewrite <- app_assoc. }
  apply (Hgen ns (py_range (List.length ns)) []).
  - apply length_py_range.
  - exact Hnd.
Qed.

Lemma numbered_range (p : dict Z Z) n : values p = py_range n -> numbered p.
Proof.
  intros Hv c. rewrite Hv.
  replace (List.length (py_set (py_range n))) with n; [tauto|].
  rewrite <- (length_py_range n) at 1. symmetry.
  apply length_py_set; [apply NoDup_py_range|]. tauto.
Qed.

(** Partitions with the same communities are numbered alike. *)
Lemma numbered_same_values (p q : dict Z Z) :
  (forall c, In c (values p) <-> In c (values q)) -> numbered q -> numbered p.
Proof.
  intros Hpq Hq c.
  replace (List.length (py_set (values p)))
    with (List.length (py_set (values q))).
  - rewrite Hpq. apply Hq.
  - symmetry. apply length_py_set; [apply NoDup_py_set|].
    intros c0. rewrite in_py_set. symmetry. apply Hpq.
Qed.

(** *** One level *)

Lemma mfold_returns {A S} (body : S -> A -> M S) (P : S -> Prop) (xs : list A) :
  (forall acc x w, P acc -> In x xs ->
     exists acc' w', body acc x w = (Ok acc', w') /\ P acc') ->
  forall acc w, P acc ->
    exists r w', mfold body xs acc w = (Ok r, w') /\ P r.
Proof.
  induction xs as [|x xs IH]; intros Hstep acc w Hacc; simpl.
  - exists acc, w. now split.
  - destruct (Hstep acc x w Hacc (or_introl eq_refl)) as (acc' & w1 & Hx & Hacc').
    unfold bind. rewrite Hx. apply IH; [|exact Hacc'].
    intros acc0 y w0 H0 Hy. apply Hstep; [exact H0|now right].
Qed.

Section NoLookupFails.
Context {F : Type} `{Num F}.
Local Abbreviation Graph := (nx.Graph F).
Local Abbreviation Status := (community_louvain.Status (F:=F)).
Import community_louvain.

Lemma closed_neighbor (G : Graph) u v :
  closed G -> In v (keys (nx.neighbors G u)) -> In v (nx.nodes G).
Proof.
  intros Hc Hv. apply (Hc u v). rewrite has_edge_neighbors.
  now apply dict_mem_true.
Qed.

Lemma neighcom_returns node (graph : Graph) (status : Status) :
  (forall v, In v (keys (nx.neighbors graph node)) ->
             In v (keys (node2com status))) ->
  exists r, __neighcom node graph status = Ok r.
Proof.
  intros Hcov. unfold __neighcom. apply ofold_defined.
  intros acc [v a] Hin. destruct (v =? node); [eauto|].
  assert (Hv : In v (keys (node2com status))).
  { apply Hcov. change v with (fst (v, a)). unfold keys. now apply in_map. }
  unfold dict_item. destruct (dict_get (node2com status) v) eqn:E.
  - cbn [obind]. eauto.
  - apply dict_get_None in E. contradiction.
Qed.

Lemma visit_node_returns (graph : Graph) (status : Status) modified node w :
  In node (keys (node2com status)) ->
  (forall v, In v (keys (nx.neighbors graph node)) ->
             In v (keys (node2com status))) ->
  exists acc' w', visit_node graph (status, modified) node w = (Ok acc', w').
Proof.
  intros Hnode Hcov.
  destruct (dict_get (node2com status) node) as [com|] eqn:E;
    [|apply dict_get_None in E; contradiction].
  destruct (neighcom_returns node graph status Hcov) as [neigh Hn].
  destruct (shuffle_returns neigh w) as (cands & w1 & Hs & _).
  unfold visit_node, bind, lift, dict_item, __randomize.
  rewrite E, Hn, Hs. unfold ret. eauto.
Qed.

(** A pass over the nodes raises nothing when every node and every
    neighbour has a community. *)
Lemma one_level_loop_no_raise fuel :
  forall (graph : Graph) (status : Status) m w e w',
    closed graph ->
    incl (nx.nodes graph) (keys (node2com status)) ->
    one_level_loop fuel graph status m w <> (Raise e, w').
Proof.
  induction fuel as [|fuel IH]; intros graph status m w e w' Hc Hk; simpl.
  - discriminate.
  - unfold bind, __randomize.
    destruct (shuffle_returns (nx.nodes graph) w) as (order & w1 & -> & Ho).
    destruct (mfold_returns (visit_node graph)
                (fun acc => keys (node2com (fst acc)) = keys (node2com status))
                order) with (acc := (status, false)) (w := w1)
      as ([status' modified] & w2 & -> & Hk'); [|reflexivity|].
    + intros [st md] x w0 Hst Hx. cbn [fst] in Hst.
      destruct (visit_node_returns graph st md x w0) as (acc' & w3 & Hv).
      * rewrite Hst. apply Hk, Ho, Hx.
      * intros v Hv. rewrite Hst. apply Hk.
        now apply (closed_neighbor graph x v).
      * exists acc', w3. split; [exact Hv|].
        apply visit_node_keys in Hv. cbn [fst] in Hv. congruence.
    + cbn [fst] in Hk'.
      destruct (fltb _ f__MIN); [discriminate|].
      destruct modified; [|discriminate].
      apply IH; [exact Hc|]. now rewrite Hk'.
Qed.

Lemma one_level_no_raise fuel (graph : Graph) (status : Status) w e w' :
  closed graph ->
  incl (nx.nodes graph) (keys (node2com status)) ->
  __one_level fuel graph status w <> (Raise e, w').
Proof.
  intros Hc Hk. unfold __one_level, bind, log.
  now apply one_level_loop_no_raise.
Qed.

(** *** The induced graph *)

Lemma ofold_returns {A S} (body : S -> A -> outcome S) (P : S -> Prop)
    (xs : list A) :
  (forall acc x, P acc -> In x xs -> exists acc', body acc x = Ok acc' /\ P acc') ->
  forall acc, P acc -> exists r, ofold body xs acc = Ok r /\ P r.
Proof.
  induction xs as [|x xs IH]; intros Hstep acc Hacc; simpl.
  - exists acc. now split.
  - destruct (Hstep acc x Hacc (or_introl eq_refl)) as (acc' & Hx & Hacc').
    rewrite Hx. cbn [obind]. apply IH; [|exact Hacc'].
    intros acc0 y H0 Hy. apply Hstep; [exact H0|now right].
Qed.

Lemma ofold_raises {A S} (body : S -> A -> outcome S) (allowed : exn -> Prop)
    (xs : list A) :
  (forall acc x e, body acc x = Raise e -> allowed e) ->
  forall acc e, ofold body xs acc = Raise e -> allowed e.
Proof.
  intros Hstep. induction xs as [|x xs IH]; intros acc e; simpl.
  - discriminate.
  - destruct (body acc x) as [acc'|e'|] eqn:E; cbn [obind].
    + apply IH.
    + intros [= <-]. eapply Hstep. exact E.
    + discriminate.
Qed.

Lemma in_edges_from (adj : Graph) : forall seen n1 n2 d,
  In (n1, n2, d) (nx.edges_from adj seen) ->
  exists nbrs, In (n1, nbrs) adj /\ In (n2, d) nbrs.
Proof.
  induction adj as [|[n nbrs] adj IH]; intros seen n1 n2 d; simpl.
  - intros [].
  - rewrite in_app_iff. intros [Hin|Hin].
    + apply in_map_iff in Hin. destruct Hin as ([v a] & [= <- <- <-] & Hv).
      apply filter_In in Hv. exists nbrs. split; [now left|apply Hv].
    + destruct (IH _ _ _ _ Hin) as (nbrs' & Hr & Hv).
      exists nbrs'. split; [now right|exact Hv].
Qed.

Lemma neighbors_add_nodes_from ns : forall (G : Graph) x,
  nx.neighbors (nx.add_nodes_from G ns) x = nx.neighbors G x.
Proof.
  unfold nx.add_nodes_from.
  induction ns as [|n ns IH]; intros G x; simpl; [reflexivity|].
  now rewrite IH, neighbors_add_node.
Qed.

Lemma in_nodes_add_nodes_from ns : forall (G : Graph) x,
  In x (nx.nodes (nx.add_nodes_from G ns)) <-> In x (nx.nodes G) \/ In x ns.
Proof.
  unfold nx.add_nodes_from.
  induction ns as [|n ns IH]; intros G x; simpl; [tauto|].
  rewrite IH, in_nodes_add_node. intuition congruence.
Qed.

Lemma NoDup_nodes_add_nodes_from ns : forall G : Graph,
  NoDup (nx.nodes G) -> NoDup (nx.nodes (nx.add_nodes_from G ns)).
Proof.
  unfold nx.add_nodes_from.
  induction ns as [|n ns IH]; intros G Hnd; simpl; [exact Hnd|].
  now apply IH, NoDup_nodes_add_node.
Qed.

Lemma closed_add_edge (G : Graph) u v a :
  closed G -> closed (nx.add_edge G u v a).
Proof.
  intros Hc x y. rewrite has_edge_add_edge, in_nodes_add_edge.
  intros [Hxy|[[-> ->]|[-> ->]]]; auto.
  right. right. now apply (Hc x y).
Qed.

Lemma closed_add_nodes_from ns : closed (F:=F) (nx.add_nodes_from nx.empty_graph ns).
Proof.
  intros u v. rewrite has_edge_neighbors, neighbors_add_nodes_from.
  cbv. discriminate.
Qed.

Lemma dict_item_value (d : dict Z Z) k v : dict_item d k = Ok v -> In v (values d).
Proof.
  intros Hd. apply dict_item_Ok, dict_get_Some_In in Hd.
  change v with (snd (k, v)). unfold values. now apply in_map.
Qed.

Lemma dict_item_returns {V} (d : dict Z V) k :
  In k (keys d) -> exists v, dict_item d k = Ok v.
Proof.
  intros Hk. unfold dict_item. destruct (dict_get d k) eqn:E; [eauto|].
  apply dict_get_None in E. contradiction.
Qed.

(** The graph of the communities: it is built without a failing lookup,
    its nodes are the communities, and it is again a graph whose
    neighbours are nodes. *)
Lemma induced_graph_returns (partition : dict Z Z) (graph : Graph) :
  NoDup (nx.nodes graph) -> closed graph ->
  incl (nx.nodes graph) (keys partition) ->
  exists g', induced_graph partition graph = Ok g'
    /\ NoDup (nx.nodes g') /\ closed g'
    /\ forall c, In c (nx.nodes g') <-> In c (values partition).
Proof.
  intros Hnd Hc Hk. unfold induced_graph.
  apply (ofold_returns _
           (fun g' : Graph => NoDup (nx.nodes g') /\ closed g'
              /\ forall c, In c (nx.nodes g') <-> In c (values partition))).
  - intros ret [[n1 n2] d] (Hnd' & Hc' & Hn') Hin.
    apply in_edges_from in Hin. destruct Hin as (nbrs & Hrow & Hv).
    assert (H1 : In n1 (nx.nodes graph)).
    { change n1 with (fst (n1, nbrs)). unfold nx.nodes, keys. now apply in_map. }
    assert (H2 : In n2 (nx.nodes graph)).
    { apply (Hc n1 n2). now apply (row_has_edge graph n1 nbrs n2 d). }
    destruct (dict_item_returns partition n1 (Hk _ H1)) as [com1 E1].
    destruct (dict_item_returns partition n2 (Hk _ H2)) as [com2 E2].
    rewrite E1, E2. cbn [obind]. eexists. split; [reflexivity|].
    apply dict_item_value in E1, E2.
    split; [now apply NoDup_nodes_add_edge|].
    split; [now apply closed_add_edge|].
    intros c. rewrite in_nodes_add_edge, Hn'. intuition congruence.
  - split; [apply NoDup_nodes_add_nodes_from; constructor|].
    split; [apply closed_add_nodes_from|].
    intros c. rewrite in_nodes_add_nodes_from. simpl. tauto.
Qed.

(** *** Reading the last level *)

Lemma dict_set_app_absent {V} (d r : dict Z V) k c v :
  ~ In k (keys d) -> dict_set (d ++ (k, c) :: r) k v = d ++ (k, v) :: r.
Proof.
  induction d as [|[k' v'] d IH]; simpl; intros Hk.
  - destruct (eq_dec k k); [reflexivity|congruence].
  - destruct (eq_dec k k') as [->|Hne]; [tauto|].
    rewrite IH; [reflexivity|tauto].
Qed.

Lemma relabel_fold (level : dict Z Z) :
  forall (rest done : dict Z Z),
    NoDup (keys (done ++ rest)) ->
    incl (values rest) (keys level) ->
    ofold (fun part nc =>
             c <-? dict_item level (snd nc) ;;
             Ok (dict_set part (fst nc) c))
          rest (done ++ rest)
    = Ok (done ++ map (fun nc => (fst nc, dict_get_default level (snd nc) 0))
                      rest).
Proof.
  induction rest as [|[k c] rest IH]; intros done Hnd Hin; simpl.
  - reflexivity.
  - destruct (dict_item_returns level c) as [v Ev].
    { apply Hin. now left. }
    rewrite Ev. cbn [obind]. rewrite dict_set_app_absent.
    2:{ rewrite keys_app in Hnd. simpl in Hnd.
        apply NoDup_remove_2 in Hnd. intros Hd. apply Hnd.
        apply in_or_app. now left. }
    apply dict_item_Ok in Ev. unfold dict_get_default at 1. rewrite Ev.
    replace (done ++ (k, v) :: rest) with ((done ++ [(k, v)]) ++ rest)
      by now rewrite <- app_assoc.
    rewrite IH.
    + now rewrite <- app_assoc.
    + rewrite <- app_assoc. simpl. rewrite keys_app in *. exact Hnd.
    + intros x Hx. apply Hin. now right.
Qed.

(** Relabelling a partition by the next level: every node moves to the
    community of its community, and all communities of the level are
    reached. *)
Lemma relabel_returns (partition level : dict Z Z) :
  NoDup (keys partition) -> NoDup (keys level) ->
  (forall c, In c (values partition) <-> In c (keys level)) ->
  exists p', relabel partition level = Ok p'
             /\ keys p' = keys partition
             /\ forall c, In c (values p') <-> In c (values level).
Proof.
  intros Hnd Hndl Hfit. unfold relabel.
  assert (Hin : incl (values partition) (keys level)).
  { intros c Hc. now apply Hfit. }
  pose proof (relabel_fold level partition [] Hnd Hin) as Hfold.
  cbn [app] in Hfold. rewrite Hfold. clear Hfold.
  eexists. split; [reflexivity|]. split.
  - unfold keys. rewrite map_map. reflexivity.
  - intros c. unfold values. rewrite map_map. cbn [snd]. rewrite in_map_iff.
    split.
    + intros ([k v] & <- & Hkv). cbn [snd].
      assert (Hv : In v (keys level)).
      { apply Hfit. change v with (snd (k, v)). now apply in_map. }
      unfold dict_get_default. destruct (dict_get level v) as [c'|] eqn:E.
      * apply dict_get_Some_In in E. change c' with (snd (v, c')).
        now apply in_map.
      * apply dict_get_None in E. contradiction.
    + intros Hc. apply in_map_iff in Hc. destruct Hc as ([k c'] & <- & Hkc).
      cbn [snd].
      assert (Hk : In k (values partition)).
      { apply Hfit. change k with (fst (k, c')). unfold keys. now apply in_map. }
      unfold values in Hk. apply in_map_iff in Hk.
      destruct Hk as ([n k'] & Hk' & Hn). cbn [snd] in Hk'. subst k'.
      exists (n, k). split; [|exact Hn]. cbn [snd].
      unfold dict_get_default.
      now rewrite (dict_get_In_NoDup level k c' Hndl Hkc).
Qed.

Lemma last_default {A} (l : list A) : forall x d d',
  last (x :: l) d = last (x :: l) d'.
Proof.
  induction l as [|y l IH]; intros x d d'; [reflexivity|].
  change (last (x :: y :: l) d) with (last (y :: l) d).
  change (last (x :: y :: l) d') with (last (y :: l) d'). apply IH.
Qed.

Lemma relabel_levels_return :
  forall (rest : list (dict Z Z)) (part : dict Z Z),
    NoDup (keys part) ->
    match rest with
    | [] => True
    | q :: _ => forall c, In c (values part) <-> In c (keys q)
    end ->
    chained rest ->
    exists p, ofold relabel rest part = Ok p
              /\ keys p = keys part
              /\ forall c, In c (values p) <-> In c (values (last rest part)).
Proof.
  induction rest as [|q rest IH]; intros part Hnd Hfit Hch; simpl.
  - exists part. repeat split; tauto.
  - destruct Hch as ([Hndq _] & Hq & Hch).
    destruct (relabel_returns part q Hnd Hndq Hfit) as (p' & -> & Hk & Hv).
    cbn [obind].
    destruct (IH p') as (p & Hp & Hkp & Hvp).
    + now rewrite Hk.
    + destruct rest as [|q' rest]; [exact I|].
      intros c. rewrite Hv. apply Hq.
    + exact Hch.
    + exists p. split; [exact Hp|]. split; [congruence|].
      intros c. rewrite Hvp. destruct rest as [|q' rest]; [apply Hv|].
      now rewrite (last_default rest q' p' part).
Qed.

Lemma chained_last (first : dict Z Z) rest :
  chained (first :: rest) -> level_ok (last rest first).
Proof.
  revert first. induction rest as [|q rest IH]; intros first (Hf & _ & Hch).
  - exact Hf.
  - change (last (q :: rest) first) with
      (match rest with [] => q | _ => last rest first end).
    destruct rest as [|q' rest]; [apply Hch|].
    rewrite (last_default rest q' first q). now apply IH.
Qed.

(** The last level is read without a failing lookup; the partition read
    has the nodes of the first level and the communities of the last. *)
Lemma partition_at_level_returns (first : dict Z Z) rest :
  chained (first :: rest) ->
  exists p, partition_at_level (first :: rest) (List.length rest) = Ok p
            /\ keys p = keys first /\ numbered p.
Proof.
  intros Hch. pose proof (chained_last first rest Hch) as [_ Hnum].
  destruct Hch as ([Hnd _] & Hfit & Hch). unfold partition_at_level.
  rewrite Nat.ltb_irrefl, firstn_all.
  destruct (relabel_levels_return rest first Hnd Hfit Hch)
    as (p & -> & Hk & Hv).
  exists p. split; [reflexivity|]. split; [exact Hk|].
  now apply (numbered_same_values p (last rest first)).
Qed.

(** *** The dendrogram *)

Lemma chained_snoc (sl : list (dict Z Z)) (p : dict Z Z) :
  sl <> [] -> chained sl -> level_ok p ->
  (forall c, In c (values (last sl [])) <-> In c (keys p)) ->
  chained (sl ++ [p]).
Proof.
  induction sl as [|q sl IH]; [congruence|]. intros _ (Hok & Hq & Hsl) Hp Hlast.
  destruct sl as [|q' sl].
  - simpl. auto.
  - change ((q :: q' :: sl) ++ [p]) with (q :: ((q' :: sl) ++ [p])).
    split; [exact Hok|]. split; [exact Hq|].
    apply IH; [discriminate|exact Hsl|exact Hp|exact Hlast].
Qed.

(** The levels are built alike for every property [W] of graphs that the
    induced graph inherits; [allowed] is what initialising a level may
    raise on a graph with that property. *)
Section Levels.
Variable W : Graph -> Prop.
Variable allowed : exn -> Prop.
Hypothesis W_induced : forall (p : dict Z Z) (g g' : Graph),
  NoDup (nx.nodes g) -> W g -> induced_graph p g = Ok g' -> W g'.
Hypothesis W_init : forall (st : Status) (g : Graph) e,
  W g -> Status_init st g = Raise e -> allowed e.

Lemma dendrogram_loop_sound fuel pass_fuel :
  forall (graph : Graph) (status : Status) m (sl : list (dict Z Z)) w,
    NoDup (nx.nodes graph) -> closed graph -> W graph ->
    keys (node2com status) = nx.nodes graph ->
    sl <> [] -> chained sl ->
    (forall c, In c (values (last sl [])) <-> In c (nx.nodes graph)) ->
    match dendrogram_loop fuel pass_fuel graph status m sl w with
    | (Ok res, _) => chained res
    | (Raise e, _) => allowed e
    | (OutOfFuel, _) => True
    end.
Proof.
  induction fuel as [|fuel IH];
    intros graph status m sl w Hnd Hc HW Hk Hne Hch Hl; simpl; [exact I|].
  unfold bind.
  destruct (__one_level pass_fuel graph status w) as [[st1|e1|] w1] eqn:E1;
    [| |exact I].
  2:{ exfalso. revert E1. apply one_level_no_raise; [exact Hc|].
      rewrite Hk. apply incl_refl. }
  apply one_level_keys in E1.
  destruct (fltb _ f__MIN); [exact Hch|].
  unfold lift.
  destruct (renumber_returns (node2com st1)) as [partition Er]. rewrite Er.
  pose proof (renumber_numbered _ _ Er) as Hnum.
  apply renumber_keys in Er.
  assert (Hkp : keys partition = nx.nodes graph) by congruence.
  destruct (induced_graph_returns partition graph Hnd Hc)
    as (g' & Ei & Hnd' & Hc' & Hn').
  { rewrite Hkp. apply incl_refl. }
  rewrite Ei. apply (W_induced _ _ _ Hnd HW) in Ei.
  destruct (Status_init st1 g') as [st2|e2|] eqn:E2; [| |exact I].
  2:{ now apply W_init in E2. }
  apply Status_init_keys in E2; [|exact Hnd'].
  apply IH; try assumption.
  - now destruct sl.
  - apply chained_snoc; [exact Hne|exact Hch| |now rewrite Hkp].
    split; [now rewrite Hkp|exact Hnum].
  - rewrite last_last. intros c. symmetry. apply Hn'.
Qed.

Lemma generate_dendrogram_sound fuel (graph : Graph) w :
  NoDup (nx.nodes graph) -> closed graph -> W graph ->
  match generate_dendrogram fuel graph w with
  | (Ok res, _) => chained res
  | (Raise e, _) => allowed e
  | (OutOfFuel, _) => True
  end.
Proof.
  intros Hnd Hc HW. unfold generate_dendrogram.
  destruct (Nat.eqb (nx.number_of_edges graph) 0).
  { simpl. split; [split|split; exact I].
    - now rewrite enumerate_nodes_keys.
    - apply (numbered_range _ (List.length (nx.nodes graph))).
      now apply enumerate_nodes_values. }
  unfold bind, lift.
  destruct (Status_init Status_new graph) as [st0|e0|] eqn:E0; [| |exact I].
  2:{ now apply W_init in E0. }
  apply Status_init_keys in E0; [|exact Hnd].
  destruct (__one_level fuel graph st0 w) as [[st1|e1|] w1] eqn:E1;
    [| |exact I].
  2:{ exfalso. revert E1. apply one_level_no_raise; [exact Hc|].
      rewrite E0. apply incl_refl. }
  apply one_level_keys in E1.
  destruct (renumber_returns (node2com st1)) as [partition Er]. rewrite Er.
  pose proof (renumber_numbered _ _ Er) as Hnum.
  apply renumber_keys in Er.
  assert (Hkp : keys partition = nx.nodes graph) by congruence.
  destruct (induced_graph_returns partition graph Hnd Hc)
    as (g' & Ei & Hnd' & Hc' & Hn').
  { rewrite Hkp. apply incl_refl. }
  rewrite Ei. apply (W_induced _ _ _ Hnd HW) in Ei.
  destruct (Status_init st1 g') as [st2|e2|] eqn:E2; [| |exact I].
  2:{ now apply W_init in E2. }
  apply Status_init_keys in E2; [|exact Hnd'].
  apply dendrogram_loop_sound; try assumption.
  - discriminate.
  - simpl. split; [split; [now rewrite Hkp|exact Hnum]|split; exact I].
  - simpl. intros c. symmetry. apply Hn'.
Qed.

(** What [best_partition] can raise is what initialising a level can
    raise. *)
Lemma best_partition_raises_at_init fuel (graph : Graph) w e w' :
  NoDup (nx.nodes graph) -> closed graph -> W graph ->
  best_partition fuel graph w = (Raise e, w') -> allowed e.
Proof.
  intros Hnd Hc HW. unfold best_partition, bind, log.
  set (w0 := {| random_state := random_state w;
                trace := trace w ++ [Call_best_partition] |}).
  pose proof (generate_dendrogram_sound fuel graph w0 Hnd Hc HW) as Hs.
  destruct (generate_dendrogram fuel graph w0) as [[dendo|e0|] w1] eqn:Eg.
  - apply generate_dendrogram_first in Eg; [|exact Hnd].
    destruct Eg as (first & rest & -> & Hk).
    destruct (partition_at_level_returns first rest Hs) as (p & Hp & _).
    unfold lift.
    replace (List.length (first :: rest) - 1)%nat with (List.length rest)
      by (simpl; lia).
    rewrite Hp. discriminate.
  - intros [= <- _]. exact Hs.
  - discriminate.
Qed.

End Levels.

(** The partition [best_partition] returns numbers its communities
    [0 .. k-1]. *)
Lemma best_partition_numbered fuel (graph : Graph) w P w' :
  NoDup (nx.nodes graph) -> closed graph ->
  best_partition fuel graph w = (Ok P, w') -> numbered P.
Proof.
  intros Hnd Hc. unfold best_partition, bind, log.
  set (w0 := {| random_state := random_state w;
                trace := trace w ++ [Call_best_partition] |}).
  pose proof (generate_dendrogram_sound (fun _ => True) (fun _ => True)
                (fun _ _ _ _ _ _ => I) (fun _ _ _ _ _ => I)
                fuel graph w0 Hnd Hc I) as Hs.
  destruct (generate_dendrogram fuel graph w0) as [[dendo|e0|] w1] eqn:Eg;
    try discriminate.
  apply generate_dendrogram_first in Eg; [|exact Hnd].
  destruct Eg as (first & rest & -> & Hk).
  destruct (partition_at_level_returns first rest Hs) as (p & Hp & _ & Hnum).
  unfold lift.
  replace (List.length (first :: rest) - 1)%nat with (List.length rest)
    by (simpl; lia).
  rewrite Hp. now intros [= <- _].
Qed.

End NoLookupFails.

(** ** No degree is negative *)

Lemma in_dict_set {K V} `{EqDec K} (d : dict K V) k v k' v' :
  In (k', v') (dict_set d k v) -> (k' = k /\ v' = v) \/ In (k', v') d.
Proof.
  induction d as [|[k0 v0] d IH]; simpl.
  - intros [[= <- <-]|[]]. now left.
  - destruct (eq_dec k k0) as [->|Hne]; simpl.
    + intros [[= <- <-]|Hin]; [now left|right; now right].
    + intros [Hin|Hin]; [right; now left|].
      destruct (IH Hin) as [Hl|Hr]; [now left|right; now right].
Qed.

(** The arithmetic facts that keep degrees from being negative: zero is
    not negative, and a sum of two numbers that are not negative is not
    negative.  Binary64 has them ([float_nonneg_add]). *)
Section NonNegative.
Context {F : Type} `{Num F}.
Local Abbreviation Graph := (nx.Graph F).
Local Abbreviation Status := (community_louvain.Status (F:=F)).
Import community_louvain.

Hypothesis nonneg_zero : nonneg fzero.
Hypothesis nonneg_one : nonneg fone.
Hypothesis nonneg_add : forall x y, nonneg x -> nonneg y -> nonneg (fadd x y).

Lemma nonneg_fold (l : list F) : forall acc,
  nonneg acc -> Forall nonneg l -> nonneg (fold_left fadd l acc).
Proof.
  induction l as [|x l IH]; intros acc Hacc Hl; simpl; [exact Hacc|].
  inversion Hl as [|? ? Hx Hl']; subst. apply IH; [|exact Hl'].
  now apply nonneg_add.
Qed.

Lemma nonneg_degree_of n (nbrs : dict Z (nx.attrs F)) :
  (forall v a, In (v, a) nbrs -> nonneg (nx.weight_of a fone)) ->
  nonneg (nx.degree_of n nbrs).
Proof.
  intros Hw. unfold nx.degree_of.
  assert (Hsum : nonneg (nx.fsum (map (fun dd => nx.weight_of dd fone)
                                      (values nbrs)))).
  { unfold nx.fsum. apply nonneg_fold; [exact nonneg_zero|].
    apply Forall_forall. intros x Hx. apply in_map_iff in Hx.
    destruct Hx as (a & <- & Ha). unfold values in Ha.
    apply in_map_iff in Ha. destruct Ha as ([v a'] & <- & Hin).
    now apply (Hw v a'). }
  destruct (dict_get nbrs n) as [dd|] eqn:E; [|exact Hsum].
  apply nonneg_add; [exact Hsum|].
  apply dict_get_Some_In in E. now apply (Hw n dd).
Qed.

Lemma Status_init_no_raise (st : Status) (graph : Graph) e :
  nonneg_weights graph -> Status_init st graph <> Raise e.
Proof.
  intros Hw Hi. unfold Status_init in Hi.
  match type of Hi with context [ofold ?b ?l ?a] =>
    destruct (ofold b l a) as [r|e'|] eqn:E end; cbn [obind] in Hi;
    try discriminate.
  revert E. apply (ofold_raises _ (fun _ => False)).
  intros [st0 count] x e0. unfold Status_init_node.
  assert (Hd : fltb (nx.degree graph x) fzero = false).
  { apply nonneg_degree_of. intros v a. apply Hw. }
  rewrite Hd. discriminate.
Qed.

Lemma nonneg_get_edge_data (G : Graph) u v :
  nonneg_weights G ->
  nonneg (nx.weight_of (nx.get_edge_data G u v (Some fzero)) fone).
Proof.
  intros Hw. unfold nx.get_edge_data.
  destruct (dict_get G u) as [nbrs|] eqn:Eu; [|exact nonneg_zero].
  unfold dict_get_default.
  destruct (dict_get nbrs v) as [a|] eqn:Ev; [|exact nonneg_zero].
  apply (Hw u v). rewrite (neighbors_Some _ _ _ Eu).
  now apply dict_get_Some_In.
Qed.

Lemma nonneg_weights_add_edge (G : Graph) u v w :
  nonneg w -> nonneg_weights G ->
  nonneg_weights (nx.add_edge G u v (Some w)).
Proof.
  intros Hw HG x y a. rewrite neighbors_add_edge. cbv zeta.
  cbn [nx.attrs_update].
  destruct (Z.eq_dec v x) as [<-|Hvx].
  - intros Hin. apply in_dict_set in Hin.
    destruct Hin as [[_ ->]|Hin]; [exact Hw|].
    destruct (Z.eq_dec u v) as [->|Huv].
    + apply in_dict_set in Hin.
      destruct Hin as [[_ ->]|Hin]; [exact Hw|]. now apply (HG v y).
    + now apply (HG v y).
  - destruct (Z.eq_dec u x) as [<-|Hux].
    + intros Hin. apply in_dict_set in Hin.
      destruct Hin as [[_ ->]|Hin]; [exact Hw|]. now apply (HG u y).
    + apply HG.
Qed.

Lemma nonneg_weights_induced (p : dict Z Z) (g g' : Graph) :
  NoDup (nx.nodes g) -> nonneg_weights g ->
  induced_graph p g = Ok g' -> nonneg_weights g'.
Proof.
  intros Hnd Hw. unfold induced_graph.
  assert (Hgen : forall es (g0 : Graph),
            (forall n1 n2 d, In (n1, n2, d) es ->
                             nonneg (nx.weight_of d fone)) ->
            nonneg_weights g0 ->
            ofold (fun ret e =>
                     let '(node1, node2, datas) := e in
                     let edge_weight := nx.weight_of datas fone in
                     com1 <-? dict_item p node1 ;;
                     com2 <-? dict_item p node2 ;;
                     let w_prec :=
                       nx.weight_of (nx.get_edge_data ret com1 com2 (Some fzero))
                                    fone in
                     Ok (nx.add_edge ret com1 com2
                           (Some (fadd w_prec edge_weight))))
                  es g0 = Ok g' ->
            nonneg_weights g').
  { induction es as [|[[n1 n2] d] es IH]; intros g0 Hes H0; simpl.
    - now intros [= <-].
    - destruct (dict_item p n1) as [com1| |]; cbn [obind]; try discriminate.
      destruct (dict_item p n2) as [com2| |]; cbn [obind]; try discriminate.
      apply IH.
      + intros m1 m2 d' Hin. apply (Hes m1 m2 d'). now right.
      + apply nonneg_weights_add_edge; [|exact H0].
        apply nonneg_add; [now apply nonneg_get_edge_data|].
        apply (Hes n1 n2 d). now left. }
  apply Hgen.
  - intros n1 n2 d Hin. apply in_edges_from in Hin.
    destruct Hin as (nbrs & Hrow & Hv).
    apply (Hw n1 n2 d). now rewrite (neighbors_item _ _ _ Hnd Hrow).
  - intros u v a. rewrite neighbors_add_nodes_from. intros [].
Qed.

(** With weights that are not negative, [best_partition] raises nothing. *)
Lemma best_partition_no_raise fuel (graph : Graph) w e w' :
  NoDup (nx.nodes graph) -> closed graph -> nonneg_weights graph ->
  best_partition fuel graph w <> (Raise e, w').
Proof.
  intros Hnd Hc Hw Hb.
  apply (best_partition_raises_at_init nonneg_weights (fun _ => False))
    in Hb; auto.
  - intros p g g'. apply nonneg_weights_induced.
  - intros st g e0 Hg Hi. now apply Status_init_no_raise in Hi.
Qed.

Lemma nonneg_weights_unweighted (G : Graph) :
  simple G -> unweighted G -> nonneg_weights G.
Proof.
  intros [_ Hk] Hu u v a Hin.
  rewrite (Hu u v a); [exact nonneg_one|].
  apply dict_get_In_NoDup; [apply Hk|exact Hin].
Qed.

End NonNegative.

(** ** Sums in binary64 *)

Lemma signed_binary_round_aux prec emax s m e l :
  signed s (binary_round_aux prec emax s m e l).
Proof.
  unfold binary_round_aux.
  destruct (shr_fexp prec emax m e l) as [mrs' e'].
  destruct (shr_fexp prec emax _ e' loc_Exact) as [mrs'' e''].
  destruct (shr_m mrs''); simpl; auto.
  destruct (Z.leb e'' (emax - prec)); simpl; auto.
Qed.

Lemma signed_binary_round prec emax s m e :
  signed s (binary_round prec emax s m e).
Proof.
  unfold binary_round.
  destruct (shl_align m e _) as [mz ez]. apply signed_binary_round_aux.
Qed.

(** [x < 0.0] is false exactly when [x] is a zero, a NaN or positive. *)
Lemma ltb_zero_signed (x : float) :
  PrimFloat.ltb x 0%float = false <-> signed false (Prim2SF x).
Proof.
  rewrite ltb_spec. change (Prim2SF 0%float) with (S754_zero false).
  unfold SFltb, SFcompare.
  destruct (Prim2SF x) as [s|s| |s m e]; simpl; try tauto;
    destruct s; simpl; split; intros; try discriminate; auto.
Qed.

(** Rounding never turns the sum of two floats that are not negative into
    a negative float. *)
Lemma float_nonneg_add (x y : float) :
  nonneg x -> nonneg y -> nonneg (fadd x y).
Proof.
  unfold nonneg.
  change (@fltb float float_num) with PrimFloat.ltb.
  change (@fadd float float_num) with PrimFloat.add.
  change (@fzero float float_num) with 0%float.
  rewrite !ltb_zero_signed, add_spec. unfold SF64add, SFadd.
  destruct (Prim2SF x) as [sx|sx| |sx mx ex];
    destruct (Prim2SF y) as [sy|sy| |sy my ey]; simpl; intros Hx Hy; subst;
    simpl; auto; try (destruct sx; simpl; auto; fail);
    try (destruct sx, sy; simpl; auto; fail).
  apply signed_binary_round.
Qed.

(** ** Runs in binary64 *)

Section Binary64Runs.
Local Abbreviation Graph := (nx.Graph float).

(** In binary64 the optimizer raises nothing on a graph without weights:
    no degree is negative and no lookup fails. *)
Lemma best_partition_binary64 fuel (G : Graph) w e w' :
  simple G -> unweighted G -> closed G ->
  community_louvain.best_partition fuel G w <> (Raise e, w').
Proof.
  intros Hs Hu Hc. apply best_partition_no_raise.
  - reflexivity.
  - apply float_nonneg_add.
  - apply Hs.
  - exact Hc.
  - apply nonneg_weights_unweighted; [reflexivity| |]; assumption.
Qed.

(** In binary64 the analysis of a graph without weights raises nothing
    but the error of a graph without links, and that one after the
    optimizer has returned. *)
Lemma detect_communities_binary64 fuel (G : Graph) w e w' :
  simple G -> unweighted G -> closed G ->
  detect_communities fuel (Some G) w = (Raise e, w') ->
  e = community_louvain.no_link
  /\ exists P, community_louvain.best_partition fuel G w = (Ok P, w').
Proof.
  intros Hs Hu Hc Hd. pose proof Hs as [Hnd _].
  destruct (Nat.eq_dec (nx.number_of_nodes G) 0) as [Hz|Hnz].
  { rewrite detect_communities_empty in Hd by (simpl; now rewrite Hz).
    discriminate. }
  rewrite detect_communities_nonempty in Hd by assumption.
  apply bind_Raise_inv in Hd. destruct Hd as [Hb|(P & w1 & Hb & Hd)].
  - now apply best_partition_binary64 in Hb.
  - apply bind_Raise_inv in Hd.
    destruct Hd as [Hm|(q & w2 & _ & Hr)]; [|discriminate].
    unfold lift in Hm. injection Hm as Hm <-.
    pose proof (best_partition_keys fuel G w P w1 Hnd Hb) as Hk.
    split; [|now exists P].
    destruct (modularity_covered G P Hnd Hc (covered_by_keys P _ Hk))
      as [[q Hq]|Hq]; congruence.
Qed.

Lemma analyze_network_binary64 fuel (state : graph_state float) (g : Graph)
    w w' e :
  state_get_G state = Some g ->
  simple g -> unweighted g -> closed g ->
  analyze_network fuel state w = (Raise e, w') ->
  e = mk_exn (HTTPException 500)
        "A graph without link has an undefined modularity"
  /\ detect_communities fuel (Some g) w
     = (Raise community_louvain.no_link, w')
  /\ exists P, community_louvain.best_partition fuel g w = (Ok P, w').
Proof.
  intros Hs Hsim Hu Hc Ha.
  apply analyze_network_Raise in Ha.
  destruct Ha as [(Hn & _)|(G & e0 & HG & Hd & ->)]; [congruence|].
  assert (G = g) by congruence. subst G.
  destruct (detect_communities_binary64 fuel g w e0 w' Hsim Hu Hc Hd)
    as [-> HP].
  split; [reflexivity|]. split; [exact Hd|exact HP].
Qed.


End Binary64Runs.

(** ** What the endpoints never answer *)

(** X15.  In binary64, on a graph without weights (as the loader builds
    them) whose nodes and neighbours are listed once and whose neighbours
    are all nodes, the analysis fails in one way only: [/analyze] answers
    status 500 only with the message of [modularity] for a graph without
    links, raised after the optimizer has returned its partition.  The
    optimizer raises nothing: [Status.init] meets no negative degree, since
    rounding keeps sums of non-negative weights non-negative, and no lookup
    fails. *)
Theorem analysis_fails_only_for_want_of_links :
  forall (fuel : nat) (state : graph_state float) (g : nx.Graph float)
         (w w' : world) (e : exn),
    state_get_G state = Some g ->
    simple g ->
    unweighted g ->
    closed g ->
    analyze_network fuel state w = (Raise e, w') ->
    e = mk_exn (HTTPException 500)
          "A graph without link has an undefined modularity"
    /\ detect_communities fuel (Some g) w
       = (Raise community_louvain.no_link, w')
    /\ exists partition : dict Z Z,
         community_louvain.best_partition fuel g w = (Ok partition, w').
Proof.
  intros fuel state g w w' e. apply analyze_network_binary64.
Qed.

Lemma analysis_fails_witness :
  analyze_network (F:=float) 0 [("G", Some lone_station)] (fresh [])
  = (Raise (mk_exn (HTTPException 500)
              "A graph without link has an undefined modularity"),
     {| random_state := []; trace := [Call_best_partition] |})
  /\ mk_exn (HTTPException 500)
       "A graph without link has an undefined modularity"
     = mk_exn (HTTPException 500)
         "A graph without link has an undefined modularity"
  /\ detect_communities (F:=float) 0 (Some lone_station) (fresh [])
     = (Raise community_louvain.no_link,
        {| random_state := []; trace := [Call_best_partition] |})
  /\ exists partition : dict Z Z,
       community_louvain.best_partition (F:=float) 0 lone_station (fresh [])
       = (Ok partition,
          {| random_state := []; trace := [Call_best_partition] |}).
Proof.
  split; [vm_compute; reflexivity|].
  apply (analysis_fails_only_for_want_of_links 0
           [("G", Some lone_station)] lone_station (fresh [])).
  - reflexivity.
  - split.
    + vm_compute. repeat constructor. simpl. tauto.
    + intros x. unfold nx.neighbors, dict_get_default. cbn.
      destruct (eq_dec x 1); constructor.
  - intros x y a. unfold nx.neighbors, dict_get_default. cbn.
    destruct (eq_dec x 1); discriminate.
  - intros u v. unfold nx.has_edge. cbn.
    destruct (eq_dec u 1); discriminate.
  - vm_compute. reflexivity.
Defined.



(** ** How the communities are numbered *)

(** X17.  The communities of a result are numbered from zero: in every
    result [detect_communities] returns, on a graph whose node list is
    duplicate-free and whose neighbours are all nodes, the community ids
    of the partition behind it are exactly [0, ..., k-1], [k] being the
    [total_communities_detected] it reports. *)
Theorem communities_are_numbered_from_zero :
  forall (F : Type) (HF : Num F) (fuel : nat) (g : nx.Graph F)
         (w w' : world) (r : dict string (pyval F)),
    NoDup (nx.nodes g) ->
    closed g ->
    nx.number_of_nodes g <> 0%nat ->
    detect_communities fuel (Some g) w = (Ok r, w') ->
    exists (partition : dict Z Z) (k : nat),
      community_louvain.best_partition fuel g w = (Ok partition, w')
      /\ dict_get r "total_communities_detected" = Some (PInt (Z.of_nat k))
      /\ forall c : Z, In c (values partition) <-> 0 <= c < Z.of_nat k.
Proof.
  intros F HF fuel g w w' r Hnd Hc Hne Hd.
  apply detect_communities_Ok in Hd; [|assumption].
  destruct Hd as (P & q & Hb & _ & ->).
  exists P, (List.length (py_set (values P))).
  split; [exact Hb|]. split; [reflexivity|].
  intros c. rewrite <- in_py_range.
  apply (best_partition_numbered fuel g w P w' Hnd Hc Hb).
Qed.

Lemma communities_numbered_witness :
  exists (r : dict string (pyval float)) (w' : world),
    detect_communities 10 (Some path6) (fresh []) = (Ok r, w')
    /\ exists (partition : dict Z Z) (k : nat),
         community_louvain.best_partition 10 path6 (fresh [])
         = (Ok partition, w')
         /\ dict_get r "total_communities_detected" = Some (PInt (Z.of_nat k))
         /\ forall c : Z, In c (values partition) <-> 0 <= c < Z.of_nat k.
Proof.
  eexists. eexists. split; [vm_compute; reflexivity|].
  apply (communities_are_numbered_from_zero float float_num 10 path6
           (fresh [])).
  - vm_compute. repeat constructor; simpl; intuition discriminate.
  - apply closed_of_symmetric, symmetric_edges_from, symmetric_empty.
  - vm_compute. discriminate.
  - vm_compute. reflexivity.
Defined.

(** X18.  The labels of an image name the communities: in every image
    [generate_graph_image] returns, the texts drawn at community centres
    are exactly "C0", ..., "C(k-1)", where [k] is the number of
    communities announced in the title. *)
Theorem labels_name_the_communities :
  forall (F : Type) (HF : Num F) (spring_layout : nx.Graph F -> layout F)
         (np_mean : list F -> F) (fuel : nat) (G : nx.Graph F)
         (w w' : world) (img : list (plt_call F)),
    NoDup (nx.nodes G) ->
    closed G ->
    generate_graph_image spring_layout np_mean fuel G w = (Ok img, w') ->
    exists k : nat,
      In (plt_title ("Bike Sharing Network - " ++ str (Z.of_nat k)
                     ++ " Communities Detected")) img
      /\ forall s : string,
           (exists x y, In (plt_text x y s) img)
           <-> exists c : Z, 0 <= c < Z.of_nat k /\ s = ("C" ++ str c)%string.
Proof.
  intros F HF sl mean fuel G w w' img Hnd Hc Hg.
  apply generate_graph_image_Ok in Hg.
  destruct Hg as (P & colors & centers & Hb & _ & Hcc & ->).
  exists (List.length (py_set (values P))). split.
  - apply in_or_app. right. apply in_or_app. right. now left.
  - pose proof (best_partition_numbered fuel G w P w' Hnd Hc Hb) as Hnum.
    pose proof (in_keys_centers P (sl G) centers Hcc) as Hkeys.
    intros s. split.
    + intros (x & y & Hin).
      apply in_app_or in Hin. destruct Hin as [Hin|Hin].
      { simpl in Hin. intuition discriminate. }
      apply in_app_or in Hin. destruct Hin as [Hin|Hin].
      2:{ simpl in Hin. intuition discriminate. }
      apply in_map_iff in Hin. destruct Hin as ([c coords] & Hl & Hin).
      unfold community_label in Hl. cbn [fst snd] in Hl.
      injection Hl as _ _ <-. exists c. split; [|reflexivity].
      apply in_py_range, Hnum, Hkeys.
      change c with (fst (c, coords)). unfold keys. now apply in_map.
    + intros (c & Hrange & ->).
      apply in_py_range, Hnum, Hkeys in Hrange.
      unfold keys in Hrange. apply in_map_iff in Hrange.
      destruct Hrange as ([c' coords] & Hc' & Hin). cbn [fst] in Hc'. subst c'.
      exists (mean (fst coords)), (mean (snd coords)).
      apply in_or_app. right. apply in_or_app. left.
      apply in_map_iff. exists (c, coords). split; [reflexivity|exact Hin].
Qed.

Lemma labels_witness :
  exists (img : list (plt_call float)) (w' : world),
    generate_graph_image origin_layout first_or_zero 10 mock_graph (fresh [])
    = (Ok img, w')
    /\ exists k : nat,
         In (plt_title ("Bike Sharing Network - " ++ str (Z.of_nat k)
                        ++ " Communities Detected")) img
         /\ forall s : string,
              (exists x y, In (plt_text x y s) img)
              <-> exists c : Z, 0 <= c < Z.of_nat k /\ s = ("C" ++ str c)%string.
Proof.
  eexists. eexists. split; [vm_compute; reflexivity|].
  eapply (labels_name_the_communities float float_num origin_layout
            first_or_zero 10 mock_graph (fresh [])).
  - vm_compute. repeat constructor; simpl; intuition discriminate.
  - apply closed_of_symmetric.
    unfold mock_graph. intros u v. rewrite !has_edge_add_edge.
    intuition (try discriminate; auto).
  - vm_compute. reflexivity.
Defined.

(** ** The score of one node per community, in binary64 *)

(** [0.0 < x] is false exactly when [x] is a zero, a NaN or negative. *)
Lemma zero_ltb_signed (x : float) :
  PrimFloat.ltb 0%float x = false <-> signed true (Prim2SF x).
Proof.
  rewrite ltb_spec. change (Prim2SF 0%float) with (S754_zero false).
  unfold SFltb, SFcompare.
  destruct (Prim2SF x) as [s|s| |s m e]; simpl; try tauto;
    destruct s; simpl; split; intros; try discriminate; auto.
Qed.

(** Rounding never turns the sum of two floats that are not positive into
    a positive float. *)
Lemma signed_add (x y : float) :
  signed true (Prim2SF x) -> signed true (Prim2SF y) ->
  signed true (Prim2SF (x + y)).
Proof.
  rewrite add_spec. unfold SF64add, SFadd.
  destruct (Prim2SF x) as [sx|sx| |sx mx ex];
    destruct (Prim2SF y) as [sy|sy| |sy my ey]; simpl; intros Hx Hy; subst;
    simpl; auto; try (destruct sx; simpl; auto; fail);
    try (destruct sx, sy; simpl; auto; fail).
  apply signed_binary_round.
Qed.

(** A square is not negative. *)
Lemma signed_square (x : float) : signed false (Prim2SF (x * x)).
Proof.
  rewrite mul_spec. unfold SF64mul, SFmul.
  destruct (Prim2SF x) as [s|s| |s m e]; simpl; auto;
    try (now destruct s).
  replace (xorb s s) with false by now destruct s.
  apply signed_binary_round_aux.
Qed.

(** What zero is divided into: a zero or a NaN. *)
Lemma zero_div (y : float) :
  match Prim2SF (0 / y) with
  | S754_zero _ | S754_nan => True
  | _ => False
  end.
Proof.
  rewrite div_spec. change (Prim2SF 0%float) with (S754_zero false).
  unfold SF64div, SFdiv. destruct (Prim2SF y); exact I.
Qed.

(** Zero divided by anything, less a square, is not positive. *)
Lemma signed_term (links x : float) :
  signed true (Prim2SF (0 / links - x * x)).
Proof.
  rewrite sub_spec. pose proof (zero_div links) as Hz.
  pose proof (signed_square x) as Hs. unfold SF64sub, SFsub.
  destruct (Prim2SF (0 / links)) as [sz|?| |? ? ?]; try contradiction;
    [|exact I].
  destruct (Prim2SF (x * x)) as [s|s| |s m e]; simpl in *; subst; auto.
  destruct sz, s; simpl; auto.
Qed.

Lemma ofold_invariant_in {A S} (body : S -> A -> outcome S) (P : S -> Prop)
    (xs : list A) :
  (forall acc x acc', In x xs -> P acc -> body acc x = Ok acc' -> P acc') ->
  forall acc r, P acc -> ofold body xs acc = Ok r -> P r.
Proof.
  induction xs as [|x xs IH]; intros Hstep acc r Hacc; simpl.
  - intros [= <-]. assumption.
  - intros Hb. apply obind_Ok_inv in Hb. destruct Hb as (acc' & Hx & Hrest).
    apply (IH (fun a y a' Hy => Hstep a y a' (or_intror Hy)) acc' r);
      [|exact Hrest].
    apply (Hstep acc x acc'); auto. now left.
Qed.

Section SingletonScore.
Local Abbreviation Graph := (nx.Graph float).
Import community_louvain.

Variable G : Graph.
Variable P : dict Z Z.
Hypothesis nodes_once : NoDup (nx.nodes G).
Hypothesis no_loop : forall u, nx.has_edge G u u = false.
Hypothesis alone : forall u v c,
  dict_get P u = Some c -> dict_get P v = Some c -> u = v.

(** No edge lies inside a community: [inc] stays empty. *)
Lemma singleton_inc r :
  ofold (modularity_node P G) G ([], []) = Ok r -> fst r = [].
Proof.
  apply (ofold_invariant_in (modularity_node P G) (fun acc => fst acc = []));
    [|reflexivity].
  intros [inc deg] [node nbrs] acc' Hrow Hinc. cbn [fst] in Hinc. subst inc.
  unfold modularity_node. intros Hb.
  apply obind_Ok_inv in Hb. destruct Hb as (com & Hcom & Hb).
  apply obind_Ok_inv in Hb. destruct Hb as (inc' & Hfold & Hb).
  injection Hb as <-. cbn [fst]. revert Hfold.
  apply (ofold_invariant_in (modularity_neighbor P node com)
           (fun inc => inc = [])); [|reflexivity].
  intros inc [neighbor datas] inc0 Hnb ->. unfold modularity_neighbor.
  intros Hb. apply obind_Ok_inv in Hb. destruct Hb as (ncom & Hncom & Hb).
  destruct (Z.eqb_spec ncom com) as [->|_]; [|now injection Hb as <-].
  exfalso. apply dict_item_Ok in Hcom, Hncom.
  assert (neighbor = node) by (eapply alone; eassumption). subst neighbor.
  pose proof (row_has_edge G node nbrs node datas nodes_once Hrow Hnb) as He.
  rewrite no_loop in He. discriminate.
Qed.

Lemma singleton_sum (links : float) (deg : dict Z float) (coms : list Z) :
  forall res : float,
    signed true (Prim2SF res) ->
    signed true
      (Prim2SF
         (fold_left
            (fun res com =>
               fadd res
                 (fsub (fdiv (dict_get_default (@nil (Z * float)) com fzero)
                             links)
                       (square (fdiv (dict_get_default deg com fzero)
                                     (fmul ftwo links)))))
            coms res)).
Proof.
  induction coms as [|c coms IH]; intros res Hres; simpl; [exact Hres|].
  apply IH. apply signed_add; [exact Hres|]. apply signed_term.
Qed.

(** With one node per community and no self-loop the score is not above
    zero. *)
Lemma singleton_score q :
  modularity P G = Ok q -> PrimFloat.ltb 0%float q = false.
Proof.
  unfold modularity.
  destruct (feqb (nx.size G) fzero); [discriminate|].
  intros Hb. apply obind_Ok_inv in Hb. destruct Hb as ([inc deg] & Hfold & Hb).
  pose proof (singleton_inc _ Hfold) as Hinc. cbn [fst] in Hinc. subst inc.
  injection Hb as <-. apply zero_ltb_signed. apply singleton_sum. exact I.
Qed.

End SingletonScore.

(** X19.  In binary64, the score [modularity] returns for a partition that
    gives every node a community of its own is never above zero when the
    graph has no self-loop: no edge lies inside a community, so every
    summand is zero less a square, and rounding does not turn a sum of
    such numbers positive.  (With a self-loop the score can be positive:
    see [scores_at_small_graphs].) *)
Theorem separate_nodes_score_no_more_than_zero :
  forall (G : nx.Graph float) (P : dict Z Z) (q : float),
    NoDup (nx.nodes G) ->
    (forall u, nx.has_edge G u u = false) ->
    (forall u v c, dict_get P u = Some c -> dict_get P v = Some c -> u = v) ->
    community_louvain.modularity P G = Ok q ->
    PrimFloat.ltb 0%float q = false.
Proof.
  intros G P q Hnd Hloop Halone. now apply singleton_score.
Qed.

Lemma separate_nodes_witness :
  community_louvain.modularity [(1, 0); (2, 1)] (trip_graph (F:=float))
  = Ok (-0.5)%float
  /\ PrimFloat.ltb 0%float (-0.5)%float = false.
Proof.
  split; [vm_compute; reflexivity|].
  apply (separate_nodes_score_no_more_than_zero trip_graph [(1, 0); (2, 1)]).
  - vm_compute. repeat constructor; simpl; intuition discriminate.
  - intros u. rewrite has_edge_neighbors.
    unfold nx.neighbors, dict_get_default, dict_mem. cbn.
    destruct (eq_dec u 1) as [->|]; [reflexivity|].
    destruct (eq_dec u 2) as [->|]; reflexivity.
  - intros u v c Hu Hv. cbn in Hu, Hv.
    destruct (eq_dec u 1), (eq_dec u 2), (eq_dec v 1), (eq_dec v 2);
      congruence.
  - vm_compute. reflexivity.
Defined.
